(** * pingtop_recs: engagement scoring and heuristic recommendations

    A shallow embedding of [pingtop_recs.py].  The script is a straight-line
    batch job over pandas tables; every derived table is modelled as a pure
    function of the loaded [interactions] and [pings] tables, a table being
    the list of its rows in row order.

    Numeric model.  A float64 column is a column of rationals [Q]: exact
    arithmetic on finite values, with [Qeq] as equality of numbers.  A
    missing cell (NaN or NaT used as the missing marker) is [None].  The
    only quotient whose divisor comes from the input is
    [watch_time_sec / duration_sec]; the catalog's durations are taken to be
    non-zero, as the data model has them, and a statement about the value of
    that quotient carries the hypothesis that the divisor is positive.
    Timestamps are integers (nanoseconds since the epoch, as in
    datetime64[ns]). *)

From Stdlib Require Import String Ascii List ZArith QArith Qminmax Bool.
From Stdlib Require Import Permutation Sorted Lia Lqa Qfield OrderedTypeEx.
Import ListNotations.

Open Scope string_scope.
Open Scope Q_scope.

(** ** Column helpers *)

(** [Series.fillna(d)] on one cell. *)
Definition fillna {A : Type} (d : A) (c : option A) : A :=
  match c with
  | Some v => v
  | None => d
  end.

(** [Series.sum()]. *)
Fixpoint qsum (l : list Q) : Q :=
  match l with
  | [] => 0
  | x :: t => x + qsum t
  end.

(** A dictionary with string keys, as its list of items. *)
Fixpoint dict_find {V : Type} (d : list (string * V)) (k : string) : option V :=
  match d with
  | [] => None
  | (k', v) :: t => if String.eqb k' k then Some v else dict_find t k
  end.

(** [dict.get(k, d)]. *)
Definition dict_get {V : Type} (d : list (string * V)) (k : string) (dflt : V) : V :=
  fillna dflt (dict_find d k).

(** [a > b] on floats. *)
Definition Qgt_bool (a b : Q) : bool := negb (Qle_bool a b).

(** [cell == s] on a column of strings read from a CSV: a blank cell is
    missing (NaN) and equals no string. *)
Definition cell_eqb (c : option string) (s : string) : bool :=
  match c with
  | Some v => String.eqb v s
  | None => false
  end.

(** [Series.count()]: the number of cells that are not missing. *)
Definition count {A : Type} (col : list (option A)) : nat :=
  length (filter (fun c => match c with Some _ => true | None => false end) col).

(** [Series.unique()]: the distinct values in order of first appearance. *)
Fixpoint unique (l : list string) : list string :=
  match l with
  | [] => []
  | x :: t => x :: filter (fun y => negb (String.eqb y x)) (unique t)
  end.

(** [Series.max()] and [Series.min()] of a float column; [None] stands for
    the NaN that an empty column yields. *)
Definition qmax_list (l : list Q) : option Q :=
  match l with
  | [] => None
  | x :: t => Some (fold_right Qmax x t)
  end.

Definition qmin_list (l : list Q) : option Q :=
  match l with
  | [] => None
  | x :: t => Some (fold_right Qmin x t)
  end.

(** [DataFrame.head(n)]: the first [n] rows, or all but the last [-n] rows
    when [n] is negative. *)
Definition head {A : Type} (n : Z) (l : list A) : list A :=
  if (0 <=? n)%Z then firstn (Z.to_nat n) l
  else firstn (length l - Z.to_nat (- n))%nat l.

(** [left.merge(right, on=key, how='left')]: every left row is paired with
    each right row of the same key, in the right table's order; a left row
    without a match is kept once with the right columns missing. *)
Definition merge_left {A B : Type} (ka : A -> string) (kb : B -> string)
    (left : list A) (right : list B) : list (A * option B) :=
  flat_map
    (fun a =>
       match filter (fun b => String.eqb (kb b) (ka a)) right with
       | [] => [(a, None)]
       | bs => map (fun b => (a, Some b)) bs
       end)
    left.

(** ** Input tables *)

Module Inter.
(** One row of interactions.csv after the id columns are cast to [str].
    [event_type] is not cast: a blank cell stays missing. *)
Record row : Type := mk {
  user_id : string;
  ping_id : string;
  event_type : option string;
  watch_time_sec : option Q;
  event_timestamp : option Z
}.
End Inter.

Module Pings.
(** One row of pings.csv after canonicalisation and timestamp parsing. *)
Record row : Type := mk {
  ping_id : string;
  creator_id : option string;
  main_hashtag : option string;
  category : option string;
  duration_sec : option Q;
  created_at : option Z
}.
End Pings.

(** ** Duration fallback (lines 56-60) *)

Fixpoint qinsert (x : Q) (l : list Q) : list Q :=
  match l with
  | [] => [x]
  | y :: t => if Qle_bool x y then x :: l else y :: qinsert x t
  end.

Definition qsort (l : list Q) : list Q := fold_right qinsert [] l.

(** [Series.median()]: NaN cells are skipped; [None] when nothing is left. *)
Definition median (col : list (option Q)) : option Q :=
  let known := qsort (flat_map (fun c => match c with Some v => [v] | None => [] end) col) in
  let n := length known in
  match known with
  | [] => None
  | _ =>
      if Nat.even n
      then Some ((nth (n / 2 - 1)%nat known 0 + nth (n / 2)%nat known 0) / 2)
      else Some (nth (n / 2)%nat known 0)
  end.

(** The catalog with [duration_sec] filled in: 30 everywhere when no
    duration is known at all, the median of the known ones otherwise. *)
Definition fill_duration (pings : list Pings.row) : list (Pings.row * Q) :=
  match median (map Pings.duration_sec pings) with
  | None => map (fun p => (p, 30)) pings
  | Some m => map (fun p => (p, fillna m (Pings.duration_sec p))) pings
  end.

(** ** Event scorer (lines 68-92) *)

Module Scored.
(** A row of [inter] once [duration_sec] and [watch_time_ratio] exist. *)
Record row : Type := mk {
  user_id : string;
  ping_id : string;
  event_type : option string;
  watch_time_sec : Q;
  event_timestamp : option Z;
  duration_sec : Q;
  watch_time_ratio : option Q
}.
End Scored.

(** [np.where(event_type == 'view', watch_time_sec / duration_sec, nan)]. *)
Definition watch_time_ratio (event_type : option string)
    (watch_time_sec duration_sec : Q) : option Q :=
  if cell_eqb event_type "view" then Some (watch_time_sec / duration_sec) else None.

(** Lines 70-73 for one event joined with the catalog's durations. *)
Definition resolve (e : Inter.row) (d : option (Pings.row * Q)) : Scored.row :=
  let w := fillna 0 (Inter.watch_time_sec e) in
  let dur := fillna 30 (option_map snd d) in
  Scored.mk (Inter.user_id e) (Inter.ping_id e) (Inter.event_type e) w
    (Inter.event_timestamp e) dur (watch_time_ratio (Inter.event_type e) w dur).

(** The table [inter] as it stands after line 73. *)
Definition inter_rows (inter : list Inter.row) (pings : list Pings.row)
    : list Scored.row :=
  map (fun ed => resolve (fst ed) (snd ed))
      (merge_left Inter.ping_id (fun pd => Pings.ping_id (fst pd)) inter
         (fill_duration pings)).

Definition weights : list (string * Q) :=
  [ ("view", 1); ("like", 2); ("comment", 3); ("share", 4);
    ("follow_creator", 2); ("impression", 1 # 10) ].

(** [weights.get(et, 0.0)]: a missing cell is no key of the dictionary. *)
Definition weight_of (et : option string) : Q :=
  match et with
  | Some k => dict_get weights k 0
  | None => 0
  end.

Definition event_score (r : Scored.row) : Q :=
  let et := Scored.event_type r in
  if cell_eqb et "view" then
    let ratio := match Scored.watch_time_ratio r with
                 | Some v => v
                 | None => 0
                 end in
    dict_get weights "view" 0 * ratio
  else weight_of et.

(** The event types that carry a weight. *)
Definition recognized (et : option string) : bool :=
  existsb (fun kv => cell_eqb et (fst kv)) weights.

(** ** Group-by machinery *)

Section GroupKeys.
Context {K : Type} (cmp : K -> K -> comparison).

(** Insertion into a strictly increasing list of keys. *)
Fixpoint key_insert (x : K) (l : list K) : list K :=
  match l with
  | [] => [x]
  | y :: t =>
      match cmp x y with
      | Lt => x :: l
      | Eq => l
      | Gt => y :: key_insert x t
      end
  end.

(** The group labels of [groupby(..., sort=True)]: the distinct keys in
    increasing order. *)
Definition group_keys (l : list K) : list K := fold_right key_insert [] l.
End GroupKeys.

(** Order on a two-column key. *)
Definition pair_compare (a b : string * string) : comparison :=
  match String.compare (fst a) (fst b) with
  | Eq => String.compare (snd a) (snd b)
  | c => c
  end.

Definition pair_eqb (a b : string * string) : bool :=
  String.eqb (fst a) (fst b) && String.eqb (snd a) (snd b).

(** [Series.max()] on a timestamp column, NaT cells skipped. *)
Fixpoint ts_max (l : list (option Z)) : option Z :=
  match l with
  | [] => None
  | None :: t => ts_max t
  | Some x :: t =>
      match ts_max t with
      | None => Some x
      | Some y => Some (Z.max x y)
      end
  end.

(** ** Aggregator (lines 94-105) *)

Module UserPing.
Record row : Type := mk {
  user_id : string;
  ping_id : string;
  engagement_score : Q;
  last_ts : option Z;
  n_events : nat
}.
End UserPing.

(** Lines 95-99.  [sum] and [max] skip missing cells, and [count] counts
    the cells of [event_type] that are not missing. *)
Definition user_ping (rows : list Scored.row) : list UserPing.row :=
  let key r := (Scored.user_id r, Scored.ping_id r) in
  map (fun k =>
         let g := filter (fun r => pair_eqb (key r) k) rows in
         UserPing.mk (fst k) (snd k)
           (qsum (map event_score g))
           (ts_max (map Scored.event_timestamp g))
           (count (map Scored.event_type g)))
      (group_keys pair_compare (map key rows)).

Module PingGlobal.
Record row : Type := mk {
  ping_id : string;
  global_engagement : Q;
  users_interacted : nat
}.
End PingGlobal.

(** The grouped frame of lines 102-104, before [sort_values]. *)
Definition ping_global_groups (up : list UserPing.row) : list PingGlobal.row :=
  map (fun k =>
         let g := filter (fun r => String.eqb (UserPing.ping_id r) k) up in
         PingGlobal.mk k
           (qsum (map UserPing.engagement_score g))
           (length (unique (map UserPing.user_id g))))
      (group_keys String.compare (map UserPing.ping_id up)).

(** [sort_values(col, ascending=False)] with the default [kind].  pandas
    promises a reordering of the rows with the column in descending order;
    the default kind is 'quicksort', and only 'mergesort' and 'stable' are
    documented as stable, so the relative order of rows with equal keys is
    left to the implementation.  The sort is therefore an interface, and the
    pipeline is written against it. *)
Class SortKind : Type := {
  sort_desc : forall {A : Type}, (A -> Q) -> list A -> list A;
  sort_desc_perm : forall (A : Type) (key : A -> Q) (l : list A),
      Permutation l (sort_desc key l);
  sort_desc_sorted : forall (A : Type) (key : A -> Q) (l : list A),
      StronglySorted (fun a b => key b <= key a) (sort_desc key l)
}.

(** A sort kind is stable when rows with equal keys keep their order. *)
Definition stable (S : SortKind) : Prop :=
  forall (A : Type) (key : A -> Q) (l : list A) (q : Q),
    filter (fun a => Qeq_bool (key a) q) (sort_desc key l)
    = filter (fun a => Qeq_bool (key a) q) l.

(** A stable sort: insertion into a list kept in descending key order. *)
Section Insertion.
Context {A : Type} (key : A -> Q).

(** Insertion that stops at the first row whose key is not larger. *)
Fixpoint insert_first (x : A) (l : list A) : list A :=
  match l with
  | [] => [x]
  | y :: t => if Qle_bool (key y) (key x) then x :: l else y :: insert_first x t
  end.

Definition isort_first (l : list A) : list A := fold_right insert_first [] l.
End Insertion.

(** ** The default sort kind on a small table

    [sort_values] passes the key column to pandas' [nargsort], which for a
    descending sort reverses the column and its positions, calls NumPy's
    [argsort] with kind 'quicksort', and reverses what comes back.  On a
    CPU with AVX-512, NumPy sorts a float64 column of at most eight cells in
    a single vector register ([sort_zmm_64bit] of x86-simd-sort): the cells
    go to the first lanes, the other lanes are padded with +inf, and the
    register runs through a bitonic network of compare-exchange steps. *)

(** One lane of the register: a key, [None] standing for the +inf of a
    padding lane, and the position the key came from. *)
Definition lane : Type := (option Q * nat)%type.

Definition pad : lane := (None, 0%nat).

(** [a > b] on lane keys. *)
Definition key_gt (a b : option Q) : bool :=
  match a, b with
  | Some x, Some y => Qgt_bool x y
  | None, Some _ => true
  | _, None => false
  end.

Fixpoint set_nth {A : Type} (n : nat) (x : A) (l : list A) : list A :=
  match l, n with
  | [], _ => []
  | _ :: t, O => x :: t
  | y :: t, S m => y :: set_nth m x t
  end.

(** One compare-exchange between two lanes: the lower lane gets the smaller
    key and the upper lane the larger, each position following its key; two
    lanes of equal keys are left as they are. *)
Definition cmp_exchange (v : list lane) (c : nat * nat) : list lane :=
  let a := nth (fst c) v pad in
  let b := nth (snd c) v pad in
  if key_gt (fst a) (fst b) then set_nth (fst c) b (set_nth (snd c) a v) else v.

(** The bitonic network on eight lanes: six stages of four disjoint
    compare-exchanges. *)
Definition network_64bit : list (nat * nat) :=
  [ (0, 1); (2, 3); (4, 5); (6, 7);
    (0, 3); (1, 2); (4, 7); (5, 6);
    (0, 1); (2, 3); (4, 5); (6, 7);
    (0, 7); (1, 6); (2, 5); (3, 4);
    (0, 2); (1, 3); (4, 6); (5, 7);
    (0, 1); (2, 3); (4, 5); (6, 7) ]%nat.

Definition sort_zmm_64bit (v : list lane) : list lane :=
  fold_left cmp_exchange network_64bit v.

(** [argsort] of a float column of at most eight cells: the cells and their
    positions are loaded, the network is run, and the positions in the
    first lanes are stored back. *)
Definition argsort (keys : list Q) : list nat :=
  let n := length keys in
  let lanes := (combine (map Some keys) (seq 0 n) ++ repeat pad (8 - n))%list in
  map snd (firstn n (sort_zmm_64bit lanes)).

(** [nargsort(col, ascending=False)]: the column and the positions are
    reversed, sorted in ascending order, and the outcome is reversed. *)
Definition nargsort_desc (keys : list Q) : list nat :=
  let idx := rev (seq 0 (length keys)) in
  rev (map (fun i => nth i idx 0%nat) (argsort (rev keys))).

(** [DataFrame.take(indexer)]. *)
Definition take {A : Type} (indexer : list nat) (l : list A) : list A :=
  flat_map (fun i => match nth_error l i with
                     | Some x => [x]
                     | None => []
                     end) indexer.

(** [sort_values(col, ascending=False)] as it runs on a table of at most
    eight rows.  A longer table goes through parts of the library (several
    registers merged, then partitioning) that are not modelled here; the
    stable sort stands in for them, and nothing below is evaluated on such
    a table. *)
Definition default_sort {A : Type} (key : A -> Q) (l : list A) : list A :=
  if (length l <=? 8)%nat then take (nargsort_desc (map key l)) l
  else isort_first key l.

(** ** Derived tables of the recommender *)

Module Items.
(** A row of [items]: the catalog columns the recommender reads, plus the
    derived features. *)
Record row : Type := mk {
  ping_id : string;
  creator_id : option string;
  main_hashtag : option string;
  category : option string;
  created_at : option Z;
  global_pop : Q;
  global_pop_norm : Q;
  age_days : Z;
  freshness : Q
}.
End Items.

Module Affinity.
(** A row of [user_cat] (resp. [user_creator]); [key] is the category
    (resp. the creator). *)
Record row : Type := mk {
  user_id : string;
  key : string;
  count : nat;
  total : nat;
  affinity : Q
}.
End Affinity.

Module Cand.
(** A row of the working frame [df] inside [recommend_for_user]. *)
Record row : Type := mk {
  item : Items.row;
  user_cat_aff : Q;
  user_cre_aff : Q;
  score : Q
}.
End Cand.

Module Rec.
(** A row of the returned frame. *)
Record row : Type := mk {
  ping_id : string;
  score : Q;
  category : option string;
  main_hashtag : option string;
  creator_id : option string;
  reason : string
}.
End Rec.

(** One day, and [pd.to_datetime('2024-02-20')], in nanoseconds. *)
Definition day_ns : Z := 86400 * 10 ^ 9.
Definition fallback_now : Z := 1708387200 * 10 ^ 9.

(** Line 155. *)
Definition reference_now (created : list (option Z)) : Z :=
  fillna fallback_now (ts_max created).

(** Line 156 for one cell: [Timedelta.days] is the floor of the difference
    in days. *)
Definition age_days_of (now : Z) (created : option Z) : Z :=
  match created with
  | Some t => ((now - t) / day_ns)%Z
  | None => 30%Z
  end.

(** Line 157. *)
Definition freshness_of (age_days : Z) : Q := 1 / (1 + inject_Z age_days).

(** How an f-string renders a category cell. *)
Definition fmt_cell (c : option string) : string :=
  match c with
  | Some s => s
  | None => "nan"
  end.

(** Lines 183-190 for one row: [parts] grows by appends, in this order. *)
Definition reason_of (r : Cand.row) : string :=
  let parts : list string := [] in
  let parts :=
    if Qgt_bool (Cand.user_cat_aff r) 0
    then (parts ++ [String.append "prefers cat=" (fmt_cell (Items.category (Cand.item r)))])%list
    else parts in
  let parts :=
    if Qgt_bool (Cand.user_cre_aff r) 0
    then (parts ++ ["engaged this creator"])%list else parts in
  let parts :=
    if Qgt_bool (Items.global_pop_norm (Cand.item r)) (1 # 2)
    then (parts ++ ["globally popular"])%list else parts in
  let parts :=
    if Qgt_bool (Items.freshness (Cand.item r)) (2 # 100)
    then (parts ++ ["recent"])%list else parts in
  match parts with
  | [] => "popular/new"
  | _ => String.concat "; " parts
  end.

(** [Series.map(dict)]: a missing cell or an absent key gives NaN. *)
Definition map_dict (d : list (string * Q)) (c : option string) : option Q :=
  match c with
  | Some k => dict_find d k
  | None => None
  end.

Section Pipeline.
Context {S : SortKind}.

Definition ping_global (inter : list Inter.row) (pings : list Pings.row)
    : list PingGlobal.row :=
  sort_desc PingGlobal.global_engagement
    (ping_global_groups (user_ping (inter_rows inter pings))).

(** [ping_global.set_index('ping_id')['global_engagement']] read at one id. *)
Definition lookup_engagement (pg : list PingGlobal.row) (pid : string) : option Q :=
  option_map PingGlobal.global_engagement
    (find (fun g => String.eqb (PingGlobal.ping_id g) pid) pg).

(** Lines 148-157. *)
Definition items (inter : list Inter.row) (pings : list Pings.row)
    : list Items.row :=
  let pg := ping_global inter pings in
  let pop p := fillna 0 (lookup_engagement pg (Pings.ping_id p)) in
  let col := map pop pings in
  let norm : Q -> Q :=
    match qmax_list col, qmin_list col with
    | Some hi, Some lo =>
        if Qgt_bool hi lo then fun g => (g - lo) / (hi - lo) else fun _ => 0
    | _, _ => fun _ => 0
    end in
  let now := reference_now (map Pings.created_at pings) in
  map (fun p =>
         let a := age_days_of now (Pings.created_at p) in
         Items.mk (Pings.ping_id p) (Pings.creator_id p) (Pings.main_hashtag p)
           (Pings.category p) (Pings.created_at p)
           (pop p) (norm (pop p)) a (freshness_of a))
      pings.

(** Line 160. *)
Definition int_meta (inter : list Inter.row) (pings : list Pings.row)
    : list (Scored.row * option Items.row) :=
  merge_left Scored.ping_id Items.ping_id (inter_rows inter pings) (items inter pings).

(** The key column that [groupby(['user_id', col])] sees: a row whose [col]
    cell is missing (no catalog match, or a blank cell) belongs to no
    group. *)
Definition group_col (col : Items.row -> option string)
    (im : list (Scored.row * option Items.row)) : list (string * string) :=
  flat_map
    (fun ei =>
       match snd ei with
       | Some i =>
           match col i with
           | Some c => [(Scored.user_id (fst ei), c)]
           | None => []
           end
       | None => []
       end)
    im.

(** [groupby(['user_id', col]).size().reset_index(name='count')]. *)
Definition group_sizes (col : Items.row -> option string)
    (im : list (Scored.row * option Items.row)) : list ((string * string) * nat) :=
  let keys := group_col col im in
  map (fun k => (k, length (filter (pair_eqb k) keys)))
      (group_keys pair_compare keys).

(** Line 162: [groupby('user_id').size()], every joined row counted. *)
Definition user_total (im : list (Scored.row * option Items.row))
    : list (string * nat) :=
  let users := map (fun ei => Scored.user_id (fst ei)) im in
  map (fun u => (u, length (filter (String.eqb u) users)))
      (group_keys String.compare users).

(** Lines 161-164 (and 166-168): sizes merged with totals on [user_id],
    then divided. *)
Definition affinity_table (col : Items.row -> option string)
    (im : list (Scored.row * option Items.row)) : list Affinity.row :=
  flat_map
    (fun kc =>
       map (fun ut =>
              Affinity.mk (fst (fst kc)) (snd (fst kc)) (snd kc) (snd ut)
                (inject_Z (Z.of_nat (snd kc)) / inject_Z (Z.of_nat (snd ut))))
           (filter (fun ut => String.eqb (fst ut) (fst (fst kc))) (user_total im)))
    (group_sizes col im).

Definition user_cat (inter : list Inter.row) (pings : list Pings.row)
    : list Affinity.row :=
  affinity_table Items.category (int_meta inter pings).

Definition user_creator (inter : list Inter.row) (pings : list Pings.row)
    : list Affinity.row :=
  affinity_table Items.creator_id (int_meta inter pings).

(** Lines 173-174: the user's rows as a dictionary from key to affinity. *)
Definition affinity_dict (tbl : list Affinity.row) (uid : string)
    : list (string * Q) :=
  map (fun r => (Affinity.key r, Affinity.affinity r))
      (filter (fun r => String.eqb (Affinity.user_id r) uid) tbl).

(** Line 179. *)
Definition seen (inter : list Inter.row) (pings : list Pings.row) (uid : string)
    : list string :=
  unique (map Scored.ping_id
            (filter (fun r => String.eqb (Scored.user_id r) uid)
                    (inter_rows inter pings))).

(** Lines 172-180: the scored frame with the user's own items removed. *)
Definition candidates (inter : list Inter.row) (pings : list Pings.row)
    (uid : string) (alpha beta gamma delta : Q) : list Cand.row :=
  let ucat := affinity_dict (user_cat inter pings) uid in
  let ucre := affinity_dict (user_creator inter pings) uid in
  let df :=
    map (fun i =>
           let ca := fillna 0 (map_dict ucat (Items.category i)) in
           let cr := fillna 0 (map_dict ucre (Items.creator_id i)) in
           Cand.mk i ca cr
             (alpha * Items.global_pop_norm i + beta * ca + gamma * cr
              + delta * Items.freshness i))
        (items inter pings) in
  let sn := seen inter pings uid in
  filter (fun r => negb (existsb (String.eqb (Items.ping_id (Cand.item r))) sn)) df.

(** Line 181. *)
Definition recommend_df (inter : list Inter.row) (pings : list Pings.row)
    (uid : string) (topk : Z) (alpha beta gamma delta : Q) : list Cand.row :=
  head topk (sort_desc Cand.score (candidates inter pings uid alpha beta gamma delta)).

(** Lines 183-192: the reason column and the projection. *)
Definition recommend_for_user (inter : list Inter.row) (pings : list Pings.row)
    (uid : string) (topk : Z) (alpha beta gamma delta : Q) : list Rec.row :=
  map (fun r =>
         Rec.mk (Items.ping_id (Cand.item r)) (Cand.score r)
           (Items.category (Cand.item r)) (Items.main_hashtag (Cand.item r))
           (Items.creator_id (Cand.item r)) (reason_of r))
      (recommend_df inter pings uid topk alpha beta gamma delta).

End Pipeline.

(** ** Column names (lines 32-46) *)

(** [canonicalize(df, mapping)] on the frame's column labels: the mapping is
    first cut down to the keys that are columns, then every column that is
    a key takes the mapped name. *)
Definition canonicalize (columns : list string) (mapping : list (string * string))
    : list string :=
  let present :=
    filter (fun kv => existsb (String.eqb (fst kv)) columns) mapping in
  map (fun c => dict_get present c c) columns.

(** The three mappings, as written (the repeated key of the first one has
    the same value both times). *)
Definition inter_mapping : list (string * string) :=
  [ ("ouser_id", "user_id"); ("ouser_id", "user_id"); ("oping_id", "ping_id") ].

Definition pings_mapping : list (string * string) :=
  [ ("oping_id", "ping_id"); ("ocreator_id", "creator_id");
    ("omain_hashtag", "main_hashtag"); ("ocategory", "category");
    ("oduration_sec", "duration_sec"); ("ocreated_at", "created_at") ].

Definition users_mapping : list (string * string) :=
  [ ("ouser_id", "user_id"); ("osignup_date", "signup_date") ].

(** ** Cohorts (lines 123-141) *)

Module Users.
(** One row of users.csv.  A table without a [signup_date] column behaves
    as one whose [signup_date] cells are all missing: either way no user is
    flagged. *)
Record row : Type := mk {
  user_id : string;
  country : option string;
  signup_date : option Z;
  age : option Q
}.
End Users.

(** Lines 124-129: the [is_new] column.  A comparison with a missing date
    is false. *)
Definition is_new_flags (users : list Users.row) : list (Users.row * bool) :=
  let max_signup := ts_max (map Users.signup_date users) in
  map (fun u =>
         (u, match max_signup, Users.signup_date u with
             | Some m, Some t => (m - 7 * day_ns <=? t)%Z
             | _, _ => false
             end))
      users.

(** Line 131. *)
Definition inter_u (inter : list Inter.row) (pings : list Pings.row)
    (users : list Users.row) : list (Scored.row * option (Users.row * bool)) :=
  merge_left Scored.user_id (fun ub => Users.user_id (fst ub))
    (inter_rows inter pings) (is_new_flags users).

(** The labels of [groupby('is_new')]: the flags that occur, False first. *)
Definition flag_keys (l : list bool) : list bool :=
  filter (fun b => existsb (Bool.eqb b) l) [false; true].

(** [Series.mean()] of the cells that are present. *)
Definition mean (l : list Q) : Q := qsum l / inject_Z (Z.of_nat (length l)).

Module WatchGroup.
Record row : Type := mk {
  is_new : bool;
  avg_watch_time_ratio : Q;
  view_count : nat
}.
End WatchGroup.

(** Line 133.  Rows whose user is not in the users table have no flag and
    fall in no group. *)
Definition avg_watch_by_group (inter : list Inter.row) (pings : list Pings.row)
    (users : list Users.row) : list WatchGroup.row :=
  let views :=
    filter (fun ru => cell_eqb (Scored.event_type (fst ru)) "view")
           (inter_u inter pings users) in
  let flagged :=
    flat_map (fun ru => match snd ru with
                        | Some ub => [(snd ub, fst ru)]
                        | None => []
                        end) views in
  map (fun b =>
         let g := filter (fun br => Bool.eqb (fst br) b) flagged in
         let ratios :=
           flat_map (fun br => match Scored.watch_time_ratio (snd br) with
                               | Some v => [v]
                               | None => []
                               end) g in
         WatchGroup.mk b (mean ratios) (length ratios))
      (flag_keys (map fst flagged)).

Definition valid_types : list string := ["view"; "like"; "comment"; "share"].

(** Lines 137-138: distinct pings per user over the valid events. *)
Definition pings_per_user_groups (rows : list Scored.row) : list (string * nat) :=
  let valid :=
    filter (fun r => existsb (cell_eqb (Scored.event_type r)) valid_types) rows in
  map (fun u =>
         (u, length (unique (map Scored.ping_id
                               (filter (fun r => String.eqb (Scored.user_id r) u) valid)))))
      (group_keys String.compare (map Scored.user_id valid)).

Module PingsPerUser.
Record row : Type := mk {
  user_id : string;
  n_pings : Q;
  is_new : bool
}.
End PingsPerUser.

(** Line 139: the right join on the users table, a missing count filled
    with 0. *)
Definition pings_per_user (inter : list Inter.row) (pings : list Pings.row)
    (users : list Users.row) : list PingsPerUser.row :=
  map (fun ug =>
         PingsPerUser.mk (Users.user_id (fst (fst ug)))
           (fillna 0 (option_map (fun g => inject_Z (Z.of_nat (snd g))) (snd ug)))
           (snd (fst ug)))
      (merge_left (fun ub => Users.user_id (fst ub)) fst
         (is_new_flags users) (pings_per_user_groups (inter_rows inter pings))).

Module PingsGroup.
Record row : Type := mk {
  is_new : bool;
  avg_pings : Q;
  user_count : nat
}.
End PingsGroup.

(** Line 140. *)
Definition avg_pings_by_group (inter : list Inter.row) (pings : list Pings.row)
    (users : list Users.row) : list PingsGroup.row :=
  let ppu := pings_per_user inter pings users in
  map (fun b =>
         let g := filter (fun r => Bool.eqb (PingsPerUser.is_new r) b) ppu in
         PingsGroup.mk b (mean (map PingsPerUser.n_pings g)) (length g))
      (flag_keys (map PingsPerUser.is_new ppu)).

Section Reports.
Context {S : SortKind}.

(** Line 120: the ranking joined with the catalog, first ten rows. *)
Definition top10 (inter : list Inter.row) (pings : list Pings.row)
    : list (PingGlobal.row * option (Pings.row * Q)) :=
  head 10
    (merge_left PingGlobal.ping_id (fun pd => Pings.ping_id (fst pd))
       (ping_global inter pings) (fill_duration pings)).

End Reports.

(** * Notions used to state the properties *)

(** The catalog rows left for a user: those whose id occurs in none of the
    user's events. *)
Definition unseen_catalog (inter : list Inter.row) (pings : list Pings.row)
    (uid : string) : list Pings.row :=
  filter
    (fun p =>
       negb (existsb
               (fun e => String.eqb (Inter.user_id e) uid
                         && String.eqb (Inter.ping_id e) (Pings.ping_id p))
               inter))
    pings.

(** The four conditions in their fixed order, each with its label. *)
Definition reason_conditions (r : Cand.row) : list (bool * string) :=
  [ (Qgt_bool (Cand.user_cat_aff r) 0,
     String.append "prefers cat=" (fmt_cell (Items.category (Cand.item r))));
    (Qgt_bool (Cand.user_cre_aff r) 0, "engaged this creator");
    (Qgt_bool (Items.global_pop_norm (Cand.item r)) (1 # 2), "globally popular");
    (Qgt_bool (Items.freshness (Cand.item r)) (2 # 100), "recent") ].

(** The reason as the specification words it: the labels of the conditions
    that hold, joined by the separator, or the fallback label. *)
Definition reason_spec (r : Cand.row) : string :=
  match map snd (filter fst (reason_conditions r)) with
  | [] => "popular/new"
  | labels => String.concat "; " labels
  end.

(** The joined rows of one user, and whether a joined row has the grouping
    column. *)
Definition user_rows (im : list (Scored.row * option Items.row)) (uid : string)
    : list (Scored.row * option Items.row) :=
  filter (fun ei => String.eqb (Scored.user_id (fst ei)) uid) im.

Definition has_col (col : Items.row -> option string)
    (ei : Scored.row * option Items.row) : bool :=
  match snd ei with
  | Some i => match col i with Some _ => true | None => false end
  | None => false
  end.

(** The sum of a user's affinities in one affinity table. *)
Definition affinity_sum (tbl : list Affinity.row) (uid : string) : Q :=
  qsum (map snd (affinity_dict tbl uid)).

Definition Qnat (n : nat) : Q := inject_Z (Z.of_nat n).

(** Rows of equal engagement come in increasing ping_id. *)
Definition ties_by_ping_id (out : list PingGlobal.row) : Prop :=
  forall l1 a l2 b l3,
    out = (l1 ++ a :: l2 ++ b :: l3)%list ->
    PingGlobal.global_engagement a == PingGlobal.global_engagement b ->
    String.ltb (PingGlobal.ping_id a) (PingGlobal.ping_id b) = true.

(** A compare-exchange network over any type with a strict order, and the
    order on bits; a vector of bits is sorted when no [true] comes before a
    [false]. *)
Definition exchange {L : Type} (gt : L -> L -> bool) (d : L) (v : list L)
    (c : nat * nat) : list L :=
  let a := nth (fst c) v d in
  let b := nth (snd c) v d in
  if gt a b then set_nth (fst c) b (set_nth (snd c) a v) else v.

Definition bool_gt (a b : bool) : bool := a && negb b.

Fixpoint all_bools (n : nat) : list (list bool) :=
  match n with
  | O => [[]]
  | S m => flat_map (fun v => [false :: v; true :: v]) (all_bools m)
  end.

Fixpoint bsorted (v : list bool) : bool :=
  match v with
  | [] => true
  | x :: t => (negb x || forallb (fun b => b) t) && bsorted t
  end.

Definition lane_gt (a b : lane) : bool := key_gt (fst a) (fst b).

(** Whether a lane holds a cell of the column rather than padding. *)
Definition is_cell (a : lane) : bool :=
  match fst a with
  | Some _ => true
  | None => false
  end.

(** The lane that a row and its position are loaded into. *)
Definition load {A : Type} (key : A -> Q) (xi : A * nat) : lane :=
  (Some (key (fst xi)), snd xi).

(** An order given by a three-way comparison. *)
Class CmpOrder {K : Type} (cmp : K -> K -> comparison) : Prop := {
  cmp_eq : forall x y, cmp x y = Eq <-> x = y;
  cmp_antisym : forall x y, cmp x y = CompOpp (cmp y x);
  cmp_trans : forall x y z, cmp x y = Lt -> cmp y z = Lt -> cmp x z = Lt
}.

(** The (user, ping) pair of an aggregate row, and of a joined event. *)
Definition up_key (up : UserPing.row) : string * string :=
  (UserPing.user_id up, UserPing.ping_id up).

Definition row_key (r : Scored.row) : string * string :=
  (Scored.user_id r, Scored.ping_id r).

(** The joined rows of a user whose grouping column has the value [c]. *)
Definition rows_in_col (col : Items.row -> option string)
    (im : list (Scored.row * option Items.row)) (uid c : string)
    : list (Scored.row * option Items.row) :=
  filter
    (fun ei =>
       match snd ei with
       | Some i => match col i with
                   | Some c' => String.eqb c' c
                   | None => false
                   end
       | None => false
       end)
    (user_rows im uid).

(** The share of a user's joined rows that have the value [c]; 0 when there
    is no such row. *)
Definition col_share (col : Items.row -> option string)
    (im : list (Scored.row * option Items.row)) (uid c : string) : Q :=
  let n := length (rows_in_col col im uid c) in
  if Nat.eqb n 0 then 0 else Qnat n / Qnat (length (user_rows im uid)).

(** Whether a joined event has an event type, that is, whether its cell is
    not blank. *)
Definition has_type (r : Scored.row) : bool :=
  match Scored.event_type r with
  | Some _ => true
  | None => false
  end.

(** Line 137: the event types that count as an interaction. *)
Definition is_valid (r : Scored.row) : bool :=
  existsb (cell_eqb (Scored.event_type r)) valid_types.

(** The distinct pings among a user's view, like, comment and share
    events. *)
Definition valid_pings_of (rows : list Scored.row) (u : string) : list string :=
  unique (map Scored.ping_id
            (filter (fun r => String.eqb (Scored.user_id r) u)
                    (filter is_valid rows))).

(** The flag a joined row carries, if its user is in the users table. *)
Definition flag_of (ru : Scored.row * option (Users.row * bool)) : option bool :=
  option_map snd (snd ru).

(** The joined view rows. *)
Definition view_rows (inter : list Inter.row) (pings : list Pings.row)
    (users : list Users.row) : list (Scored.row * option (Users.row * bool)) :=
  filter (fun ru => cell_eqb (Scored.event_type (fst ru)) "view")
         (inter_u inter pings users).

(** The joined view rows of one cohort. *)
Definition cohort_views (inter : list Inter.row) (pings : list Pings.row)
    (users : list Users.row) (b : bool)
    : list (Scored.row * option (Users.row * bool)) :=
  filter (fun ru => match flag_of ru with
                    | Some b' => Bool.eqb b' b
                    | None => false
                    end)
         (view_rows inter pings users).

(** The watch ratio of a joined row. *)
Definition ratio_of (ru : Scored.row * option (Users.row * bool)) : Q :=
  Scored.watch_time_sec (fst ru) / Scored.duration_sec (fst ru).

(** * Sample tables *)

Definition p1_30s : Pings.row :=
  Pings.mk "p1" (Some "c1") (Some "#a") (Some "music") (Some 30) None.

(** A half-watched 30-second view by u1. *)
Definition half_view : Inter.row :=
  Inter.mk "u1" "p1" (Some "view") (Some 15) None.

(** A 30-second ping replayed: 60 seconds of watch time. *)
Definition replay_view : Inter.row :=
  Inter.mk "u1" "p1" (Some "view") (Some 60) None.

Definition day (n : Z) : Z := (n * day_ns)%Z.

Definition demo_pings : list Pings.row :=
  [ Pings.mk "p1" (Some "c1") (Some "#a") (Some "music") (Some 30) (Some (day 10));
    Pings.mk "p2" (Some "c2") (Some "#b") (Some "sport") None (Some (day 3));
    Pings.mk "p3" (Some "c1") (Some "#c") (Some "music") (Some 60) None;
    Pings.mk "p4" (Some "c3") (Some "#d") (Some "news") (Some 45) (Some (day 9)) ].

Definition demo_inter : list Inter.row :=
  [ Inter.mk "u1" "p1" (Some "view") (Some 15) (Some (day 11));
    Inter.mk "u1" "p2" (Some "like") None None;
    Inter.mk "u2" "p1" (Some "view") (Some 30) (Some (day 12));
    Inter.mk "u2" "p4" (Some "bookmark") None None ].

(** u1 liked p1, which is in the catalog, and p9, which is not. *)
Definition orphan_inter : list Inter.row :=
  [ Inter.mk "u1" "p1" (Some "like") None None;
    Inter.mk "u1" "p9" (Some "like") None None ].

(** u1 viewed p1 and has a second row on it whose event type is blank; the
    only row of u2, on p2, has a blank event type too. *)
Definition blank_inter : list Inter.row :=
  [ Inter.mk "u1" "p1" (Some "view") (Some 15) None;
    Inter.mk "u1" "p1" None None None;
    Inter.mk "u2" "p2" None None None ].

(** Two pings liked once each: equal engagement. *)
Definition tie_inter : list Inter.row :=
  [ Inter.mk "u1" "p1" (Some "like") None None;
    Inter.mk "u2" "p2" (Some "like") None None ].

(** Four pings touched once each: p1 and p2 liked, p3 and p4 shared. *)
Definition tie4_inter : list Inter.row :=
  [ Inter.mk "u1" "p1" (Some "like") None None;
    Inter.mk "u1" "p2" (Some "like") None None;
    Inter.mk "u1" "p3" (Some "share") None None;
    Inter.mk "u1" "p4" (Some "share") None None ].

Definition demo_users : list Users.row :=
  [ Users.mk "u1" (Some "NG") (Some (day 1)) (Some 30);
    Users.mk "u2" (Some "GH") (Some (day 20)) None;
    Users.mk "u3" None None (Some 41);
    Users.mk "u4" (Some "KE") (Some (day 14)) (Some 19) ].

(** u3 has touched all four pings. *)
Definition saturated_inter : list Inter.row :=
  [ Inter.mk "u3" "p1" (Some "impression") None None;
    Inter.mk "u3" "p2" (Some "impression") None None;
    Inter.mk "u3" "p3" (Some "view") (Some 10) None;
    Inter.mk "u3" "p4" (Some "like") None None ].

(** u2 likes p3, which nobody had touched. *)
Definition late_like : Inter.row := Inter.mk "u2" "p3" (Some "like") None None.

(** * Properties *)

(** ** Comparisons on rationals *)

Lemma Qgt_bool_iff (a b : Q) : Qgt_bool a b = true <-> b < a.
Proof.
  unfold Qgt_bool. rewrite negb_true_iff.
  split; intro H.
  - apply Qnot_le_lt. intro Hle. apply Qle_bool_iff in Hle. congruence.
  - destruct (Qle_bool a b) eqn:E; [|reflexivity].
    apply Qle_bool_iff in E. exfalso. apply (Qlt_not_le _ _ H E).
Qed.

Lemma Qgt_bool_false_iff (a b : Q) : Qgt_bool a b = false <-> a <= b.
Proof.
  unfold Qgt_bool. rewrite negb_false_iff. apply Qle_bool_iff.
Qed.

Lemma Qle_bool_false (a b : Q) : Qle_bool a b = false -> b < a.
Proof.
  intro H. apply Qgt_bool_iff. unfold Qgt_bool. now rewrite H.
Qed.

(** ** The insertion sort implements the sort interface *)

Section InsertionFacts.
Context {A : Type} (key : A -> Q).

Let ge_key (a b : A) : Prop := key b <= key a.

Lemma insert_first_perm (x : A) (l : list A) :
  Permutation (x :: l) (insert_first key x l).
Proof.
  induction l as [|y t IH]; simpl; [reflexivity|].
  destruct (Qle_bool (key y) (key x)); [reflexivity|].
  rewrite perm_swap. now constructor.
Qed.

Lemma isort_first_perm (l : list A) : Permutation l (isort_first key l).
Proof.
  induction l as [|x t IH]; simpl; [constructor|].
  etransitivity; [|apply insert_first_perm]. now constructor.
Qed.

Lemma insert_first_sorted (x : A) (l : list A) :
  StronglySorted ge_key l -> StronglySorted ge_key (insert_first key x l).
Proof.
  induction 1 as [|y t Hs IH Hall]; simpl.
  - repeat constructor.
  - destruct (Qle_bool (key y) (key x)) eqn:E.
    + apply Qle_bool_iff in E.
      constructor; [now constructor|].
      constructor; [exact E|].
      eapply Forall_impl; [|exact Hall].
      intros z Hz. unfold ge_key in *. now apply Qle_trans with (key y).
    + apply Qle_bool_false in E.
      constructor; [exact IH|].
      eapply Permutation_Forall; [apply insert_first_perm|].
      constructor; [|exact Hall].
      unfold ge_key. now apply Qlt_le_weak.
Qed.

Lemma isort_first_sorted (l : list A) : StronglySorted ge_key (isort_first key l).
Proof.
  induction l as [|x t IH]; simpl; [constructor|now apply insert_first_sorted].
Qed.

End InsertionFacts.

(** A stable kind (what [kind='stable'] would give). *)
Definition stable_kind : SortKind := {|
  sort_desc := fun A key l => isort_first key l;
  sort_desc_perm := fun A key l => isort_first_perm key l;
  sort_desc_sorted := fun A key l => isort_first_sorted key l
|}.

(** ** Event scorer *)

Lemma weight_of_unrecognized (et : option string) :
  recognized et = false -> weight_of et = 0.
Proof.
  destruct et as [k|]; [|reflexivity].
  unfold recognized, weight_of, dict_get, weights.
  cbn [existsb dict_find fst cell_eqb].
  repeat rewrite orb_false_iff.
  intros (H1 & H2 & H3 & H4 & H5 & H6 & _).
  rewrite String.eqb_sym in H1, H2, H3, H4, H5, H6.
  now rewrite H1, H2, H3, H4, H5, H6.
Qed.

Lemma weight_of_nonneg (et : option string) : 0 <= weight_of et.
Proof.
  destruct et as [k|]; [|apply Qle_refl].
  unfold weight_of, dict_get, weights. cbn [dict_find].
  repeat match goal with
         | |- context [String.eqb ?a k] => destruct (String.eqb a k)
         end; cbn [fillna]; apply Qle_bool_iff; reflexivity.
Qed.

Lemma event_score_view (e : Inter.row) (d : option (Pings.row * Q)) :
  Inter.event_type e = Some "view" ->
  event_score (resolve e d)
  = dict_get weights "view" 0
    * (fillna 0 (Inter.watch_time_sec e) / Scored.duration_sec (resolve e d)).
Proof.
  intro Hv. unfold event_score, resolve, watch_time_ratio. simpl.
  rewrite Hv. reflexivity.
Qed.

Lemma cell_eqb_eq (c : option string) (s : string) :
  cell_eqb c s = true <-> c = Some s.
Proof.
  destruct c as [v|]; simpl; [|split; discriminate].
  rewrite String.eqb_eq. split; [now intros ->|now intros [= ->]].
Qed.

Lemma cell_eqb_neq (c : option string) (s : string) :
  cell_eqb c s = false <-> c <> Some s.
Proof.
  rewrite <- cell_eqb_eq. now destruct (cell_eqb c s).
Qed.

Lemma event_score_other (e : Inter.row) (d : option (Pings.row * Q)) :
  Inter.event_type e <> Some "view" ->
  event_score (resolve e d) = weight_of (Inter.event_type e).
Proof.
  intro Hv. unfold event_score, resolve. simpl.
  apply cell_eqb_neq in Hv. now rewrite Hv.
Qed.

(** C4.  For an event whose watch time (0 when missing) is non-negative and
    whose resolved duration is positive, the score is non-negative; a view
    scores the view weight (1.0) times watch_time_sec / duration_sec; like,
    comment, share, follow_creator and impression score 2.0, 3.0, 4.0, 2.0
    and 0.1; any event type outside the weight table scores exactly 0. *)
Theorem event_score_spec (e : Inter.row) (d : option (Pings.row * Q))
    (Hwatch : 0 <= fillna 0 (Inter.watch_time_sec e))
    (Hdur : 0 < Scored.duration_sec (resolve e d)) :
  0 <= event_score (resolve e d)
  /\ (Inter.event_type e = Some "view" ->
      dict_get weights "view" 0 = 1
      /\ event_score (resolve e d)
         = 1 * (fillna 0 (Inter.watch_time_sec e) / Scored.duration_sec (resolve e d)))
  /\ (Inter.event_type e = Some "like" -> event_score (resolve e d) = 2)
  /\ (Inter.event_type e = Some "comment" -> event_score (resolve e d) = 3)
  /\ (Inter.event_type e = Some "share" -> event_score (resolve e d) = 4)
  /\ (Inter.event_type e = Some "follow_creator" -> event_score (resolve e d) = 2)
  /\ (Inter.event_type e = Some "impression" -> event_score (resolve e d) = 1 # 10)
  /\ (recognized (Inter.event_type e) = false -> event_score (resolve e d) = 0).
Proof.
  split.
  - destruct (cell_eqb (Inter.event_type e) "view") eqn:Hv.
    + apply cell_eqb_eq in Hv. rewrite (event_score_view e d Hv).
      apply Qmult_le_0_compat; [apply Qle_bool_iff; reflexivity|].
      apply Qle_shift_div_l; [exact Hdur|].
      now rewrite Qmult_0_l.
    + apply cell_eqb_neq in Hv.
      rewrite (event_score_other e d Hv). apply weight_of_nonneg.
  - split; [intro H; split; [reflexivity|now rewrite (event_score_view e d H)]|].
    repeat split; intro H;
      try (rewrite event_score_other; rewrite H; [reflexivity|discriminate]).
    rewrite event_score_other.
    + now apply weight_of_unrecognized.
    + intro Hv. rewrite Hv in H. discriminate.
Qed.

Lemma event_score_spec_witness :
  0 <= event_score (resolve half_view (Some (p1_30s, 30)))
  /\ event_score (resolve half_view (Some (p1_30s, 30))) == 1 # 2.
Proof.
  assert (Hw : 0 <= fillna 0 (Inter.watch_time_sec half_view))
    by (apply Qle_bool_iff; reflexivity).
  assert (Hd : 0 < Scored.duration_sec (resolve half_view (Some (p1_30s, 30))))
    by reflexivity.
  destruct (event_score_spec half_view (Some (p1_30s, 30)) Hw Hd) as [H0 [Hv _]].
  split; [exact H0|].
  destruct (Hv Logic.eq_refl) as [_ ->]. reflexivity.
Defined.

(** C9.  The ratio of a view is not capped: when the watch time exceeds the
    (positive) duration, the score exceeds the view weight. *)
Theorem view_score_exceeds_weight (e : Inter.row) (d : option (Pings.row * Q))
    (Hview : Inter.event_type e = Some "view")
    (Hdur : 0 < Scored.duration_sec (resolve e d))
    (Hover : Scored.duration_sec (resolve e d) < fillna 0 (Inter.watch_time_sec e)) :
  Scored.watch_time_ratio (resolve e d)
  = Some (fillna 0 (Inter.watch_time_sec e) / Scored.duration_sec (resolve e d))
  /\ dict_get weights "view" 0 < event_score (resolve e d).
Proof.
  split.
  - unfold resolve, watch_time_ratio. simpl. now rewrite Hview.
  - rewrite (event_score_view e d Hview).
    change (dict_get weights "view" 0) with 1.
    rewrite Qmult_1_l.
    apply Qlt_shift_div_l; [exact Hdur|].
    now rewrite Qmult_1_l.
Qed.

Lemma view_score_exceeds_weight_witness :
  1 < event_score (resolve replay_view (Some (p1_30s, 30)))
  /\ event_score (resolve replay_view (Some (p1_30s, 30))) == 2.
Proof.
  split.
  - apply (view_score_exceeds_weight replay_view (Some (p1_30s, 30)));
      reflexivity.
  - reflexivity.
Defined.

(** ** Freshness *)

Lemma ts_max_none (l : list (option Z)) :
  (forall c, In c l -> c = None) -> ts_max l = None.
Proof.
  induction l as [|[x|] t IH]; simpl; intro H; [reflexivity| |].
  - specialize (H (Some x) (or_introl Logic.eq_refl)). discriminate.
  - apply IH. intros c Hc. apply H. now right.
Qed.

Lemma ts_max_none_inv (l : list (option Z)) :
  ts_max l = None -> forall c, In c l -> c = None.
Proof.
  induction l as [|[w|] t IH]; simpl; intros Hm c Hc.
  - contradiction.
  - destruct (ts_max t); discriminate.
  - destruct Hc as [<-|Hc]; [reflexivity|now apply IH].
Qed.

Lemma ts_max_some (l : list (option Z)) (m : Z) :
  ts_max l = Some m ->
  In (Some m) l /\ forall t, In (Some t) l -> (t <= m)%Z.
Proof.
  revert m. induction l as [|[x|] t IH]; simpl; intros m Hm; [discriminate| |].
  - destruct (ts_max t) as [y|] eqn:Ey.
    + injection Hm as <-. destruct (IH y Logic.eq_refl) as [Hin Hub].
      split.
      * destruct (Z.max_spec x y) as [[_ ->]|[_ ->]]; [now right|now left].
      * intros z [Hz|Hz]; [injection Hz as ->; apply Z.le_max_l|].
        etransitivity; [now apply Hub|apply Z.le_max_r].
    + injection Hm as <-. split; [now left|].
      intros z [Hz|Hz]; [injection Hz as ->; reflexivity|].
      pose proof (ts_max_none_inv t Ey (Some z) Hz). discriminate.
  - destruct (IH m Hm) as [Hin Hub]. split; [now right|].
    intros z [Hz|Hz]; [discriminate|now apply Hub].
Qed.

(** The reference date bounds every known creation time, and is one of
    them when there is one. *)
Lemma reference_now_spec (created : list (option Z)) (t : Z) :
  In (Some t) created ->
  (t <= reference_now created)%Z /\ In (Some (reference_now created)) created.
Proof.
  intro Ht. unfold reference_now.
  destruct (ts_max created) as [m|] eqn:Em; cbn [fillna].
  - apply ts_max_some in Em. destruct Em as [Hm Hub]. split; [now apply Hub|exact Hm].
  - pose proof (ts_max_none_inv created Em (Some t) Ht). discriminate.
Qed.

Lemma day_ns_pos : (0 < day_ns)%Z.
Proof. reflexivity. Qed.

Lemma freshness_of_range (a : Z) :
  (0 <= a)%Z -> 0 < freshness_of a /\ freshness_of a <= 1.
Proof.
  intro Ha. unfold freshness_of.
  assert (H1 : 1 <= 1 + inject_Z a).
  { rewrite <- (Qplus_0_r 1) at 1. apply Qplus_le_r.
    change 0 with (inject_Z 0). now rewrite <- Zle_Qle. }
  assert (H0 : 0 < 1 + inject_Z a) by (eapply Qlt_le_trans; [|exact H1]; reflexivity).
  split.
  - apply Qlt_shift_div_l; [exact H0|]. rewrite Qmult_0_l. reflexivity.
  - apply Qle_shift_div_r; [exact H0|]. now rewrite Qmult_1_l.
Qed.

Lemma freshness_of_decreasing (a b : Z) :
  (0 <= a)%Z -> (a < b)%Z -> freshness_of b < freshness_of a.
Proof.
  intros Ha Hab. unfold freshness_of.
  assert (Hqa : 0 <= inject_Z a)
    by (change 0 with (inject_Z 0); now rewrite <- Zle_Qle).
  assert (Hqab : inject_Z a < inject_Z b) by now rewrite <- Zlt_Qlt.
  assert (Hpa : 0 < 1 + inject_Z a) by lra.
  assert (Hpb : 0 < 1 + inject_Z b) by lra.
  apply Qlt_shift_div_r; [exact Hpb|].
  unfold Qdiv. rewrite Qmult_comm, Qmult_assoc.
  apply Qlt_shift_div_l; [exact Hpa|].
  lra.
Qed.

Section ItemFacts.
Context {S : SortKind}.

(** The row of [items] built from one catalog row. *)
Lemma items_in (inter : list Inter.row) (pings : list Pings.row) (i : Items.row) :
  In i (items inter pings) ->
  exists p, In p pings
    /\ Items.ping_id i = Pings.ping_id p
    /\ Items.creator_id i = Pings.creator_id p
    /\ Items.category i = Pings.category p
    /\ Items.created_at i = Pings.created_at p
    /\ Items.global_pop i
       = fillna 0 (lookup_engagement (ping_global inter pings) (Pings.ping_id p))
    /\ Items.age_days i
       = age_days_of (reference_now (map Pings.created_at pings)) (Pings.created_at p)
    /\ Items.freshness i = freshness_of (Items.age_days i).
Proof.
  unfold items. rewrite in_map_iff. intros (p & <- & Hp).
  exists p. simpl. repeat split; assumption.
Qed.

Lemma items_of_ping (inter : list Inter.row) (pings : list Pings.row) (p : Pings.row) :
  In p pings ->
  exists i, In i (items inter pings)
    /\ Items.ping_id i = Pings.ping_id p
    /\ Items.global_pop i
       = fillna 0 (lookup_engagement (ping_global inter pings) (Pings.ping_id p)).
Proof.
  intro Hp. unfold items.
  eexists. split; [apply in_map_iff; exists p; split; [reflexivity|exact Hp]|].
  simpl. split; reflexivity.
Qed.

Lemma age_days_nonneg (pings : list Pings.row) (p : Pings.row) :
  In p pings ->
  (0 <= age_days_of (reference_now (map Pings.created_at pings)) (Pings.created_at p))%Z.
Proof.
  intro Hp. unfold age_days_of.
  destruct (Pings.created_at p) as [t|] eqn:Et; [|discriminate].
  apply Z.div_pos; [|exact day_ns_pos].
  assert (Hin : In (Some t) (map Pings.created_at pings))
    by (rewrite <- Et; now apply in_map).
  destruct (reference_now_spec _ t Hin) as [Hle _]. lia.
Qed.

End ItemFacts.

(** C6.  Every catalog item has freshness 1 / (1 + age_days); age_days is
    the whole-day (floor) difference between reference_now and created_at,
    and 30 when created_at is missing; reference_now is the largest
    created_at of the catalog, or the fixed date 2024-02-20 when none is
    known; freshness lies in (0,1] and strictly decreases as age_days
    grows. *)
Theorem freshness_spec {S : SortKind} (inter : list Inter.row)
    (pings : list Pings.row) (i : Items.row)
    (Hin : In i (items inter pings)) :
  let now := reference_now (map Pings.created_at pings) in
  ((forall p, In p pings -> Pings.created_at p = None) -> now = fallback_now)
  /\ (forall p t, In p pings -> Pings.created_at p = Some t ->
      (t <= now)%Z /\ exists p', In p' pings /\ Pings.created_at p' = Some now)
  /\ Items.age_days i
     = match Items.created_at i with
       | Some t => ((now - t) / day_ns)%Z
       | None => 30%Z
       end
  /\ Items.freshness i = 1 / (1 + inject_Z (Items.age_days i))
  /\ 0 < Items.freshness i /\ Items.freshness i <= 1
  /\ (forall j, In j (items inter pings) ->
      (Items.age_days i < Items.age_days j)%Z ->
      Items.freshness j < Items.freshness i)
  /\ (forall a b, (0 <= a)%Z -> (a < b)%Z -> freshness_of b < freshness_of a).
Proof.
  intro now.
  destruct (items_in inter pings i Hin)
    as (p & Hp & _ & _ & _ & Hc & _ & Ha & Hf).
  assert (Hage : (0 <= Items.age_days i)%Z)
    by (rewrite Ha; now apply age_days_nonneg).
  split.
  { intro Hnone. unfold now, reference_now.
    rewrite ts_max_none; [reflexivity|].
    intros c Hc'. apply in_map_iff in Hc'. destruct Hc' as (q & <- & Hq).
    now apply Hnone. }
  split.
  { intros q t Hq Ht.
    assert (Hin' : In (Some t) (map Pings.created_at pings))
      by (rewrite <- Ht; now apply in_map).
    destruct (reference_now_spec _ t Hin') as [Hle Hmax].
    split; [exact Hle|].
    apply in_map_iff in Hmax. destruct Hmax as (p' & Hp' & Hp'in).
    now exists p'. }
  split; [rewrite Ha, Hc; reflexivity|].
  split; [exact Hf|].
  split; [rewrite Hf; now apply freshness_of_range|].
  split; [rewrite Hf; now apply freshness_of_range|].
  split; [|exact freshness_of_decreasing].
  intros j Hj Hlt.
  destruct (items_in inter pings j Hj) as (_ & _ & _ & _ & _ & _ & _ & _ & Hfj).
  rewrite Hf, Hfj. now apply freshness_of_decreasing.
Qed.

(** ** Normalised popularity *)

Lemma Qmax_cases (x y : Q) : Qmax x y = x \/ Qmax x y = y.
Proof.
  unfold Qmax, GenericMinMax.gmax. destruct (x ?= y); auto.
Qed.

Lemma Qmin_cases (x y : Q) : Qmin x y = x \/ Qmin x y = y.
Proof.
  unfold Qmin, GenericMinMax.gmin. destruct (x ?= y); auto.
Qed.

Lemma qmax_list_spec (l : list Q) (hi : Q) :
  qmax_list l = Some hi -> In hi l /\ forall g, In g l -> g <= hi.
Proof.
  destruct l as [|x t]; simpl; [discriminate|].
  intro H. injection H as <-.
  induction t as [|y t IH]; simpl.
  - split; [now left|]. intros g [<-|[]]. apply Qle_refl.
  - destruct IH as [Hin Hub]. split.
    + destruct (Qmax_cases y (fold_right Qmax x t)) as [->| ->].
      * right. now left.
      * destruct Hin as [Hin|Hin]; [now left|right; now right].
    + intros g [<-|[<-|Hg]].
      * eapply Qle_trans; [apply Hub; now left|apply Q.le_max_r].
      * apply Q.le_max_l.
      * eapply Qle_trans; [apply Hub; now right|apply Q.le_max_r].
Qed.

Lemma qmin_list_spec (l : list Q) (lo : Q) :
  qmin_list l = Some lo -> In lo l /\ forall g, In g l -> lo <= g.
Proof.
  destruct l as [|x t]; simpl; [discriminate|].
  intro H. injection H as <-.
  induction t as [|y t IH]; simpl.
  - split; [now left|]. intros g [<-|[]]. apply Qle_refl.
  - destruct IH as [Hin Hlb]. split.
    + destruct (Qmin_cases y (fold_right Qmin x t)) as [->| ->].
      * right. now left.
      * destruct Hin as [Hin|Hin]; [now left|right; now right].
    + intros g [<-|[<-|Hg]].
      * eapply Qle_trans; [apply Q.le_min_r|apply Hlb; now left].
      * apply Q.le_min_l.
      * eapply Qle_trans; [apply Q.le_min_r|apply Hlb; now right].
Qed.

Section NormFacts.
Context {S : SortKind}.

Lemma items_norm (inter : list Inter.row) (pings : list Pings.row) (i : Items.row) :
  In i (items inter pings) ->
  Items.global_pop_norm i
  = match qmax_list (map Items.global_pop (items inter pings)),
          qmin_list (map Items.global_pop (items inter pings)) with
    | Some hi, Some lo =>
        if Qgt_bool hi lo then (Items.global_pop i - lo) / (hi - lo) else 0
    | _, _ => 0
    end.
Proof.
  unfold items. rewrite map_map. cbn [Items.global_pop].
  rewrite in_map_iff. intros (p & <- & Hp). cbn [Items.global_pop_norm Items.global_pop].
  match goal with
  | |- context [qmax_list ?c] => destruct (qmax_list c) as [hi|]; [|reflexivity]
  end.
  match goal with
  | |- context [qmin_list ?c] => destruct (qmin_list c) as [lo|]; [|reflexivity]
  end.
  now destruct (Qgt_bool hi lo).
Qed.

End NormFacts.

Lemma norm_cell_range (g lo hi : Q) :
  lo <= g -> g <= hi -> lo < hi ->
  0 <= (g - lo) / (hi - lo) /\ (g - lo) / (hi - lo) <= 1.
Proof.
  intros Hlo Hhi Hlt.
  assert (Hpos : 0 < hi - lo) by lra.
  split.
  - apply Qle_shift_div_l; [exact Hpos|]. lra.
  - apply Qle_shift_div_r; [exact Hpos|]. lra.
Qed.

(** C5.  Over the catalog's engagement column, with hi its maximum and lo
    its minimum: every item's global_pop_norm lies in [0,1]; it is
    (global_engagement - lo) / (hi - lo) when hi > lo; and it is 0.0 for
    every item when hi = lo, in particular when all items have equal
    engagement (the all-zero case included). *)
Theorem global_pop_norm_spec {S : SortKind} (inter : list Inter.row)
    (pings : list Pings.row) (i : Items.row)
    (Hin : In i (items inter pings)) :
  let col := map Items.global_pop (items inter pings) in
  exists hi lo,
    (In hi col /\ forall g, In g col -> g <= hi)
    /\ (In lo col /\ forall g, In g col -> lo <= g)
    /\ 0 <= Items.global_pop_norm i /\ Items.global_pop_norm i <= 1
    /\ (lo < hi ->
        Items.global_pop_norm i = (Items.global_pop i - lo) / (hi - lo))
    /\ (~ lo < hi -> Items.global_pop_norm i = 0)
    /\ ((forall g g', In g col -> In g' col -> g == g') ->
        Items.global_pop_norm i = 0).
Proof.
  intro col.
  pose proof (items_norm inter pings i Hin) as Hn. fold col in Hn.
  assert (Hg : In (Items.global_pop i) col) by (unfold col; now apply in_map).
  destruct (qmax_list col) as [hi|] eqn:Ehi;
    [|destruct col; [contradiction|discriminate]].
  destruct (qmin_list col) as [lo|] eqn:Elo;
    [|destruct col; [contradiction|discriminate]].
  destruct (qmax_list_spec col hi Ehi) as [Hhi_in Hhi].
  destruct (qmin_list_spec col lo Elo) as [Hlo_in Hlo].
  exists hi, lo.
  split; [now split|]. split; [now split|].
  destruct (Qgt_bool hi lo) eqn:E.
  - apply Qgt_bool_iff in E. rewrite Hn.
    destruct (norm_cell_range (Items.global_pop i) lo hi) as [H0 H1]; auto.
    repeat split; auto.
    + intro Hc. contradiction.
    + intro Heq. exfalso. specialize (Heq lo hi Hlo_in Hhi_in). lra.
  - rewrite Hn. repeat split; try apply Qle_refl; try (apply Qle_bool_iff; reflexivity).
    intro Hlt. apply Qgt_bool_iff in Hlt. congruence.
Qed.

(** ** Tables: joins, heads and group labels *)

Lemma head_length {A : Type} (n : Z) (l : list A) :
  (0 <= n)%Z -> length (head n l) = Nat.min (Z.to_nat n) (length l).
Proof.
  intro Hn. unfold head.
  destruct (0 <=? n)%Z eqn:E; [apply length_firstn|].
  apply Z.leb_gt in E. lia.
Qed.

Lemma firstn_incl {A : Type} (n : nat) (l : list A) (x : A) :
  In x (firstn n l) -> In x l.
Proof.
  intro H. rewrite <- (firstn_skipn n l). apply in_or_app. now left.
Qed.

Lemma head_incl {A : Type} (n : Z) (l : list A) (x : A) :
  In x (head n l) -> In x l.
Proof.
  unfold head. destruct (0 <=? n)%Z; apply firstn_incl.
Qed.

Lemma head_all {A : Type} (n : Z) (l : list A) :
  (Z.of_nat (length l) <= n)%Z -> head n l = l.
Proof.
  intro Hn. unfold head.
  destruct (0 <=? n)%Z eqn:E.
  - apply firstn_all2. lia.
  - apply Z.leb_gt in E. lia.
Qed.

Lemma unique_in (l : list string) (x : string) : In x (unique l) <-> In x l.
Proof.
  induction l as [|y t IH]; simpl; [tauto|].
  rewrite filter_In, IH, negb_true_iff, String.eqb_neq.
  destruct (string_dec y x) as [->|Hne]; [tauto|].
  split; [tauto|]. intros [H|H]; [tauto|]. right. split; [exact H|congruence].
Qed.

Section MergeFacts.
Context {A B : Type} (ka : A -> string) (kb : B -> string).

Lemma merge_left_in (left : list A) (right : list B) (a : A) (ob : option B) :
  In (a, ob) (merge_left ka kb left right) ->
  In a left
  /\ match ob with
     | Some b => In b right /\ kb b = ka a
     | None => forall b, In b right -> kb b <> ka a
     end.
Proof.
  unfold merge_left. rewrite in_flat_map. intros (a' & Ha' & Hin).
  destruct (filter (fun b => String.eqb (kb b) (ka a')) right) as [|b0 bs] eqn:E.
  - destruct Hin as [Hin|[]]. injection Hin as <- <-.
    split; [exact Ha'|]. intros b Hb Hk.
    assert (Hf : In b (filter (fun b => String.eqb (kb b) (ka a')) right))
      by (apply filter_In; split; [exact Hb|now apply String.eqb_eq]).
    rewrite E in Hf. exact Hf.
  - apply in_map_iff in Hin. destruct Hin as (b & Hb & Hbin).
    injection Hb as <- <-. split; [exact Ha'|].
    rewrite <- E in Hbin. apply filter_In in Hbin.
    destruct Hbin as [Hb Hk]. split; [exact Hb|now apply String.eqb_eq].
Qed.

Lemma merge_left_total (left : list A) (right : list B) (a : A) :
  In a left -> exists ob, In (a, ob) (merge_left ka kb left right).
Proof.
  intro Ha. unfold merge_left.
  destruct (filter (fun b => String.eqb (kb b) (ka a)) right) as [|b0 bs] eqn:E.
  - exists None. apply in_flat_map. exists a. split; [exact Ha|].
    rewrite E. now left.
  - exists (Some b0). apply in_flat_map. exists a. split; [exact Ha|].
    rewrite E. now left.
Qed.

End MergeFacts.

Section GroupKeysFacts.
Context {K : Type} (cmp : K -> K -> comparison) {O : CmpOrder cmp}.

Let lt (x y : K) : Prop := cmp x y = Lt.

Lemma key_insert_in (x z : K) (l : list K) :
  In z (key_insert cmp x l) <-> z = x \/ In z l.
Proof.
  induction l as [|y t IH]; simpl; [intuition|].
  destruct (cmp x y) eqn:E; simpl.
  - apply cmp_eq in E. subst y. intuition.
  - intuition.
  - rewrite IH. intuition.
Qed.

Lemma group_keys_in (z : K) (l : list K) : In z (group_keys cmp l) <-> In z l.
Proof.
  induction l as [|x t IH]; simpl; [tauto|].
  rewrite key_insert_in, IH. intuition.
Qed.

Lemma key_insert_sorted (x : K) (l : list K) :
  StronglySorted lt l -> StronglySorted lt (key_insert cmp x l).
Proof.
  induction 1 as [|y t Hs IH Hall]; simpl.
  - repeat constructor.
  - destruct (cmp x y) eqn:E.
    + now constructor.
    + constructor; [now constructor|].
      constructor; [exact E|].
      eapply Forall_impl; [|exact Hall].
      intros z Hz. unfold lt in *. now apply cmp_trans with y.
    + constructor; [exact IH|].
      apply Forall_forall. intros z Hz. apply key_insert_in in Hz.
      destruct Hz as [->|Hz].
      * unfold lt. rewrite cmp_antisym, E. reflexivity.
      * rewrite Forall_forall in Hall. now apply Hall.
Qed.

Lemma group_keys_sorted (l : list K) : StronglySorted lt (group_keys cmp l).
Proof.
  induction l as [|x t IH]; simpl; [constructor|now apply key_insert_sorted].
Qed.

Lemma group_keys_nodup (l : list K) : NoDup (group_keys cmp l).
Proof.
  pose proof (group_keys_sorted l) as Hs.
  induction Hs as [|y t Hs IH Hall]; constructor; [|exact IH].
  intro Hin. rewrite Forall_forall in Hall. specialize (Hall y Hin).
  unfold lt in Hall.
  assert (Heq : cmp y y = Eq) by now apply cmp_eq.
  congruence.
Qed.

End GroupKeysFacts.

#[local] Instance string_order : CmpOrder String.compare.
Proof.
  split.
  - intros x y. split; [apply String.compare_eq_iff|].
    intros ->. now apply String_as_OT.cmp_eq.
  - apply String.compare_antisym.
  - intros x y z Hxy Hyz.
    apply String_as_OT.cmp_lt. apply String_as_OT.lt_trans with y;
      now apply String_as_OT.cmp_lt.
Qed.

#[local] Instance pair_order : CmpOrder pair_compare.
Proof.
  split.
  - intros [a b] [c d]. unfold pair_compare. simpl.
    destruct (String.compare a c) eqn:E1.
    + apply cmp_eq in E1. subst c. rewrite cmp_eq.
      split; [now intros ->|now intros [= ->]].
    + split; [discriminate|]. intros [= -> ->].
      assert (String.compare c c = Eq) by now apply cmp_eq. congruence.
    + split; [discriminate|]. intros [= -> ->].
      assert (String.compare c c = Eq) by now apply cmp_eq. congruence.
  - intros [a b] [c d]. unfold pair_compare. simpl.
    rewrite (cmp_antisym a c).
    destruct (String.compare c a); simpl;
      [apply String.compare_antisym|reflexivity|reflexivity].
  - intros [a b] [c d] [e f]. unfold pair_compare. simpl.
    destruct (String.compare a c) eqn:E1; try discriminate;
      destruct (String.compare c e) eqn:E2; try discriminate.
    + apply cmp_eq in E1, E2. subst c e.
      assert (H : String.compare a a = Eq) by now apply cmp_eq.
      rewrite H. apply cmp_trans.
    + apply cmp_eq in E1. subst c. now rewrite E2.
    + apply cmp_eq in E2. subst e. now rewrite E1.
    + now rewrite (cmp_trans a c e E1 E2).
Qed.

Lemma pair_eqb_eq (a b : string * string) : pair_eqb a b = true <-> a = b.
Proof.
  destruct a as [a1 a2], b as [b1 b2]. unfold pair_eqb. simpl.
  rewrite andb_true_iff, !String.eqb_eq.
  split; [now intros [-> ->]|now intros [= -> ->]].
Qed.

(** ** What the joined interaction table contains *)

Lemma inter_rows_in (inter : list Inter.row) (pings : list Pings.row)
    (r : Scored.row) :
  In r (inter_rows inter pings) ->
  exists e d, In e inter /\ r = resolve e d.
Proof.
  unfold inter_rows. rewrite in_map_iff. intros ([e d] & <- & Hin).
  apply merge_left_in in Hin. exists e, d. now split.
Qed.

Lemma inter_rows_total (inter : list Inter.row) (pings : list Pings.row)
    (e : Inter.row) :
  In e inter -> exists d, In (resolve e d) (inter_rows inter pings).
Proof.
  intro He.
  destruct (merge_left_total Inter.ping_id (fun pd => Pings.ping_id (fst pd))
              inter (fill_duration pings) e He) as [d Hd].
  exists d. unfold inter_rows. apply in_map_iff. now exists (e, d).
Qed.

Lemma seen_in (inter : list Inter.row) (pings : list Pings.row)
    (uid pid : string) :
  In pid (seen inter pings uid)
  <-> exists e, In e inter /\ Inter.user_id e = uid /\ Inter.ping_id e = pid.
Proof.
  unfold seen. rewrite unique_in, in_map_iff. split.
  - intros (r & <- & Hr). apply filter_In in Hr. destruct Hr as [Hr Hu].
    apply String.eqb_eq in Hu.
    destruct (inter_rows_in inter pings r Hr) as (e & d & He & ->).
    exists e. now repeat split.
  - intros (e & He & <- & <-).
    destruct (inter_rows_total inter pings e He) as [d Hd].
    exists (resolve e d). split; [reflexivity|].
    apply filter_In. split; [exact Hd|]. apply String.eqb_refl.
Qed.

Lemma existsb_eqb_in (x : string) (l : list string) :
  existsb (String.eqb x) l = true <-> In x l.
Proof.
  rewrite existsb_exists. split.
  - intros (y & Hy & He). apply String.eqb_eq in He. now subst.
  - intro H. exists x. split; [exact H|apply String.eqb_refl].
Qed.

(** ** Ranker: exclusion and length *)

Section RankerFacts.
Context {S : SortKind}.

Lemma is_seen_agree (inter : list Inter.row) (pings : list Pings.row)
    (uid pid : string) :
  existsb (String.eqb pid) (seen inter pings uid)
  = existsb (fun e => String.eqb (Inter.user_id e) uid
                      && String.eqb (Inter.ping_id e) pid) inter.
Proof.
  apply eq_true_iff_eq.
  rewrite existsb_eqb_in, seen_in, existsb_exists.
  split; intros (e & He & H); exists e; split; try exact He.
  - destruct H as [-> ->]. now rewrite !String.eqb_refl.
  - apply andb_true_iff in H. now rewrite !String.eqb_eq in H.
Qed.

Lemma filter_map_length {A B : Type} (f : A -> B) (P : B -> bool) (l : list A) :
  length (filter P (map f l)) = length (filter (fun a => P (f a)) l).
Proof.
  induction l as [|a t IH]; simpl; [reflexivity|].
  destruct (P (f a)); simpl; now rewrite IH.
Qed.

Lemma candidates_length (inter : list Inter.row) (pings : list Pings.row)
    (uid : string) (alpha beta gamma delta : Q) :
  length (candidates inter pings uid alpha beta gamma delta)
  = length (unseen_catalog inter pings uid).
Proof.
  unfold candidates, unseen_catalog, items.
  rewrite map_map, filter_map_length. cbn [Cand.item Items.ping_id].
  f_equal. apply filter_ext. intro p. now rewrite is_seen_agree.
Qed.

Lemma candidates_in (inter : list Inter.row) (pings : list Pings.row)
    (uid : string) (alpha beta gamma delta : Q) (r : Cand.row) :
  In r (candidates inter pings uid alpha beta gamma delta) ->
  In (Cand.item r) (items inter pings)
  /\ ~ In (Items.ping_id (Cand.item r)) (seen inter pings uid).
Proof.
  unfold candidates. rewrite filter_In, in_map_iff.
  intros [(i & <- & Hi) Hs]. cbn [Cand.item] in *. split; [exact Hi|].
  intro Hin. apply existsb_eqb_in in Hin. rewrite Hin in Hs. discriminate.
Qed.

Lemma recommend_df_in (inter : list Inter.row) (pings : list Pings.row)
    (uid : string) (topk : Z) (alpha beta gamma delta : Q) (r : Cand.row) :
  In r (recommend_df inter pings uid topk alpha beta gamma delta) ->
  In r (candidates inter pings uid alpha beta gamma delta).
Proof.
  unfold recommend_df. intro H. apply head_incl in H.
  eapply Permutation_in; [apply Permutation_sym, sort_desc_perm|exact H].
Qed.

Lemma recommend_length (inter : list Inter.row) (pings : list Pings.row)
    (uid : string) (topk : Z) (alpha beta gamma delta : Q) :
  (0 <= topk)%Z ->
  length (recommend_for_user inter pings uid topk alpha beta gamma delta)
  = Nat.min (Z.to_nat topk) (length (unseen_catalog inter pings uid)).
Proof.
  intro Hk. unfold recommend_for_user, recommend_df.
  rewrite length_map, head_length by exact Hk.
  rewrite <- (Permutation_length (sort_desc_perm _ Cand.score _)).
  now rewrite candidates_length.
Qed.

End RankerFacts.

(** C3.  For every user and every k >= 0, no returned row carries a ping_id
    that occurs in one of the user's events (whatever the event type); at
    most k rows are returned; and fewer than k are returned exactly when the
    catalog without the user's seen items has fewer than k rows. *)
Theorem recommend_excludes_seen {S : SortKind} (inter : list Inter.row)
    (pings : list Pings.row) (uid : string) (topk : Z)
    (alpha beta gamma delta : Q)
    (Hk : (0 <= topk)%Z) :
  let recs := recommend_for_user inter pings uid topk alpha beta gamma delta in
  (forall row e, In row recs -> In e inter -> Inter.user_id e = uid ->
     Rec.ping_id row <> Inter.ping_id e)
  /\ (Z.of_nat (length recs) <= topk)%Z
  /\ ((Z.of_nat (length recs) < topk)%Z
      <-> (Z.of_nat (length (unseen_catalog inter pings uid)) < topk)%Z)
  /\ length recs
     = Nat.min (Z.to_nat topk) (length (unseen_catalog inter pings uid)).
Proof.
  intro recs.
  pose proof (recommend_length inter pings uid topk alpha beta gamma delta Hk)
    as Hlen.
  fold recs in Hlen.
  split; [|split; [lia|split; [lia|exact Hlen]]].
  intros row e Hrow He Hu Heq.
  unfold recs, recommend_for_user in Hrow.
  apply in_map_iff in Hrow. destruct Hrow as (r & <- & Hr).
  apply recommend_df_in, candidates_in in Hr. destruct Hr as [_ Hns].
  apply Hns. apply seen_in. exists e. cbn [Rec.ping_id] in Heq. auto.
Qed.

(** *** A small data set *)

Lemma recommend_excludes_seen_witness :
  (0 <= 1)%Z
  /\ map Rec.ping_id
       (recommend_for_user (S:=stable_kind) demo_inter demo_pings "u1" 10
          (1 # 2) (1 # 4) (15 # 100) (1 # 10))
     = ["p3"; "p4"]
  /\ length
       (recommend_for_user (S:=stable_kind) demo_inter demo_pings "u1" 1
          (1 # 2) (1 # 4) (15 # 100) (1 # 10))
     = Nat.min 1 2.
Proof.
  split; [lia|]. split; [vm_compute; reflexivity|].
  apply (recommend_excludes_seen (S:=stable_kind) demo_inter demo_pings "u1" 1
           (1 # 2) (1 # 4) (15 # 100) (1 # 10)).
  lia.
Defined.

(** ** Cold start *)

Lemma filter_none {A : Type} (f : A -> bool) (l : list A) :
  (forall x, In x l -> f x = false) -> filter f l = [].
Proof.
  induction l as [|a t IH]; simpl; intro H; [reflexivity|].
  rewrite (H a (or_introl Logic.eq_refl)). apply IH. intros x Hx. apply H. now right.
Qed.

Lemma filter_all {A : Type} (f : A -> bool) (l : list A) :
  (forall x, In x l -> f x = true) -> filter f l = l.
Proof.
  induction l as [|a t IH]; simpl; intro H; [reflexivity|].
  rewrite (H a (or_introl Logic.eq_refl)). f_equal. apply IH.
  intros x Hx. apply H. now right.
Qed.

Section ColdStart.
Context {S : SortKind}.

Lemma group_col_in (col : Items.row -> option string)
    (im : list (Scored.row * option Items.row)) (u c : string) :
  In (u, c) (group_col col im) <->
  exists r i, In (r, Some i) im /\ Scored.user_id r = u /\ col i = Some c.
Proof.
  unfold group_col. rewrite in_flat_map. split.
  - intros ([r [i|]] & Hin & Hk); cbn [fst snd] in Hk; [|contradiction].
    destruct (col i) as [c'|] eqn:Ec; [|contradiction].
    destruct Hk as [Hk|[]]. injection Hk as <- <-. now exists r, i.
  - intros (r & i & Hin & <- & Hc). exists (r, Some i). split; [exact Hin|].
    cbn [fst snd]. rewrite Hc. now left.
Qed.

Lemma affinity_table_user (col : Items.row -> option string)
    (im : list (Scored.row * option Items.row)) (a : Affinity.row) :
  In a (affinity_table col im) ->
  exists r i, In (r, Some i) im /\ Scored.user_id r = Affinity.user_id a
              /\ col i = Some (Affinity.key a).
Proof.
  unfold affinity_table. rewrite in_flat_map.
  intros ([[u c] n] & Hk & Ha). cbn [fst snd] in Ha.
  apply in_map_iff in Ha. destruct Ha as (ut & <- & _). cbn [Affinity.user_id Affinity.key].
  unfold group_sizes in Hk. apply in_map_iff in Hk.
  destruct Hk as (k & Hk & Hin). injection Hk as -> _.
  apply -> (group_keys_in pair_compare) in Hin. now apply group_col_in.
Qed.

Lemma int_meta_user (inter : list Inter.row) (pings : list Pings.row)
    (r : Scored.row) (oi : option Items.row) :
  In (r, oi) (int_meta inter pings) ->
  exists e, In e inter /\ Inter.user_id e = Scored.user_id r
            /\ Inter.ping_id e = Scored.ping_id r.
Proof.
  unfold int_meta. intro H. apply merge_left_in in H. destruct H as [Hr _].
  destruct (inter_rows_in inter pings r Hr) as (e & d & He & ->).
  now exists e.
Qed.

Lemma affinity_dict_absent (inter : list Inter.row) (pings : list Pings.row)
    (col : Items.row -> option string) (uid : string) :
  (forall e, In e inter -> Inter.user_id e <> uid) ->
  affinity_dict (affinity_table col (int_meta inter pings)) uid = [].
Proof.
  intro Habs. unfold affinity_dict. rewrite filter_none; [reflexivity|].
  intros a Ha. apply String.eqb_neq. intro Hu.
  destruct (affinity_table_user col _ a Ha) as (r & i & Hin & Hr & _).
  destruct (int_meta_user inter pings r (Some i) Hin) as (e & He & Heu & _).
  apply (Habs e He). congruence.
Qed.

Lemma candidates_row (inter : list Inter.row) (pings : list Pings.row)
    (uid : string) (alpha beta gamma delta : Q) (r : Cand.row) :
  In r (candidates inter pings uid alpha beta gamma delta) ->
  Cand.user_cat_aff r
  = fillna 0 (map_dict (affinity_dict (user_cat inter pings) uid)
                (Items.category (Cand.item r)))
  /\ Cand.user_cre_aff r
     = fillna 0 (map_dict (affinity_dict (user_creator inter pings) uid)
                   (Items.creator_id (Cand.item r)))
  /\ Cand.score r
     = alpha * Items.global_pop_norm (Cand.item r) + beta * Cand.user_cat_aff r
       + gamma * Cand.user_cre_aff r + delta * Items.freshness (Cand.item r).
Proof.
  unfold candidates. rewrite filter_In, in_map_iff.
  intros [(i & <- & _) _]. cbn. repeat split.
Qed.

Lemma unseen_catalog_absent (inter : list Inter.row) (pings : list Pings.row)
    (uid : string) :
  (forall e, In e inter -> Inter.user_id e <> uid) ->
  unseen_catalog inter pings uid = pings.
Proof.
  intro Habs. unfold unseen_catalog. apply filter_all. intros p _.
  apply negb_true_iff.
  destruct (existsb _ inter) eqn:E; [|reflexivity].
  apply existsb_exists in E. destruct E as (e & He & H).
  apply andb_true_iff in H. destruct H as [H _]. apply String.eqb_eq in H.
  now elim (Habs e He).
Qed.

End ColdStart.

(** C7.  For a user_id with no event at all, [recommend_for_user] still
    yields rows - min(k, catalog size) of them - and each returned row's
    score is alpha * global_pop_norm + delta * freshness of its item: both
    affinity columns are 0. *)
Theorem cold_start_scores {S : SortKind} (inter : list Inter.row)
    (pings : list Pings.row) (uid : string) (topk : Z)
    (alpha beta gamma delta : Q)
    (Habsent : forall e, In e inter -> Inter.user_id e <> uid) :
  (forall r, In r (recommend_df inter pings uid topk alpha beta gamma delta) ->
     In (Cand.item r) (items inter pings)
     /\ Cand.user_cat_aff r = 0 /\ Cand.user_cre_aff r = 0
     /\ Cand.score r
        == alpha * Items.global_pop_norm (Cand.item r)
           + delta * Items.freshness (Cand.item r))
  /\ (forall row,
        In row (recommend_for_user inter pings uid topk alpha beta gamma delta) ->
        exists i, In i (items inter pings)
          /\ Rec.ping_id row = Items.ping_id i
          /\ Rec.score row
             == alpha * Items.global_pop_norm i + delta * Items.freshness i)
  /\ ((0 <= topk)%Z ->
      length (recommend_for_user inter pings uid topk alpha beta gamma delta)
      = Nat.min (Z.to_nat topk) (length pings)).
Proof.
  assert (Hrow : forall r,
             In r (recommend_df inter pings uid topk alpha beta gamma delta) ->
             In (Cand.item r) (items inter pings)
             /\ Cand.user_cat_aff r = 0 /\ Cand.user_cre_aff r = 0
             /\ Cand.score r
                == alpha * Items.global_pop_norm (Cand.item r)
                   + delta * Items.freshness (Cand.item r)).
  { intros r Hr. apply recommend_df_in in Hr.
    destruct (candidates_in _ _ _ _ _ _ _ _ Hr) as [Hi _].
    destruct (candidates_row _ _ _ _ _ _ _ _ Hr) as (Hca & Hcr & Hs).
    unfold user_cat in Hca. unfold user_creator in Hcr.
    rewrite affinity_dict_absent in Hca by exact Habsent.
    rewrite affinity_dict_absent in Hcr by exact Habsent.
    assert (Hca0 : Cand.user_cat_aff r = 0)
      by (rewrite Hca; now destruct (Items.category (Cand.item r))).
    assert (Hcr0 : Cand.user_cre_aff r = 0)
      by (rewrite Hcr; now destruct (Items.creator_id (Cand.item r))).
    repeat split; auto.
    rewrite Hs, Hca0, Hcr0. ring. }
  split; [exact Hrow|]. split.
  - intros row Hin. unfold recommend_for_user in Hin.
    apply in_map_iff in Hin. destruct Hin as (r & <- & Hr).
    destruct (Hrow r Hr) as (Hi & _ & _ & Hs).
    exists (Cand.item r). now repeat split.
  - intro Hk. rewrite recommend_length by exact Hk.
    now rewrite unseen_catalog_absent.
Qed.

Lemma cold_start_scores_witness :
  (forall e, In e demo_inter -> Inter.user_id e <> "u9")
  /\ length (recommend_for_user (S:=stable_kind) demo_inter demo_pings "u9" 3
               (1 # 2) (1 # 4) (15 # 100) (1 # 10))
     = 3%nat
  /\ map Rec.ping_id
       (recommend_for_user (S:=stable_kind) demo_inter demo_pings "u9" 3
          (1 # 2) (1 # 4) (15 # 100) (1 # 10))
     = ["p2"; "p1"; "p4"].
Proof.
  assert (Habs : forall e, In e demo_inter -> Inter.user_id e <> "u9").
  { intros e He. simpl in He.
    destruct He as [<-|[<-|[<-|[<-|[]]]]]; discriminate. }
  split; [exact Habs|]. split.
  - apply (cold_start_scores (S:=stable_kind) demo_inter demo_pings "u9" 3
             (1 # 2) (1 # 4) (15 # 100) (1 # 10) Habs).
    lia.
  - vm_compute. reflexivity.
Defined.

(** ** Reason strings *)

Lemma reason_of_spec (r : Cand.row) : reason_of r = reason_spec r.
Proof.
  unfold reason_of, reason_spec, reason_conditions.
  destruct (Qgt_bool (Cand.user_cat_aff r) 0),
           (Qgt_bool (Cand.user_cre_aff r) 0),
           (Qgt_bool (Items.global_pop_norm (Cand.item r)) (1 # 2)),
           (Qgt_bool (Items.freshness (Cand.item r)) (2 # 100));
    reflexivity.
Qed.

Lemma reason_fallback_iff (r : Cand.row) :
  reason_of r = "popular/new"
  <-> Cand.user_cat_aff r <= 0 /\ Cand.user_cre_aff r <= 0
      /\ Items.global_pop_norm (Cand.item r) <= 1 # 2
      /\ Items.freshness (Cand.item r) <= 2 # 100.
Proof.
  rewrite <- !Qgt_bool_false_iff. unfold reason_of.
  destruct (Qgt_bool (Cand.user_cat_aff r) 0),
           (Qgt_bool (Cand.user_cre_aff r) 0),
           (Qgt_bool (Items.global_pop_norm (Cand.item r)) (1 # 2)),
           (Qgt_bool (Items.freshness (Cand.item r)) (2 # 100));
    cbn; (split; [discriminate|intuition discriminate]) || tauto.
Qed.

(** C8.  Each returned row's reason is obtained from the four conditions
    user_cat_aff > 0, user_cre_aff > 0, global_pop_norm > 0.5 and
    freshness > 0.02, taken in this order: the labels of those that hold,
    joined by the separator; it is exactly "popular/new" when none of the
    four holds (and only then). *)
Theorem reason_joined_in_order {S : SortKind} (inter : list Inter.row)
    (pings : list Pings.row) (uid : string) (topk : Z)
    (alpha beta gamma delta : Q) (row : Rec.row)
    (Hin : In row (recommend_for_user inter pings uid topk alpha beta gamma delta)) :
  exists r,
    In r (recommend_df inter pings uid topk alpha beta gamma delta)
    /\ Rec.ping_id row = Items.ping_id (Cand.item r)
    /\ map fst (reason_conditions r)
       = [ Qgt_bool (Cand.user_cat_aff r) 0;
           Qgt_bool (Cand.user_cre_aff r) 0;
           Qgt_bool (Items.global_pop_norm (Cand.item r)) (1 # 2);
           Qgt_bool (Items.freshness (Cand.item r)) (2 # 100) ]
    /\ (let labels := map snd (filter fst (reason_conditions r)) in
        (labels <> [] -> Rec.reason row = String.concat "; " labels)
        /\ (labels = [] -> Rec.reason row = "popular/new"))
    /\ (Rec.reason row = "popular/new"
        <-> Cand.user_cat_aff r <= 0 /\ Cand.user_cre_aff r <= 0
            /\ Items.global_pop_norm (Cand.item r) <= 1 # 2
            /\ Items.freshness (Cand.item r) <= 2 # 100).
Proof.
  unfold recommend_for_user in Hin. apply in_map_iff in Hin.
  destruct Hin as (r & <- & Hr). exists r. cbn [Rec.ping_id Rec.reason].
  split; [exact Hr|]. split; [reflexivity|]. split; [reflexivity|].
  split; [|apply reason_fallback_iff].
  rewrite reason_of_spec. unfold reason_spec.
  destruct (map snd (filter fst (reason_conditions r))) as [|l ls].
  - split; [congruence|reflexivity].
  - split; [reflexivity|discriminate].
Qed.

Lemma reason_joined_in_order_witness :
  map Rec.reason
    (recommend_for_user (S:=stable_kind) demo_inter demo_pings "u1" 10
       (1 # 2) (1 # 4) (15 # 100) (1 # 10))
  = ["prefers cat=music; engaged this creator; recent"; "recent"]
  /\ exists r,
       In r (recommend_df (S:=stable_kind) demo_inter demo_pings "u1" 10
               (1 # 2) (1 # 4) (15 # 100) (1 # 10))
       /\ "p4" = Items.ping_id (Cand.item r).
Proof.
  split; [vm_compute; reflexivity|].
  destruct (reason_joined_in_order (S:=stable_kind) demo_inter demo_pings "u1" 10
              (1 # 2) (1 # 4) (15 # 100) (1 # 10)
              (Rec.mk "p4" (1600 # 32000) (Some "news") (Some "#d") (Some "c3") "recent"))
    as (r & Hr & Hp & _).
  - vm_compute. right. left. reflexivity.
  - exists r. split; [exact Hr|exact Hp].
Defined.

(** *** The item features on the small data set *)

Definition demo_items : list Items.row :=
  items (S:=stable_kind) demo_inter demo_pings.

Definition demo_item (n : nat) : Items.row :=
  nth n demo_items (Items.mk "" None None None None 0 0 0 0).

Lemma demo_item_in (n : nat) : (n < 4)%nat -> In (demo_item n) demo_items.
Proof.
  intro Hn. apply nth_In. exact Hn.
Qed.

Lemma freshness_spec_witness :
  In (demo_item 1) demo_items
  /\ Items.age_days (demo_item 1) = 7%Z
  /\ 0 < Items.freshness (demo_item 1) /\ Items.freshness (demo_item 1) <= 1
  /\ Items.freshness (demo_item 1) < Items.freshness (demo_item 3).
Proof.
  assert (H1 : In (demo_item 1) demo_items) by (apply demo_item_in; lia).
  assert (H3 : In (demo_item 3) demo_items) by (apply demo_item_in; lia).
  destruct (freshness_spec (S:=stable_kind) demo_inter demo_pings (demo_item 3) H3)
    as (_ & _ & _ & _ & _ & _ & Hdec & _).
  destruct (freshness_spec (S:=stable_kind) demo_inter demo_pings (demo_item 1) H1)
    as (_ & _ & _ & _ & Hpos & Hle & _ & _).
  split; [exact H1|]. split; [reflexivity|]. split; [exact Hpos|].
  split; [exact Hle|]. apply Hdec; [exact H1|]. reflexivity.
Defined.

Lemma global_pop_norm_spec_witness :
  In (demo_item 0) demo_items
  /\ Items.global_pop (demo_item 0) == 3 # 2
  /\ Items.global_pop_norm (demo_item 0) == 3 # 4
  /\ 0 <= Items.global_pop_norm (demo_item 0)
  /\ Items.global_pop_norm (demo_item 0) <= 1.
Proof.
  assert (H0 : In (demo_item 0) demo_items) by (apply demo_item_in; lia).
  destruct (global_pop_norm_spec (S:=stable_kind) demo_inter demo_pings
              (demo_item 0) H0)
    as (hi & lo & _ & _ & Hge & Hle & _).
  split; [exact H0|]. split; [reflexivity|]. split; [reflexivity|].
  split; [exact Hge|exact Hle].
Defined.

(** ** Items nobody interacted with *)

Section UnseenItems.
Context {S : SortKind}.

Lemma user_ping_in (rows : list Scored.row) (up : UserPing.row) :
  In up (user_ping rows) ->
  exists r, In r rows /\ Scored.user_id r = UserPing.user_id up
            /\ Scored.ping_id r = UserPing.ping_id up.
Proof.
  unfold user_ping. rewrite in_map_iff. intros (k & <- & Hk).
  apply -> (group_keys_in pair_compare) in Hk.
  apply in_map_iff in Hk. destruct Hk as (r & <- & Hr).
  exists r. now repeat split.
Qed.

Lemma ping_global_groups_in (ups : list UserPing.row) (g : PingGlobal.row) :
  In g (ping_global_groups ups) ->
  exists up, In up ups /\ UserPing.ping_id up = PingGlobal.ping_id g.
Proof.
  unfold ping_global_groups. rewrite in_map_iff. intros (k & <- & Hk).
  apply -> (group_keys_in String.compare) in Hk.
  apply in_map_iff in Hk. destruct Hk as (up & <- & Hup).
  now exists up.
Qed.

Lemma ping_global_in (inter : list Inter.row) (pings : list Pings.row)
    (g : PingGlobal.row) :
  In g (ping_global inter pings) ->
  exists e, In e inter /\ Inter.ping_id e = PingGlobal.ping_id g.
Proof.
  unfold ping_global. intro Hg.
  eapply Permutation_in in Hg; [|apply Permutation_sym, sort_desc_perm].
  destruct (ping_global_groups_in _ g Hg) as (up & Hup & <-).
  destruct (user_ping_in _ up Hup) as (r & Hr & _ & <-).
  destruct (inter_rows_in inter pings r Hr) as (e & d & He & ->).
  now exists e.
Qed.

Lemma lookup_engagement_none (inter : list Inter.row) (pings : list Pings.row)
    (pid : string) :
  (forall e, In e inter -> Inter.ping_id e <> pid) ->
  lookup_engagement (ping_global inter pings) pid = None.
Proof.
  intro Hnone. unfold lookup_engagement.
  destruct (find _ (ping_global inter pings)) as [g|] eqn:E; [|reflexivity].
  apply find_some in E. destruct E as [Hg Hk]. apply String.eqb_eq in Hk.
  destruct (ping_global_in inter pings g Hg) as (e & He & Hp).
  elim (Hnone e He). congruence.
Qed.

Lemma items_norm_range (inter : list Inter.row) (pings : list Pings.row)
    (i : Items.row) :
  In i (items inter pings) ->
  0 <= Items.global_pop_norm i /\ Items.global_pop_norm i <= 1.
Proof.
  intro Hin. rewrite (items_norm inter pings i Hin).
  set (col := map Items.global_pop (items inter pings)).
  assert (Hg : In (Items.global_pop i) col) by (unfold col; now apply in_map).
  destruct (qmax_list col) as [hi|] eqn:Ehi;
    [|split; apply Qle_bool_iff; reflexivity].
  destruct (qmin_list col) as [lo|] eqn:Elo;
    [|split; apply Qle_bool_iff; reflexivity].
  destruct (Qgt_bool hi lo) eqn:E;
    [|split; apply Qle_bool_iff; reflexivity].
  apply Qgt_bool_iff in E.
  apply norm_cell_range; [| |exact E].
  - now apply (qmin_list_spec col lo Elo).
  - now apply (qmax_list_spec col hi Ehi).
Qed.

Lemma items_freshness_range (inter : list Inter.row) (pings : list Pings.row)
    (i : Items.row) :
  In i (items inter pings) ->
  0 < Items.freshness i /\ Items.freshness i <= 1.
Proof.
  intro Hin.
  destruct (items_in inter pings i Hin) as (p & Hp & _ & _ & _ & _ & _ & Ha & ->).
  apply freshness_of_range. rewrite Ha. now apply age_days_nonneg.
Qed.

Lemma candidates_of_item (inter : list Inter.row) (pings : list Pings.row)
    (uid : string) (alpha beta gamma delta : Q) (i : Items.row) :
  In i (items inter pings) ->
  ~ In (Items.ping_id i) (seen inter pings uid) ->
  exists r, In r (candidates inter pings uid alpha beta gamma delta)
            /\ Cand.item r = i.
Proof.
  intros Hi Hns. unfold candidates.
  eexists. split.
  - apply filter_In. split.
    + apply in_map_iff. exists i. split; [reflexivity|exact Hi].
    + cbn [Cand.item]. apply negb_true_iff.
      destruct (existsb _ (seen inter pings uid)) eqn:E; [|reflexivity].
      apply existsb_eqb_in in E. contradiction.
  - reflexivity.
Qed.

Lemma recommend_df_all (inter : list Inter.row) (pings : list Pings.row)
    (uid : string) (topk : Z) (alpha beta gamma delta : Q) (r : Cand.row) :
  (Z.of_nat (length pings) <= topk)%Z ->
  In r (candidates inter pings uid alpha beta gamma delta) ->
  In r (recommend_df inter pings uid topk alpha beta gamma delta).
Proof.
  intros Hk Hr. unfold recommend_df. rewrite head_all.
  - eapply Permutation_in; [apply sort_desc_perm|exact Hr].
  - rewrite <- (Permutation_length (sort_desc_perm _ Cand.score _)).
    rewrite candidates_length. unfold unseen_catalog.
    pose proof (filter_length_le
                  (fun p => negb (existsb
                     (fun e => String.eqb (Inter.user_id e) uid
                               && String.eqb (Inter.ping_id e) (Pings.ping_id p))
                     inter)) pings).
    lia.
Qed.

End UnseenItems.

(** C10.  A catalog item that no event refers to keeps its row in [items]
    with global_pop 0.0, has a global_pop_norm in [0,1] and a freshness in
    (0,1], is a candidate for every user, and is returned to any user
    whenever top_k is at least the catalog size. *)
Theorem untouched_item_eligible {S : SortKind} (inter : list Inter.row)
    (pings : list Pings.row) (p : Pings.row)
    (Hp : In p pings)
    (Hnone : forall e, In e inter -> Inter.ping_id e <> Pings.ping_id p) :
  exists i,
    In i (items inter pings)
    /\ Items.ping_id i = Pings.ping_id p
    /\ Items.global_pop i = 0
    /\ (0 <= Items.global_pop_norm i /\ Items.global_pop_norm i <= 1)
    /\ (0 < Items.freshness i /\ Items.freshness i <= 1)
    /\ forall (uid : string) (alpha beta gamma delta : Q),
         (exists r, In r (candidates inter pings uid alpha beta gamma delta)
                    /\ Cand.item r = i)
         /\ forall topk, (Z.of_nat (length pings) <= topk)%Z ->
              exists row,
                In row (recommend_for_user inter pings uid topk
                          alpha beta gamma delta)
                /\ Rec.ping_id row = Pings.ping_id p.
Proof.
  destruct (items_of_ping inter pings p Hp) as (i & Hi & Hid & Hpop).
  exists i. split; [exact Hi|]. split; [exact Hid|].
  split; [rewrite Hpop, lookup_engagement_none by exact Hnone; reflexivity|].
  split; [now apply items_norm_range with inter pings|].
  split; [now apply items_freshness_range with inter pings|].
  intros uid alpha beta gamma delta.
  assert (Hns : ~ In (Items.ping_id i) (seen inter pings uid)).
  { intro Hs. apply seen_in in Hs. destruct Hs as (e & He & _ & Hpe).
    apply (Hnone e He). congruence. }
  destruct (candidates_of_item inter pings uid alpha beta gamma delta i Hi Hns)
    as (r & Hr & Hri).
  split; [now exists r|].
  intros topk Hk. eexists. split.
  - unfold recommend_for_user. apply in_map_iff. exists r.
    split; [reflexivity|now apply recommend_df_all].
  - cbn [Rec.ping_id]. now rewrite Hri.
Qed.

Lemma untouched_item_eligible_witness :
  In (nth 2 demo_pings p1_30s) demo_pings
  /\ (forall e, In e demo_inter ->
        Inter.ping_id e <> Pings.ping_id (nth 2 demo_pings p1_30s))
  /\ exists i,
       In i (items (S:=stable_kind) demo_inter demo_pings)
       /\ Items.ping_id i = "p3"
       /\ Items.global_pop i = 0.
Proof.
  assert (Hp : In (nth 2 demo_pings p1_30s) demo_pings)
    by (simpl; auto).
  assert (Hn : forall e, In e demo_inter ->
             Inter.ping_id e <> Pings.ping_id (nth 2 demo_pings p1_30s)).
  { intros e He. simpl in He.
    destruct He as [<-|[<-|[<-|[<-|[]]]]]; discriminate. }
  split; [exact Hp|]. split; [exact Hn|].
  destruct (untouched_item_eligible (S:=stable_kind) demo_inter demo_pings
              (nth 2 demo_pings p1_30s) Hp Hn)
    as (i & Hi & Hid & Hpop & _).
  exists i. repeat split; assumption.
Defined.

(** ** Counting over groups *)

Lemma filter_map_comm {A B : Type} (f : A -> B) (P : B -> bool) (l : list A) :
  filter P (map f l) = map f (filter (fun a => P (f a)) l).
Proof.
  induction l as [|a t IH]; simpl; [reflexivity|].
  destruct (P (f a)); simpl; now rewrite IH.
Qed.

Lemma flat_map_singleton {A B : Type} (F : A -> list B) (g : A -> B) (l : list A) :
  (forall x, In x l -> F x = [g x]) -> flat_map F l = map g l.
Proof.
  induction l as [|a t IH]; simpl; intro H; [reflexivity|].
  rewrite (H a (or_introl Logic.eq_refl)). simpl. f_equal.
  apply IH. intros x Hx. apply H. now right.
Qed.

Lemma filter_eqb_nodup (u : string) (l : list string) :
  NoDup l -> In u l -> filter (fun x => String.eqb x u) l = [u].
Proof.
  induction 1 as [|y t Hy Hnd IH]; simpl; [contradiction|].
  intros [->|Hu].
  - rewrite String.eqb_refl. f_equal. apply filter_none.
    intros x Hx. apply String.eqb_neq. intros ->. contradiction.
  - assert (Hne : String.eqb y u = false)
      by (apply String.eqb_neq; intros ->; contradiction).
    rewrite Hne. now apply IH.
Qed.

Section GroupCount.
Context (P : string * string -> bool).

Lemma indicator_sum (x : string * string) (ks : list (string * string)) :
  NoDup ks -> In x ks ->
  list_sum (map (fun k => if pair_eqb k x then 1%nat else 0%nat) (filter P ks))
  = if P x then 1%nat else 0%nat.
Proof.
  induction 1 as [|y t Hy Hnd IH]; simpl; [contradiction|].
  assert (Hzero : ~ In x t ->
            list_sum (map (fun k => if pair_eqb k x then 1%nat else 0%nat)
                          (filter P t)) = 0%nat).
  { clear. intro Hx. induction t as [|z t IH]; simpl; [reflexivity|].
    assert (Hz : pair_eqb z x = false).
    { destruct (pair_eqb z x) eqn:E; [|reflexivity].
      apply pair_eqb_eq in E. subst z. elim Hx. now left. }
    destruct (P z); simpl; [rewrite Hz|]; apply IH; intro H; apply Hx; now right. }
  intros [->|Hx].
  - destruct (P x) eqn:Epx; simpl.
    + assert (Hxx : pair_eqb x x = true) by now apply pair_eqb_eq.
      rewrite Hxx, Hzero by exact Hy. reflexivity.
    + now apply Hzero.
  - assert (Hyx : pair_eqb y x = false).
    { destruct (pair_eqb y x) eqn:E; [|reflexivity].
      apply pair_eqb_eq in E. subst y. contradiction. }
    destruct (P y); simpl; [rewrite Hyx|]; now apply IH.
Qed.

Lemma list_sum_map_add {A : Type} (f g : A -> nat) (l : list A) :
  list_sum (map (fun a => (f a + g a)%nat) l)
  = (list_sum (map f l) + list_sum (map g l))%nat.
Proof.
  induction l as [|a t IH]; simpl; [reflexivity|]. rewrite IH. lia.
Qed.

(** Summing the group sizes over the selected groups counts the selected
    rows. *)
Lemma group_count_sum (ks keys : list (string * string)) :
  NoDup ks -> (forall k, In k keys -> In k ks) ->
  list_sum (map (fun k => length (filter (pair_eqb k) keys)) (filter P ks))
  = length (filter P keys).
Proof.
  intros Hnd. induction keys as [|x t IH]; intro Hsub.
  - simpl. induction (filter P ks) as [|k l IHl]; simpl; [reflexivity|exact IHl].
  - rewrite (map_ext _
               (fun k => ((if pair_eqb k x then 1 else 0)
                          + length (filter (pair_eqb k) t))%nat)).
    + rewrite list_sum_map_add, IH by (intros k Hk; apply Hsub; now right).
      rewrite indicator_sum by (auto; apply Hsub; now left).
      simpl. now destruct (P x).
    + intro k. simpl. now destruct (pair_eqb k x).
Qed.

End GroupCount.

Lemma qsum_ratio {A : Type} (cnt : A -> nat) (d : Q) (l : list A) :
  qsum (map (fun a => Qnat (cnt a) / d) l)
  == Qnat (list_sum (map cnt l)) / d.
Proof.
  induction l as [|a t IH]; simpl.
  - unfold Qnat. simpl. unfold Qdiv. ring.
  - rewrite IH. unfold Qnat. rewrite Nat2Z.inj_add, inject_Z_plus.
    unfold Qdiv. ring.
Qed.

(** ** Affinities *)

Section AffinityFacts.
Context (col : Items.row -> option string)
        (im : list (Scored.row * option Items.row)).

Let users : list string := map (fun ei => Scored.user_id (fst ei)) im.
Let keys : list (string * string) := group_col col im.
Let cnt (k : string * string) : nat := length (filter (pair_eqb k) keys).
Let tot (u : string) : nat := length (filter (String.eqb u) users).

Lemma group_col_user (k : string * string) : In k keys -> In (fst k) users.
Proof.
  destruct k as [u c]. intro Hk. apply group_col_in in Hk.
  destruct Hk as (r & i & Hin & <- & _).
  unfold users. apply in_map_iff. now exists (r, Some i).
Qed.

Lemma user_total_lookup (u : string) :
  In u users ->
  filter (fun ut => String.eqb (fst ut) u) (user_total im) = [(u, tot u)].
Proof.
  intro Hu. unfold user_total. fold users.
  rewrite filter_map_comm. cbn [fst].
  rewrite filter_eqb_nodup; [reflexivity| |].
  - apply (group_keys_nodup String.compare).
  - now apply (group_keys_in String.compare).
Qed.

Lemma affinity_table_rows :
  affinity_table col im
  = map (fun k => Affinity.mk (fst k) (snd k) (cnt k) (tot (fst k))
                    (Qnat (cnt k) / Qnat (tot (fst k))))
        (group_keys pair_compare keys).
Proof.
  unfold affinity_table, group_sizes. fold keys.
  rewrite (flat_map_singleton _
             (fun kc => Affinity.mk (fst (fst kc)) (snd (fst kc)) (snd kc)
                          (tot (fst (fst kc)))
                          (Qnat (snd kc) / Qnat (tot (fst (fst kc)))))).
  - rewrite map_map. reflexivity.
  - intros kc Hkc. apply in_map_iff in Hkc. destruct Hkc as (k & <- & Hk).
    cbn [fst snd].
    apply -> (group_keys_in pair_compare) in Hk.
    rewrite user_total_lookup by now apply group_col_user.
    reflexivity.
Qed.

Lemma tot_user_rows (uid : string) : tot uid = length (user_rows im uid).
Proof.
  unfold tot, users, user_rows. rewrite filter_map_length.
  f_equal. apply filter_ext. intro ei. apply String.eqb_sym.
Qed.

Lemma keys_of_user (uid : string) :
  length (filter (fun k => String.eqb (fst k) uid) keys)
  = length (filter (has_col col) (user_rows im uid)).
Proof.
  unfold keys, group_col, user_rows, has_col.
  induction im as [|[r oi] t IH]; [reflexivity|].
  cbn [flat_map filter fst snd].
  rewrite filter_app, length_app, IH.
  destruct (String.eqb (Scored.user_id r) uid) eqn:Eu;
    destruct oi as [i|]; cbn [filter fst snd]; try reflexivity;
    destruct (col i); cbn [filter fst snd length]; rewrite ?Eu; reflexivity.
Qed.

(** A user's affinities add up to the share of the user's joined rows that
    have the grouping column. *)
Lemma affinity_sum_fraction (uid : string) :
  affinity_sum (affinity_table col im) uid
  == Qnat (length (filter (has_col col) (user_rows im uid)))
     / Qnat (length (user_rows im uid)).
Proof.
  unfold affinity_sum, affinity_dict.
  rewrite affinity_table_rows, filter_map_comm, !map_map.
  cbn [Affinity.user_id Affinity.affinity snd].
  rewrite (map_ext_in _ (fun k => Qnat (cnt k) / Qnat (tot uid))).
  - rewrite qsum_ratio.
    unfold cnt. rewrite (group_count_sum (fun k => String.eqb (fst k) uid)).
    + now rewrite keys_of_user, tot_user_rows.
    + apply (group_keys_nodup pair_compare).
    + intros k Hk. now apply (group_keys_in pair_compare).
  - intros k Hk. apply filter_In in Hk. destruct Hk as [_ Hk].
    apply String.eqb_eq in Hk. now rewrite Hk.
Qed.

End AffinityFacts.

Lemma filter_length_lt {A : Type} (f : A -> bool) (l : list A) (x : A) :
  In x l -> f x = false -> (length (filter f l) < length l)%nat.
Proof.
  induction l as [|a t IH]; simpl; [contradiction|].
  intros [->|Hx] Hf.
  - rewrite Hf. pose proof (filter_length_le f t). lia.
  - destruct (f a); simpl; specialize (IH Hx Hf); lia.
Qed.

Lemma Qnat_ratio_one (n : nat) : (0 < n)%nat -> Qnat n / Qnat n == 1.
Proof.
  intro Hn. unfold Qnat. apply Qmult_inv_r.
  change 0 with (inject_Z 0). rewrite inject_Z_injective. lia.
Qed.

Lemma Qnat_ratio_lt_one (a b : nat) : (a < b)%nat -> Qnat a / Qnat b < 1.
Proof.
  intro Hab. unfold Qnat.
  assert (Hb : 0 < inject_Z (Z.of_nat b))
    by (change 0 with (inject_Z 0); rewrite <- Zlt_Qlt; lia).
  apply Qlt_shift_div_r; [exact Hb|].
  rewrite Qmult_1_l, <- Zlt_Qlt. lia.
Qed.

Section AffinityPipeline.
Context {S : SortKind}.

Lemma user_rows_nonempty (inter : list Inter.row) (pings : list Pings.row)
    (e : Inter.row) :
  In e inter ->
  exists r oi, In (r, oi) (user_rows (int_meta inter pings) (Inter.user_id e))
               /\ Scored.ping_id r = Inter.ping_id e.
Proof.
  intro He.
  destruct (inter_rows_total inter pings e He) as [d Hd].
  destruct (merge_left_total Scored.ping_id Items.ping_id
              (inter_rows inter pings) (items inter pings) _ Hd) as [oi Hoi].
  exists (resolve e d), oi. split; [|reflexivity].
  unfold user_rows. apply filter_In. split; [exact Hoi|].
  cbn [fst]. apply String.eqb_refl.
Qed.

Lemma user_rows_unmatched (inter : list Inter.row) (pings : list Pings.row)
    (e : Inter.row) :
  In e inter ->
  (forall p, In p pings -> Pings.ping_id p <> Inter.ping_id e) ->
  exists r, In (r, None) (user_rows (int_meta inter pings) (Inter.user_id e)).
Proof.
  intros He Hun.
  destruct (user_rows_nonempty inter pings e He) as (r & oi & Hin & Hr).
  exists r. destruct oi as [i|]; [exfalso|exact Hin].
  unfold user_rows in Hin. apply filter_In in Hin. destruct Hin as [Hin _].
  unfold int_meta in Hin. apply merge_left_in in Hin.
  destruct Hin as [_ [Hi Hk]].
  destruct (items_in inter pings i Hi) as (p & Hp & Hid & _).
  apply (Hun p Hp). congruence.
Qed.

Lemma affinity_sum_cases (col : Items.row -> option string)
    (inter : list Inter.row) (pings : list Pings.row) (uid : string) :
  (exists e, In e inter /\ Inter.user_id e = uid) ->
  let im := int_meta inter pings in
  (0 < length (user_rows im uid))%nat
  /\ ((forall ei, In ei (user_rows im uid) -> has_col col ei = true) ->
      affinity_sum (affinity_table col im) uid == 1)
  /\ ((exists e, In e inter /\ Inter.user_id e = uid
                 /\ forall p, In p pings -> Pings.ping_id p <> Inter.ping_id e) ->
      affinity_sum (affinity_table col im) uid < 1).
Proof.
  intros (e & He & Hu) im.
  assert (Hpos : (0 < length (user_rows im uid))%nat).
  { destruct (user_rows_nonempty inter pings e He) as (r & oi & Hin & _).
    rewrite Hu in Hin. fold im in Hin.
    destruct (user_rows im uid); [contradiction|simpl; lia]. }
  split; [exact Hpos|]. split.
  - intro Hall. rewrite affinity_sum_fraction.
    rewrite filter_all by exact Hall. now apply Qnat_ratio_one.
  - intros (e' & He' & Hu' & Hun). rewrite affinity_sum_fraction.
    apply Qnat_ratio_lt_one.
    destruct (user_rows_unmatched inter pings e' He' Hun) as (r & Hr).
    rewrite Hu' in Hr. fold im in Hr.
    now apply filter_length_lt with (r, None).
Qed.

End AffinityPipeline.

(** C1, as the code has it.  For a user with at least one event, the
    category affinities add up to the share of the user's joined event rows
    whose category is known (likewise the creator affinities): 1 when every
    one of them has it, and less than 1 as soon as one of the user's events
    has no catalog match, since such an event is left out of the counts but
    still counted in the user's total.  A user without events has no row in
    either affinity table. *)
Theorem affinity_sum_spec {S : SortKind} (inter : list Inter.row)
    (pings : list Pings.row) (uid : string) :
  let im := int_meta inter pings in
  let share col :=
    Qnat (length (filter (has_col col) (user_rows im uid)))
    / Qnat (length (user_rows im uid)) in
  ((exists e, In e inter /\ Inter.user_id e = uid) ->
     (0 < length (user_rows im uid))%nat
     /\ affinity_sum (user_cat inter pings) uid == share Items.category
     /\ affinity_sum (user_creator inter pings) uid == share Items.creator_id
     /\ ((forall ei, In ei (user_rows im uid) -> has_col Items.category ei = true) ->
         affinity_sum (user_cat inter pings) uid == 1)
     /\ ((forall ei, In ei (user_rows im uid) -> has_col Items.creator_id ei = true) ->
         affinity_sum (user_creator inter pings) uid == 1)
     /\ ((exists e, In e inter /\ Inter.user_id e = uid
                    /\ forall p, In p pings -> Pings.ping_id p <> Inter.ping_id e) ->
         affinity_sum (user_cat inter pings) uid < 1
         /\ affinity_sum (user_creator inter pings) uid < 1))
  /\ ((forall e, In e inter -> Inter.user_id e <> uid) ->
      (forall a, In a (user_cat inter pings) -> Affinity.user_id a <> uid)
      /\ (forall a, In a (user_creator inter pings) -> Affinity.user_id a <> uid)).
Proof.
  intros im share. split.
  - intro Hev.
    destruct (affinity_sum_cases Items.category inter pings uid Hev)
      as (Hpos & Hcat1 & Hcatlt).
    destruct (affinity_sum_cases Items.creator_id inter pings uid Hev)
      as (_ & Hcre1 & Hcrelt).
    split; [exact Hpos|].
    split; [apply affinity_sum_fraction|].
    split; [apply affinity_sum_fraction|].
    split; [exact Hcat1|]. split; [exact Hcre1|].
    intro Hun. split; [now apply Hcatlt|now apply Hcrelt].
  - intro Habs.
    assert (H : forall col a, In a (affinity_table col im) -> Affinity.user_id a <> uid).
    { intros col a Ha Hu.
      destruct (affinity_table_user col _ a Ha) as (r & i & Hin & Hr & _).
      destruct (int_meta_user inter pings r (Some i) Hin) as (e & He & Heu & _).
      apply (Habs e He). congruence. }
    split; apply H.
Qed.

Lemma affinity_sum_spec_witness :
  (exists e, In e orphan_inter /\ Inter.user_id e = "u1")
  /\ affinity_sum (user_cat (S:=stable_kind) orphan_inter demo_pings) "u1"
     == Qnat 1 / Qnat 2
  /\ (exists e, In e demo_inter /\ Inter.user_id e = "u2")
  /\ affinity_sum (user_cat (S:=stable_kind) demo_inter demo_pings) "u2"
     == Qnat 2 / Qnat 2.
Proof.
  assert (H1 : exists e, In e orphan_inter /\ Inter.user_id e = "u1")
    by (eexists; split; [left; reflexivity|reflexivity]).
  assert (H2 : exists e, In e demo_inter /\ Inter.user_id e = "u2")
    by (eexists; split; [right; right; left; reflexivity|reflexivity]).
  split; [exact H1|].
  split; [|split; [exact H2|]].
  - destruct (affinity_sum_spec (S:=stable_kind) orphan_inter demo_pings "u1")
      as [Hsum _].
    destruct (Hsum H1) as (_ & Hcat & _). exact Hcat.
  - destruct (affinity_sum_spec (S:=stable_kind) demo_inter demo_pings "u2")
      as [Hsum _].
    destruct (Hsum H2) as (_ & Hcat & _). exact Hcat.
Defined.

(** C1 as stated fails: u1 has a catalog-matched event, yet the category
    affinities (and the creator affinities) add up to 1/2. *)
Lemma affinity_sum_counterexample :
  (exists e p, In e orphan_inter /\ In p demo_pings
               /\ Inter.user_id e = "u1"
               /\ Pings.ping_id p = Inter.ping_id e)
  /\ affinity_sum (user_cat (S:=stable_kind) orphan_inter demo_pings) "u1" == 1 # 2
  /\ affinity_sum (user_creator (S:=stable_kind) orphan_inter demo_pings) "u1" == 1 # 2
  /\ ~ affinity_sum (user_cat (S:=stable_kind) orphan_inter demo_pings) "u1" == 1
  /\ ~ affinity_sum (user_creator (S:=stable_kind) orphan_inter demo_pings) "u1" == 1.
Proof.
  split.
  - exists (Inter.mk "u1" "p1" (Some "like") None None), (nth 0 demo_pings p1_30s).
    repeat split; simpl; auto.
  - repeat split; try reflexivity; intro H; vm_compute in H; discriminate.
Qed.

(** ** Order of the global ranking *)

Lemma insert_first_filter {A : Type} (key : A -> Q) (q : Q) (x : A) (l : list A) :
  filter (fun a => Qeq_bool (key a) q) (insert_first key x l)
  = filter (fun a => Qeq_bool (key a) q) (x :: l).
Proof.
  induction l as [|y t IH]; [reflexivity|].
  cbn [insert_first].
  destruct (Qle_bool (key y) (key x)) eqn:E; [reflexivity|].
  apply Qle_bool_false in E.
  cbn [filter] in *. rewrite IH.
  destruct (Qeq_bool (key x) q) eqn:Ex, (Qeq_bool (key y) q) eqn:Ey;
    try reflexivity.
  apply Qeq_bool_iff in Ex, Ey. exfalso. rewrite Ex, Ey in E.
  now apply (Qlt_irrefl q).
Qed.

Lemma stable_kind_stable : stable stable_kind.
Proof.
  intros A key l q. cbn [sort_desc stable_kind].
  induction l as [|x t IH]; [reflexivity|].
  cbn [isort_first fold_right]. fold (isort_first key t).
  rewrite insert_first_filter. cbn [filter]. now rewrite IH.
Qed.

Section SortedFacts.
Context {A : Type} (R : A -> A -> Prop).

Lemma StronglySorted_filter (f : A -> bool) (l : list A) :
  StronglySorted R l -> StronglySorted R (filter f l).
Proof.
  induction 1 as [|x t Hs IH Hall]; simpl; [constructor|].
  destruct (f x); [|exact IH].
  constructor; [exact IH|].
  apply Forall_forall. intros y Hy. apply filter_In in Hy.
  rewrite Forall_forall in Hall. now apply Hall.
Qed.

Lemma StronglySorted_before (l1 l2 l3 : list A) (a b : A) :
  StronglySorted R (l1 ++ a :: l2 ++ b :: l3) -> R a b.
Proof.
  induction l1 as [|x t IH]; simpl; intro H.
  - apply StronglySorted_inv in H. destruct H as [_ Hall].
    rewrite Forall_forall in Hall. apply Hall.
    apply in_or_app. right. now left.
  - apply StronglySorted_inv in H. now apply IH.
Qed.

Lemma StronglySorted_map {B : Type} (f : B -> A) (l : list B) :
  StronglySorted (fun x y => R (f x) (f y)) l -> StronglySorted R (map f l).
Proof.
  induction 1 as [|x t Hs IH Hall]; simpl; constructor; [exact IH|].
  apply Forall_forall. intros y Hy. apply in_map_iff in Hy.
  destruct Hy as (z & <- & Hz). rewrite Forall_forall in Hall. now apply Hall.
Qed.

End SortedFacts.

(** ** The compare-exchange network sorts

    The network moves lanes around, so its outcome is a permutation of the
    register; that it sorts follows from the 0-1 principle, the 256 vectors
    of eight bits being enumerated. *)

Section SetNth.
Context {L : Type}.

Lemma set_nth_same (n : nat) (l : list L) (d : L) : set_nth n (nth n l d) l = l.
Proof.
  revert n. induction l as [|x t IH]; intros [|n]; simpl; try reflexivity.
  now rewrite IH.
Qed.

Lemma map_set_nth {M : Type} (f : L -> M) (n : nat) (x : L) (l : list L) :
  map f (set_nth n x l) = set_nth n (f x) (map f l).
Proof.
  revert n. induction l as [|y t IH]; intros [|n]; simpl; try reflexivity.
  now rewrite IH.
Qed.

Lemma set_nth_perm (x : L) (j : nat) (t : list L) (d : L) :
  (j < length t)%nat -> Permutation (x :: t) (nth j t d :: set_nth j x t).
Proof.
  revert j. induction t as [|y t IH]; intros [|j] Hj; simpl in *; try lia.
  - apply perm_swap.
  - etransitivity; [apply perm_swap|].
    etransitivity; [apply perm_skip, (IH j); lia|]. apply perm_swap.
Qed.

Lemma swap_perm (i j : nat) (v : list L) (d : L) :
  (i < length v)%nat -> (j < length v)%nat ->
  Permutation v (set_nth i (nth j v d) (set_nth j (nth i v d) v)).
Proof.
  revert i j. induction v as [|x t IH]; intros [|i] [|j] Hi Hj; simpl in *; try lia.
  - reflexivity.
  - apply set_nth_perm. lia.
  - apply set_nth_perm. lia.
  - apply perm_skip, IH; lia.
Qed.

End SetNth.

(** A network of exchanges permutes the lanes. *)
Section Exchange.
Context {L : Type} (gt : L -> L -> bool) (d : L).

Lemma exchange_perm (v : list L) (c : nat * nat) :
  (fst c < length v)%nat -> (snd c < length v)%nat ->
  Permutation v (exchange gt d v c).
Proof.
  intros Hi Hj. unfold exchange.
  destruct (gt _ _); [|reflexivity]. now apply swap_perm.
Qed.

Lemma network_perm (net : list (nat * nat)) (v : list L) :
  Forall (fun c => (fst c < length v)%nat /\ (snd c < length v)%nat) net ->
  Permutation v (fold_left (exchange gt d) net v).
Proof.
  revert v. induction net as [|c t IH]; intros v Hnet; simpl; [reflexivity|].
  apply Forall_cons_iff in Hnet. destruct Hnet as [[Hi Hj] Ht].
  pose proof (exchange_perm v c Hi Hj) as Hp.
  etransitivity; [exact Hp|]. apply IH.
  rewrite <- (Permutation_length Hp). exact Ht.
Qed.

End Exchange.

Lemma exchange_map {L : Type} (gt : L -> L -> bool) (d : L) (f : L -> bool)
    (v : list L) (c : nat * nat) :
  (forall a b, gt a b = true -> gt b a = false) ->
  (forall a b, gt a b = false -> f a = true -> f b = true) ->
  map f (exchange gt d v c) = exchange bool_gt (f d) (map f v) c.
Proof.
  intros Hasym Hmono. unfold exchange. rewrite !map_nth.
  set (a := nth (fst c) v d). set (b := nth (snd c) v d).
  assert (Hsa : set_nth (fst c) (f a) (map f v) = map f v).
  { unfold a. rewrite <- (map_nth f). apply set_nth_same. }
  assert (Hsb : set_nth (snd c) (f b) (map f v) = map f v).
  { unfold b. rewrite <- (map_nth f). apply set_nth_same. }
  destruct (gt a b) eqn:E.
  - rewrite !map_set_nth.
    pose proof (Hmono b a (Hasym a b E)) as Hba.
    unfold bool_gt. destruct (f a) eqn:Fa, (f b) eqn:Fb; cbn [andb negb].
    + now rewrite Hsb, Hsa.
    + reflexivity.
    + specialize (Hba Logic.eq_refl). discriminate.
    + now rewrite Hsb, Hsa.
  - pose proof (Hmono a b E) as Hab.
    unfold bool_gt. destruct (f a) eqn:Fa; cbn [andb]; [|reflexivity].
    now rewrite (Hab Logic.eq_refl).
Qed.

Lemma network_map {L : Type} (gt : L -> L -> bool) (d : L) (f : L -> bool)
    (net : list (nat * nat)) (v : list L) :
  (forall a b, gt a b = true -> gt b a = false) ->
  (forall a b, gt a b = false -> f a = true -> f b = true) ->
  map f (fold_left (exchange gt d) net v)
  = fold_left (exchange bool_gt (f d)) net (map f v).
Proof.
  intros Hasym Hmono. revert v.
  induction net as [|c t IH]; intro v; simpl; [reflexivity|].
  now rewrite IH, exchange_map.
Qed.

(** The 0-1 principle, by enumeration of the 256 vectors of eight bits. *)
Lemma all_bools_in (v : list bool) : In v (all_bools (length v)).
Proof.
  induction v as [|b t IH]; simpl; [now left|].
  apply in_flat_map. exists t. split; [exact IH|].
  destruct b; simpl; auto.
Qed.

Lemma network_64bit_bits (dflt : bool) (v : list bool) :
  length v = 8%nat ->
  bsorted (fold_left (exchange bool_gt dflt) network_64bit v) = true.
Proof.
  intro Hlen.
  assert (Hall : forallb (fun w => bsorted (fold_left (exchange bool_gt dflt)
                                              network_64bit w))
                         (all_bools 8) = true)
    by (destruct dflt; vm_compute; reflexivity).
  rewrite forallb_forall in Hall. apply Hall. rewrite <- Hlen. apply all_bools_in.
Qed.

Lemma key_gt_irrefl (a : option Q) : key_gt a a = false.
Proof.
  destruct a as [x|]; [|reflexivity]. apply Qgt_bool_false_iff, Qle_refl.
Qed.

Lemma key_gt_asym (a b : option Q) : key_gt a b = true -> key_gt b a = false.
Proof.
  destruct a as [x|], b as [y|]; simpl; try congruence.
  rewrite Qgt_bool_iff, Qgt_bool_false_iff. apply Qlt_le_weak.
Qed.

Lemma key_gt_mono (t a b : option Q) :
  key_gt a b = false -> key_gt a t = true -> key_gt b t = true.
Proof.
  destruct a as [x|], b as [y|], t as [z|]; simpl; try congruence.
  rewrite Qgt_bool_false_iff, !Qgt_bool_iff. intros H1 H2.
  now apply Qlt_le_trans with x.
Qed.

Lemma bits_sorted (v : list lane) :
  (forall t, bsorted (map (fun a => key_gt (fst a) t) v) = true) ->
  StronglySorted (fun a b => lane_gt a b = false) v.
Proof.
  induction v as [|x r IH]; intro H; constructor.
  - apply IH. intro t. specialize (H t). simpl in H.
    now apply andb_true_iff in H.
  - apply Forall_forall. intros y Hy.
    destruct (lane_gt x y) eqn:E; [exfalso|reflexivity].
    specialize (H (fst y)). simpl in H. apply andb_true_iff in H.
    destruct H as [H _]. unfold lane_gt in E. rewrite E in H. simpl in H.
    rewrite forallb_forall in H.
    specialize (H (key_gt (fst y) (fst y))
                  (in_map (fun a => key_gt (fst a) (fst y)) r y Hy)).
    rewrite key_gt_irrefl in H. discriminate.
Qed.

Lemma sort_zmm_64bit_exchange (v : list lane) :
  sort_zmm_64bit v = fold_left (exchange lane_gt pad) network_64bit v.
Proof. reflexivity. Qed.

Lemma sort_zmm_64bit_perm (v : list lane) :
  length v = 8%nat -> Permutation v (sort_zmm_64bit v).
Proof.
  intro Hlen. rewrite sort_zmm_64bit_exchange. apply network_perm.
  rewrite Hlen. unfold network_64bit.
  repeat (constructor; [simpl; lia|]). constructor.
Qed.

Lemma sort_zmm_64bit_sorted (v : list lane) :
  length v = 8%nat ->
  StronglySorted (fun a b => lane_gt a b = false) (sort_zmm_64bit v).
Proof.
  intro Hlen. apply bits_sorted. intro t.
  rewrite sort_zmm_64bit_exchange.
  rewrite (network_map lane_gt pad (fun a => key_gt (fst a) t)).
  - apply network_64bit_bits. now rewrite length_map.
  - intros a b. apply key_gt_asym.
  - intros a b. apply key_gt_mono.
Qed.

(** ** The default sort kind meets the sort interface *)

Section MoreSortedFacts.
Context {A : Type} (R : A -> A -> Prop).

Lemma StronglySorted_map_inv {B : Type} (f : B -> A) (l : list B) :
  StronglySorted R (map f l) -> StronglySorted (fun x y => R (f x) (f y)) l.
Proof.
  induction l as [|x t IH]; simpl; intro H; constructor;
    apply StronglySorted_inv in H; destruct H as [Hs Hall].
  - now apply IH.
  - apply Forall_forall. intros y Hy. rewrite Forall_forall in Hall.
    apply Hall. now apply in_map.
Qed.

Lemma StronglySorted_snoc (l : list A) (x : A) :
  StronglySorted R l -> Forall (fun y => R y x) l -> StronglySorted R (l ++ [x]).
Proof.
  induction 1 as [|y t Hs IH Hall]; simpl; intro Hx.
  - repeat constructor.
  - apply Forall_cons_iff in Hx. destruct Hx as [Hyx Hx].
    constructor; [now apply IH|].
    apply Forall_app. split; [exact Hall|]. now constructor.
Qed.

End MoreSortedFacts.

Lemma StronglySorted_rev {A : Type} (R : A -> A -> Prop) (l : list A) :
  StronglySorted R l -> StronglySorted (fun a b => R b a) (rev l).
Proof.
  induction 1 as [|x t Hs IH Hall]; simpl; [constructor|].
  apply StronglySorted_snoc; [exact IH|].
  apply Forall_forall. intros y Hy. apply in_rev in Hy.
  rewrite Forall_forall in Hall. now apply Hall.
Qed.

Lemma Permutation_filter {A : Type} (f : A -> bool) (l1 l2 : list A) :
  Permutation l1 l2 -> Permutation (filter f l1) (filter f l2).
Proof.
  induction 1 as [|x l1 l2 Hp IH|x y l|l1 l2 l3 H1 IH1 H2 IH2]; simpl.
  - constructor.
  - destruct (f x); [now constructor|exact IH].
  - destruct (f x), (f y); try reflexivity. apply perm_swap.
  - now transitivity (filter f l2).
Qed.

Lemma combine_map_l {A B C : Type} (g : A -> C) (a : list A) (b : list B) :
  combine (map g a) b = map (fun p => (g (fst p), snd p)) (combine a b).
Proof.
  revert b. induction a as [|x t IH]; intros [|y b]; simpl; try reflexivity.
  now rewrite IH.
Qed.

Lemma map_fst_combine_seq {A : Type} (t : list A) (s : nat) :
  map fst (combine t (seq s (length t))) = t.
Proof.
  revert s. induction t as [|x t IH]; intro s; simpl; [reflexivity|].
  now rewrite IH.
Qed.

Lemma combine_seq_in {A : Type} (t : list A) (s : nat) (x : A) (i : nat) :
  In (x, i) (combine t (seq s (length t))) ->
  (s <= i < s + length t)%nat /\ nth_error t (i - s) = Some x.
Proof.
  revert s. induction t as [|y t IH]; intro s; simpl; [contradiction|].
  intros [H|H].
  - injection H as -> ->. split; [lia|]. now rewrite Nat.sub_diag.
  - apply IH in H. destruct H as [Hi Hx]. split; [lia|].
    replace (i - s)%nat with (S (i - S s)) by lia. exact Hx.
Qed.

Lemma sorted_cells_first (v : list lane) :
  StronglySorted (fun a b => lane_gt a b = false) v ->
  firstn (length (filter is_cell v)) v = filter is_cell v.
Proof.
  induction 1 as [|x t Hs IH Hall]; [reflexivity|].
  cbn [filter]. destruct (is_cell x) eqn:E.
  - cbn [length firstn]. now rewrite IH.
  - rewrite filter_none; [reflexivity|].
    intros y Hy. rewrite Forall_forall in Hall. specialize (Hall y Hy).
    unfold is_cell in *. unfold lane_gt in Hall.
    destruct (fst x); [discriminate|]. destruct (fst y); [discriminate|reflexivity].
Qed.

Section DefaultSort.
Context {A : Type} (key : A -> Q).

(** What [argsort] does on the reversed key column, in terms of the rows:
    the first lanes of the sorted register are the rows of the reversed
    table with their positions, in some order that is ascending in the
    key. *)
Lemma argsort_rows (l : list A) :
  (length l <= 8)%nat ->
  exists W : list (A * nat),
    argsort (rev (map key l)) = map snd W
    /\ Permutation (combine (rev l) (seq 0 (length l))) W
    /\ StronglySorted (fun a b => key (fst a) <= key (fst b)) W.
Proof.
  intro Hlen. unfold argsort.
  rewrite length_rev, length_map, <- map_rev, combine_map_l.
  set (n := length l).
  set (T := combine (rev l) (seq 0 n)).
  assert (HT : length T = n).
  { unfold T. rewrite length_combine, length_rev, length_seq. fold n. lia. }
  rewrite combine_map_l, map_map. cbn [fst snd]. fold T.
  change (map (fun x : A * nat => (Some (key (fst x)), snd x)) T) with (map (load key) T).
  set (lanes := (map (load key) T ++ repeat pad (8 - n))%list).
  assert (Hl8 : length lanes = 8%nat).
  { unfold lanes. rewrite length_app, length_map, repeat_length, HT. lia. }
  pose proof (sort_zmm_64bit_perm lanes Hl8) as Hperm.
  pose proof (sort_zmm_64bit_sorted lanes Hl8) as Hsorted.
  assert (Hcells : filter is_cell lanes = map (load key) T).
  { unfold lanes. rewrite filter_app, filter_all, filter_none.
    - apply app_nil_r.
    - intros x Hx. apply repeat_spec in Hx. now subst x.
    - intros x Hx. apply in_map_iff in Hx. now destruct Hx as (xi & <- & _). }
  pose proof (Permutation_filter is_cell _ _ Hperm) as Hpc. rewrite Hcells in Hpc.
  assert (Hfirst : firstn n (sort_zmm_64bit lanes)
                   = filter is_cell (sort_zmm_64bit lanes)).
  { rewrite <- (sorted_cells_first _ Hsorted). f_equal.
    rewrite <- (Permutation_length Hpc), length_map. now symmetry. }
  change (sort_zmm_64bit _) with (sort_zmm_64bit lanes). rewrite Hfirst.
  apply Permutation_sym, Permutation_map_inv in Hpc.
  destruct Hpc as (W & HQ & HTQ).
  exists W. split; [|split; [exact HTQ|]].
  - rewrite HQ, map_map. reflexivity.
  - apply (StronglySorted_filter _ is_cell) in Hsorted. rewrite HQ in Hsorted.
    apply StronglySorted_map_inv in Hsorted.
    eapply StronglySorted_ind with (P := StronglySorted _); [constructor| |exact Hsorted].
    intros a t _ IH Hall. constructor; [exact IH|].
    eapply Forall_impl; [|exact Hall]. intros b Hb.
    unfold lane_gt, load in Hb. cbn [fst key_gt] in Hb.
    now apply Qgt_bool_false_iff.
Qed.

Lemma nargsort_take (l : list A) :
  (length l <= 8)%nat ->
  exists W : list (A * nat),
    take (nargsort_desc (map key l)) l = rev (map fst W)
    /\ Permutation (combine (rev l) (seq 0 (length l))) W
    /\ StronglySorted (fun a b => key (fst a) <= key (fst b)) W.
Proof.
  intro Hlen. destruct (argsort_rows l Hlen) as (W & HQ & HTQ & Hs).
  exists W. split; [|split; assumption].
  unfold take, nargsort_desc. rewrite HQ, length_map.
  rewrite map_map, <- map_rev, <- map_rev.
  rewrite flat_map_concat_map, map_map, <- flat_map_concat_map.
  apply flat_map_singleton. intros [x i] Hx. cbn [fst snd].
  apply in_rev in Hx. apply (Permutation_in _ (Permutation_sym HTQ)) in Hx.
  rewrite <- (length_rev l) in Hx at 1.
  apply combine_seq_in in Hx. rewrite length_rev in Hx. destruct Hx as [Hi Hx].
  rewrite Nat.sub_0_r in Hx.
  rewrite rev_nth by (rewrite length_seq; lia).
  rewrite length_seq, seq_nth by lia. cbn [Nat.add].
  rewrite nth_error_rev in Hx.
  destruct (i <? length l)%nat; [|discriminate]. now rewrite Hx.
Qed.

Lemma default_sort_perm (l : list A) : Permutation l (default_sort key l).
Proof.
  unfold default_sort. destruct (length l <=? 8)%nat eqn:E; [|apply isort_first_perm].
  apply Nat.leb_le in E. destruct (nargsort_take l E) as (W & -> & HTQ & _).
  rewrite <- Permutation_rev.
  rewrite <- (Permutation_map fst HTQ).
  rewrite <- (length_rev l), map_fst_combine_seq. apply Permutation_rev.
Qed.

Lemma default_sort_sorted (l : list A) :
  StronglySorted (fun a b => key b <= key a) (default_sort key l).
Proof.
  unfold default_sort. destruct (length l <=? 8)%nat eqn:E; [|apply isort_first_sorted].
  apply Nat.leb_le in E. destruct (nargsort_take l E) as (W & -> & _ & Hs).
  apply (StronglySorted_rev (fun a b => key a <= key b)).
  now apply StronglySorted_map.
Qed.

End DefaultSort.

Definition default_kind : SortKind := {|
  sort_desc := fun A key l => default_sort key l;
  sort_desc_perm := fun A key l => default_sort_perm key l;
  sort_desc_sorted := fun A key l => default_sort_sorted key l
|}.

Lemma ping_global_groups_sorted (ups : list UserPing.row) :
  StronglySorted
    (fun a b => String.compare (PingGlobal.ping_id a) (PingGlobal.ping_id b) = Lt)
    (ping_global_groups ups).
Proof.
  unfold ping_global_groups. apply StronglySorted_map. cbn [PingGlobal.ping_id].
  apply (group_keys_sorted String.compare).
Qed.

(** Under a stable sort, rows of equal engagement stay in the order in
    which the group-by delivers them: increasing ping_id. *)
Lemma stable_ties_by_ping_id {S : SortKind} (inter : list Inter.row)
    (pings : list Pings.row) :
  stable S -> ties_by_ping_id (ping_global inter pings).
Proof.
  intros Hst l1 a l2 b l3 Hout Hq.
  unfold String.ltb.
  set (q := PingGlobal.global_engagement a).
  set (keep := fun r : PingGlobal.row => Qeq_bool (PingGlobal.global_engagement r) q).
  assert (Ha : keep a = true) by (apply Qeq_bool_iff; reflexivity).
  assert (Hb : keep b = true) by (apply Qeq_bool_iff; symmetry; exact Hq).
  pose proof (ping_global_groups_sorted (user_ping (inter_rows inter pings))) as Hs.
  apply (StronglySorted_filter _ keep) in Hs.
  unfold keep in Hs at 1. rewrite <- Hst in Hs. fold keep in Hs.
  fold (ping_global inter pings) in Hs. rewrite Hout in Hs.
  rewrite filter_app in Hs. cbn [filter] in Hs. rewrite Ha in Hs.
  rewrite filter_app in Hs. cbn [filter] in Hs. rewrite Hb in Hs.
  apply StronglySorted_before in Hs. now rewrite Hs.
Qed.

(** In a sorted table, a row whose key is strictly before another's comes
    before it. *)
Lemma sorted_strictly_before {A : Type} (key : A -> Q) (out : list A) (a b : A) :
  StronglySorted (fun x y => key y <= key x) out ->
  In a out -> In b out -> key b < key a ->
  exists l1 l2 l3, out = (l1 ++ a :: l2 ++ b :: l3)%list.
Proof.
  intros Hs Ha Hb Hlt.
  apply in_split in Ha. destruct Ha as (l1 & r & ->).
  apply in_app_or in Hb. destruct Hb as [Hb|[Hb|Hb]].
  - exfalso. apply in_split in Hb. destruct Hb as (m1 & m2 & ->).
    rewrite <- app_assoc in Hs. cbn [app] in Hs.
    apply StronglySorted_before in Hs. apply (Qlt_not_le _ _ Hlt Hs).
  - subst b. exfalso. apply (Qlt_irrefl _ Hlt).
  - apply in_split in Hb. destruct Hb as (l2 & l3 & ->). now exists l1, l2, l3.
Qed.

(** C2, as the code has it.  The global ranking holds the rows of the
    group-by, which delivers them in increasing ping_id, reordered by
    [sort_values] into descending global_engagement: a row comes before
    every row of strictly smaller engagement.  The code names no second
    sort key, so the order of rows of equal engagement is the one the sort
    leaves. *)
Theorem ping_global_order {S : SortKind} (inter : list Inter.row)
    (pings : list Pings.row) :
  StronglySorted
    (fun a b => PingGlobal.global_engagement b <= PingGlobal.global_engagement a)
    (ping_global inter pings)
  /\ StronglySorted
       (fun a b => String.compare (PingGlobal.ping_id a) (PingGlobal.ping_id b) = Lt)
       (ping_global_groups (user_ping (inter_rows inter pings)))
  /\ Permutation (ping_global_groups (user_ping (inter_rows inter pings)))
                 (ping_global inter pings)
  /\ (forall a b, In a (ping_global inter pings) -> In b (ping_global inter pings) ->
        PingGlobal.global_engagement b < PingGlobal.global_engagement a ->
        exists l1 l2 l3, ping_global inter pings = (l1 ++ a :: l2 ++ b :: l3)%list)
  /\ (forall l1 a l2 b l3,
        ping_global inter pings = (l1 ++ a :: l2 ++ b :: l3)%list ->
        PingGlobal.global_engagement b <= PingGlobal.global_engagement a
        /\ PingGlobal.ping_id a <> PingGlobal.ping_id b).
Proof.
  pose proof (sort_desc_sorted _ PingGlobal.global_engagement
                (ping_global_groups (user_ping (inter_rows inter pings)))) as Hs.
  pose proof (sort_desc_perm _ PingGlobal.global_engagement
                (ping_global_groups (user_ping (inter_rows inter pings)))) as Hp.
  pose proof (ping_global_groups_sorted (user_ping (inter_rows inter pings))) as Hid.
  fold (ping_global inter pings) in Hs, Hp.
  split; [exact Hs|]. split; [exact Hid|]. split; [exact Hp|]. split.
  - intros a b. now apply sorted_strictly_before.
  - intros l1 a l2 b l3 Hout. split.
    + rewrite Hout in Hs. now apply StronglySorted_before in Hs.
    + assert (Hnd : NoDup (map PingGlobal.ping_id (ping_global inter pings))).
      { eapply Permutation_NoDup; [apply Permutation_map, Hp|].
        unfold ping_global_groups. rewrite map_map. cbn [PingGlobal.ping_id].
        rewrite map_id. apply (group_keys_nodup String.compare). }
      rewrite Hout, map_app in Hnd. apply NoDup_app_remove_l in Hnd.
      cbn [map] in Hnd. apply NoDup_cons_iff in Hnd. destruct Hnd as [Hnot _].
      intro Heq. apply Hnot. rewrite Heq, map_app. apply in_or_app. right. now left.
Qed.

Lemma ping_global_order_witness :
  map PingGlobal.ping_id (ping_global (S:=default_kind) tie4_inter demo_pings)
  = ["p4"; "p3"; "p2"; "p1"]
  /\ map PingGlobal.ping_id
       (ping_global_groups (user_ping (inter_rows tie4_inter demo_pings)))
     = ["p1"; "p2"; "p3"; "p4"]
  /\ StronglySorted
       (fun a b => PingGlobal.global_engagement b <= PingGlobal.global_engagement a)
       (ping_global (S:=default_kind) tie4_inter demo_pings).
Proof.
  split; [vm_compute; reflexivity|]. split; [vm_compute; reflexivity|].
  apply (ping_global_order (S:=default_kind) tie4_inter demo_pings).
Defined.

(** C2 as stated fails on [tie4_inter].  The group-by delivers p1, p2, p3,
    p4 with engagements 2, 2, 4, 4, and the default sort returns p4, p3, p2,
    p1: the output is in descending engagement, but p4 comes before p3 and
    p2 before p1 although each pair has equal engagement. *)
Lemma ping_global_ties_counterexample :
  ping_global_groups (user_ping (inter_rows tie4_inter demo_pings))
  = [ PingGlobal.mk "p1" 2 1; PingGlobal.mk "p2" 2 1;
      PingGlobal.mk "p3" 4 1; PingGlobal.mk "p4" 4 1 ]
  /\ ping_global (S:=default_kind) tie4_inter demo_pings
     = [ PingGlobal.mk "p4" 4 1; PingGlobal.mk "p3" 4 1;
         PingGlobal.mk "p2" 2 1; PingGlobal.mk "p1" 2 1 ]
  /\ ~ ties_by_ping_id (ping_global (S:=default_kind) tie4_inter demo_pings).
Proof.
  assert (Hout : ping_global (S:=default_kind) tie4_inter demo_pings
                 = [ PingGlobal.mk "p4" 4 1; PingGlobal.mk "p3" 4 1;
                     PingGlobal.mk "p2" 2 1; PingGlobal.mk "p1" 2 1 ])
    by (vm_compute; reflexivity).
  split; [vm_compute; reflexivity|]. split; [exact Hout|].
  intro H. rewrite Hout in H.
  specialize (H [] (PingGlobal.mk "p4" 4 1) [] (PingGlobal.mk "p3" 4 1)
                [ PingGlobal.mk "p2" 2 1; PingGlobal.mk "p1" 2 1 ]
                Logic.eq_refl (Qeq_refl _)).
  vm_compute in H. discriminate.
Qed.

(** The default kind is not stable: of the rows of engagement 4 above, p4
    comes out first. *)
Lemma default_kind_not_stable : ~ stable default_kind.
Proof.
  intro H.
  specialize (H PingGlobal.row PingGlobal.global_engagement
                (ping_global_groups (user_ping (inter_rows tie4_inter demo_pings)))
                4).
  vm_compute in H. discriminate.
Qed.

(** Not every tie is reordered: the two equal rows of [tie_inter] come out
    as the group-by delivers them. *)
Lemma ping_global_pair_in_order :
  ping_global (S:=default_kind) tie_inter demo_pings
  = [ PingGlobal.mk "p1" 2 1; PingGlobal.mk "p2" 2 1 ].
Proof.
  vm_compute. reflexivity.
Qed.

(** * Further properties of the script *)

(** ** Duration fallback *)

Lemma qinsert_in (x y : Q) (l : list Q) :
  In y (qinsert x l) <-> y = x \/ In y l.
Proof.
  induction l as [|z t IH]; simpl; [intuition|].
  destruct (Qle_bool x z); simpl; [intuition|].
  rewrite IH. intuition.
Qed.

Lemma qsort_in (y : Q) (l : list Q) : In y (qsort l) <-> In y l.
Proof.
  induction l as [|x t IH]; simpl; [tauto|].
  rewrite qinsert_in, IH. intuition.
Qed.

Lemma known_cells_in (col : list (option Q)) (v : Q) :
  In v (flat_map (fun c => match c with Some w => [w] | None => [] end) col)
  <-> In (Some v) col.
Proof.
  rewrite in_flat_map. split.
  - intros ([w|] & Hc & Hv); [|contradiction].
    destruct Hv as [->|[]]. exact Hc.
  - intro H. exists (Some v). split; [exact H|now left].
Qed.

(** The median is the mean of two known cells (twice the same one when
    their number is odd). *)
Lemma median_some (col : list (option Q)) (m : Q) :
  median col = Some m ->
  exists a b, In (Some a) col /\ In (Some b) col /\ m == (a + b) / 2.
Proof.
  unfold median.
  remember (qsort (flat_map (fun c => match c with Some w => [w] | None => [] end) col))
    as known eqn:Ek.
  assert (Hin : forall v, In v known -> In (Some v) col).
  { intros v Hv. rewrite Ek in Hv. apply -> qsort_in in Hv.
    apply -> known_cells_in in Hv. exact Hv. }
  destruct known as [|k0 kt]; [discriminate|].
  set (n := length (k0 :: kt)).
  assert (Hn : (0 < n)%nat) by (unfold n; simpl; lia).
  assert (Hhalf : (n / 2 < n)%nat) by (apply Nat.div_lt; lia).
  set (a := nth (n / 2 - 1) (k0 :: kt) 0).
  set (b := nth (n / 2) (k0 :: kt) 0).
  assert (Ha : In (Some a) col) by (apply Hin, nth_In; fold n; lia).
  assert (Hb : In (Some b) col) by (apply Hin, nth_In; fold n; lia).
  destruct (Nat.even n); intro H.
  - assert (Hm : m = (a + b) / 2) by (injection H as <-; reflexivity).
    exists a, b. rewrite Hm. split; [exact Ha|split; [exact Hb|reflexivity]].
  - assert (Hm : m = b) by (injection H as <-; reflexivity).
    exists b, b. rewrite Hm. split; [exact Hb|split; [exact Hb|]].
    clearbody b. field.
Qed.

Lemma median_none (col : list (option Q)) :
  median col = None <-> forall c, In c col -> c = None.
Proof.
  unfold median.
  remember (qsort (flat_map (fun c => match c with Some w => [w] | None => [] end) col))
    as known eqn:Ek.
  split.
  - intros H [v|] Hc; [exfalso|reflexivity].
    apply <- known_cells_in in Hc. apply <- qsort_in in Hc. rewrite <- Ek in Hc.
    destruct known as [|k0 kt]; [contradiction|].
    destruct (Nat.even (length (k0 :: kt))); discriminate.
  - intro Hall. destruct known as [|k0 kt]; [reflexivity|exfalso].
    assert (Hk : In k0 (k0 :: kt)) by now left.
    rewrite Ek in Hk. apply -> qsort_in in Hk. apply -> known_cells_in in Hk.
    specialize (Hall _ Hk). discriminate.
Qed.

Lemma fill_duration_fst (pings : list Pings.row) :
  map fst (fill_duration pings) = pings.
Proof.
  unfold fill_duration.
  destruct (median (map Pings.duration_sec pings));
    rewrite map_map; cbn [fst]; apply map_id.
Qed.

Lemma fill_duration_in (pings : list Pings.row) (p : Pings.row) (d : Q) :
  In (p, d) (fill_duration pings) ->
  In p pings
  /\ match Pings.duration_sec p with
     | Some v => d = v
     | None =>
         match median (map Pings.duration_sec pings) with
         | Some m => d = m
         | None => d = 30
         end
     end.
Proof.
  unfold fill_duration.
  destruct (median (map Pings.duration_sec pings)) as [m|] eqn:Em;
    rewrite in_map_iff; intros (q & Hq & Hin); injection Hq as -> <-;
    (split; [exact Hin|]).
  - now destruct (Pings.duration_sec p).
  - destruct (Pings.duration_sec p) as [v|] eqn:Ev; [exfalso|reflexivity].
    assert (Hc : In (Some v) (map Pings.duration_sec pings))
      by (rewrite <- Ev; now apply in_map).
    pose proof (proj1 (median_none _) Em _ Hc). discriminate.
Qed.

Lemma inter_rows_in_full (inter : list Inter.row) (pings : list Pings.row)
    (r : Scored.row) :
  In r (inter_rows inter pings) ->
  exists e d,
    In e inter /\ r = resolve e d
    /\ match d with
       | Some pd => In pd (fill_duration pings)
                    /\ Pings.ping_id (fst pd) = Inter.ping_id e
       | None => forall pd, In pd (fill_duration pings) ->
                   Pings.ping_id (fst pd) <> Inter.ping_id e
       end.
Proof.
  unfold inter_rows. rewrite in_map_iff. intros ([e d] & <- & Hin).
  apply merge_left_in in Hin. destruct Hin as [He Hd].
  exists e, d. repeat split; assumption.
Qed.

Lemma fill_duration_pos (pings : list Pings.row) :
  (forall p v, In p pings -> Pings.duration_sec p = Some v -> 0 < v) ->
  forall p d, In (p, d) (fill_duration pings) -> 0 < d.
Proof.
  intros Hpos p d Hin. apply fill_duration_in in Hin. destruct Hin as [Hp Hd].
  destruct (Pings.duration_sec p) as [v|] eqn:Ev.
  - subst d. now apply (Hpos p v).
  - destruct (median (map Pings.duration_sec pings)) as [m|] eqn:Em;
      subst d; [|reflexivity].
    destruct (median_some _ m Em) as (a & b & Ha & Hb & Hm).
    apply in_map_iff in Ha. destruct Ha as (pa & Hpa & Hpain).
    apply in_map_iff in Hb. destruct Hb as (pb & Hpb & Hpbin).
    pose proof (Hpos pa a Hpain Hpa). pose proof (Hpos pb b Hpbin Hpb).
    rewrite Hm. apply Qlt_shift_div_l; [reflexivity|]. lra.
Qed.

Lemma inter_rows_duration_pos (inter : list Inter.row) (pings : list Pings.row) :
  (forall p v, In p pings -> Pings.duration_sec p = Some v -> 0 < v) ->
  forall r, In r (inter_rows inter pings) -> 0 < Scored.duration_sec r.
Proof.
  intros Hpos r Hr.
  destruct (inter_rows_in_full inter pings r Hr) as (e & d & He & -> & Hd).
  destruct d as [[p v]|]; cbn; [|reflexivity].
  destruct Hd as [Hpd _]. now apply (fill_duration_pos pings Hpos p v).
Qed.

(** X1.  After the fallback every catalog row has a duration and a known
    duration is kept as it is; without any known duration every row gets
    30; an event whose ping is not in the catalog is scored against 30; and
    when the known durations are positive, so is every duration an event is
    scored against. *)
Theorem durations_resolved (inter : list Inter.row) (pings : list Pings.row) :
  map fst (fill_duration pings) = pings
  /\ (forall p d v, In (p, d) (fill_duration pings) ->
        Pings.duration_sec p = Some v -> d = v)
  /\ ((forall p, In p pings -> Pings.duration_sec p = None) ->
      forall p d, In (p, d) (fill_duration pings) -> d = 30)
  /\ (forall r, In r (inter_rows inter pings) ->
        (forall p, In p pings -> Pings.ping_id p <> Scored.ping_id r) ->
        Scored.duration_sec r = 30)
  /\ ((forall p v, In p pings -> Pings.duration_sec p = Some v -> 0 < v) ->
      (forall p d, In (p, d) (fill_duration pings) -> 0 < d)
      /\ (forall r, In r (inter_rows inter pings) -> 0 < Scored.duration_sec r)).
Proof.
  split; [apply fill_duration_fst|].
  split.
  { intros p d v Hin Hv. apply fill_duration_in in Hin. destruct Hin as [_ Hd].
    now rewrite Hv in Hd. }
  split.
  { intros Hnone p d Hin. apply fill_duration_in in Hin. destruct Hin as [Hp Hd].
    rewrite (Hnone p Hp) in Hd.
    assert (Em : median (map Pings.duration_sec pings) = None).
    { apply median_none. intros c Hc. apply in_map_iff in Hc.
      destruct Hc as (q & <- & Hq). now apply Hnone. }
    now rewrite Em in Hd. }
  split.
  { intros r Hr Hun.
    destruct (inter_rows_in_full inter pings r Hr) as (e & d & He & -> & Hd).
    destruct d as [[p v]|]; [exfalso|reflexivity].
    destruct Hd as [Hpd Hk]. cbn [fst] in Hk.
    apply fill_duration_in in Hpd. destruct Hpd as [Hp _].
    now apply (Hun p Hp). }
  intro Hpos. split.
  - now apply fill_duration_pos.
  - now apply inter_rows_duration_pos.
Qed.

Lemma durations_resolved_witness :
  (forall p v, In p demo_pings -> Pings.duration_sec p = Some v -> 0 < v)
  /\ map snd (fill_duration demo_pings) = [30; 45; 60; 45]
  /\ forall r, In r (inter_rows demo_inter demo_pings) -> 0 < Scored.duration_sec r.
Proof.
  assert (Hpos : forall p v, In p demo_pings -> Pings.duration_sec p = Some v -> 0 < v).
  { intros p v Hp Hv. simpl in Hp.
    destruct Hp as [<-|[<-|[<-|[<-|[]]]]]; simpl in Hv;
      try discriminate; injection Hv as <-; reflexivity. }
  split; [exact Hpos|]. split; [reflexivity|].
  apply (durations_resolved demo_inter demo_pings). exact Hpos.
Defined.

(** ** The join of events with the catalog *)

Section JoinFacts.
Context {A B : Type} (ka : A -> string) (kb : B -> string).

Lemma merge_left_length (left : list A) (right : list B) :
  length (merge_left ka kb left right)
  = list_sum
      (map (fun a =>
              Nat.max 1 (length (filter (fun b => String.eqb (kb b) (ka a)) right)))
           left).
Proof.
  induction left as [|a t IH]; [reflexivity|].
  change (merge_left ka kb (a :: t) right)
    with ((match filter (fun b => String.eqb (kb b) (ka a)) right with
           | [] => [(a, None)]
           | bs => map (fun b => (a, Some b)) bs
           end ++ merge_left ka kb t right)%list).
  rewrite length_app, IH. cbn [map list_sum]. f_equal.
  destruct (filter (fun b => String.eqb (kb b) (ka a)) right) as [|b0 bs];
    [reflexivity|].
  simpl. rewrite ?length_map. lia.
Qed.

Lemma filter_unique_key (right : list B) (k : string) :
  NoDup (map kb right) ->
  filter (fun b => String.eqb (kb b) k) right
  = match find (fun b => String.eqb (kb b) k) right with
    | Some b => [b]
    | None => []
    end.
Proof.
  induction right as [|b t IH]; [reflexivity|].
  cbn [map filter find]. intro Hnd. apply NoDup_cons_iff in Hnd.
  destruct Hnd as [Hb Hnd].
  destruct (String.eqb (kb b) k) eqn:E; [|now apply IH].
  f_equal. apply filter_none. intros x Hx.
  apply String.eqb_neq. intro Hk. apply Hb.
  apply String.eqb_eq in E. rewrite E, <- Hk. now apply in_map.
Qed.

Lemma merge_left_unique (left : list A) (right : list B) :
  NoDup (map kb right) ->
  merge_left ka kb left right
  = map (fun a => (a, find (fun b => String.eqb (kb b) (ka a)) right)) left.
Proof.
  intro Hnd. unfold merge_left.
  apply flat_map_singleton. intros a _.
  rewrite (filter_unique_key right (ka a) Hnd).
  now destruct (find (fun b => String.eqb (kb b) (ka a)) right).
Qed.

End JoinFacts.

(** X2.  The join of line 71 never drops an event: it produces, for each
    event, as many rows as the catalog has rows with the event's ping_id,
    and one row when it has none.  With distinct catalog ids it is exactly
    one row per event, in event order, each event being resolved against
    its own catalog row. *)
Theorem inter_rows_row_law (inter : list Inter.row) (pings : list Pings.row) :
  length (inter_rows inter pings)
  = list_sum
      (map (fun e =>
              Nat.max 1
                (length (filter (fun p => String.eqb (Pings.ping_id p) (Inter.ping_id e))
                                pings)))
           inter)
  /\ (length inter <= length (inter_rows inter pings))%nat
  /\ (NoDup (map Pings.ping_id pings) ->
      inter_rows inter pings
      = map (fun e =>
               resolve e
                 (find (fun pd => String.eqb (Pings.ping_id (fst pd)) (Inter.ping_id e))
                       (fill_duration pings)))
            inter).
Proof.
  assert (Hlen : length (inter_rows inter pings)
                 = list_sum
                     (map (fun e =>
                             Nat.max 1
                               (length (filter (fun p => String.eqb (Pings.ping_id p)
                                                           (Inter.ping_id e)) pings)))
                          inter)).
  { unfold inter_rows. rewrite length_map, merge_left_length.
    f_equal. apply map_ext. intro e. f_equal.
    rewrite <- (fill_duration_fst pings) at 2.
    now rewrite filter_map_length. }
  split; [exact Hlen|]. split.
  - rewrite Hlen. clear Hlen.
    unfold list_sum. induction inter as [|e t IH]; cbn [map fold_right length] in *; lia.
  - intro Hnd. unfold inter_rows.
    rewrite merge_left_unique.
    + rewrite map_map. reflexivity.
    + rewrite <- (map_map fst Pings.ping_id), fill_duration_fst. exact Hnd.
Qed.

Lemma demo_pings_nodup : NoDup (map Pings.ping_id demo_pings).
Proof.
  simpl. repeat constructor; simpl; intuition discriminate.
Qed.

Lemma inter_rows_row_law_witness :
  NoDup (map Pings.ping_id demo_pings)
  /\ map Scored.duration_sec (inter_rows demo_inter demo_pings) = [30; 45; 30; 45]
  /\ inter_rows demo_inter demo_pings
     = map (fun e =>
              resolve e
                (find (fun pd => String.eqb (Pings.ping_id (fst pd)) (Inter.ping_id e))
                      (fill_duration demo_pings)))
           demo_inter.
Proof.
  split; [exact demo_pings_nodup|]. split; [reflexivity|].
  apply (inter_rows_row_law demo_inter demo_pings). exact demo_pings_nodup.
Defined.

(** ** Group-by as a partition of the rows *)

Lemma qsum_app (l1 l2 : list Q) : qsum (l1 ++ l2) == qsum l1 + qsum l2.
Proof.
  induction l1 as [|x t IH]; simpl; [ring|]. rewrite IH. ring.
Qed.

Lemma qsum_perm (l1 l2 : list Q) : Permutation l1 l2 -> qsum l1 == qsum l2.
Proof.
  induction 1; simpl.
  - reflexivity.
  - now rewrite IHPermutation.
  - ring.
  - now rewrite IHPermutation1.
Qed.

Lemma qsum_nonneg (l : list Q) : (forall x, In x l -> 0 <= x) -> 0 <= qsum l.
Proof.
  induction l as [|x t IH]; simpl; intro H; [apply Qle_refl|].
  assert (0 <= x) by (apply H; now left).
  assert (0 <= qsum t) by (apply IH; intros y Hy; apply H; now right).
  lra.
Qed.

Section Partition.
Context {A K : Type} (eqb : K -> K -> bool)
        (eqb_eq : forall a b, eqb a b = true <-> a = b)
        (key : A -> K).

Lemma filter_disjoint_perm (p q : A -> bool) (l : list A) :
  (forall x, p x = true -> q x = true -> False) ->
  Permutation (filter p l ++ filter q l) (filter (fun x => p x || q x) l).
Proof.
  intro Hdis. induction l as [|x t IH]; simpl; [constructor|].
  destruct (p x) eqn:Ep, (q x) eqn:Eq; simpl.
  - elim (Hdis x Ep Eq).
  - now constructor.
  - etransitivity; [apply Permutation_sym, Permutation_middle|]. now constructor.
  - exact IH.
Qed.

(** The groups of distinct labels, put end to end, are the rows that carry
    one of the labels. *)
Lemma groups_partition (ks : list K) (l : list A) :
  NoDup ks ->
  Permutation (flat_map (fun k => filter (fun x => eqb (key x) k) l) ks)
              (filter (fun x => existsb (eqb (key x)) ks) l).
Proof.
  induction 1 as [|k ks' Hk Hnd IH]; simpl.
  - rewrite filter_none; [constructor|reflexivity].
  - etransitivity; [apply Permutation_app_head, IH|].
    apply filter_disjoint_perm. intros x Hx Hex.
    apply eqb_eq in Hx. apply existsb_exists in Hex.
    destruct Hex as (k' & Hk' & He). apply eqb_eq in He. congruence.
Qed.

Lemma group_qsum (f : A -> Q) (ks : list K) (l : list A) :
  NoDup ks ->
  qsum (map (fun k => qsum (map f (filter (fun x => eqb (key x) k) l))) ks)
  == qsum (map f (filter (fun x => existsb (eqb (key x)) ks) l)).
Proof.
  intro Hnd. rewrite <- (qsum_perm _ _ (Permutation_map f (groups_partition ks l Hnd))).
  clear Hnd. induction ks as [|k ks' IH]; simpl; [reflexivity|].
  now rewrite map_app, qsum_app, IH.
Qed.

Lemma group_length (ks : list K) (l : list A) :
  NoDup ks ->
  list_sum (map (fun k => length (filter (fun x => eqb (key x) k) l)) ks)
  = length (filter (fun x => existsb (eqb (key x)) ks) l).
Proof.
  intro Hnd. rewrite <- (Permutation_length (groups_partition ks l Hnd)).
  clear Hnd. induction ks as [|k ks' IH]; simpl; [reflexivity|].
  now rewrite length_app, IH.
Qed.

Lemma existsb_key_in (ks : list K) (x : K) :
  existsb (eqb x) ks = true <-> In x ks.
Proof.
  rewrite existsb_exists. split.
  - intros (k & Hk & He). apply eqb_eq in He. now subst.
  - intro H. exists x. split; [exact H|now apply eqb_eq].
Qed.

End Partition.

(** ** Per-(user, ping) aggregate *)

Lemma user_ping_keys (rows : list Scored.row) :
  map up_key (user_ping rows) = group_keys pair_compare (map row_key rows).
Proof.
  unfold user_ping. rewrite map_map.
  transitivity (map (fun k : string * string => k)
                    (group_keys pair_compare (map row_key rows)));
    [|apply map_id].
  apply map_ext. now intros [u p].
Qed.

Lemma filter_comm {A : Type} (p q : A -> bool) (l : list A) :
  filter p (filter q l) = filter q (filter p l).
Proof.
  induction l as [|x t IH]; [reflexivity|].
  cbn [filter]. destruct (p x) eqn:Ep, (q x) eqn:Eq; cbn [filter];
    rewrite ?Ep, ?Eq, IH; reflexivity.
Qed.

Lemma filter_length_all {A : Type} (f : A -> bool) (l : list A) :
  length (filter f l) = length l <-> forall x, In x l -> f x = true.
Proof.
  induction l as [|x t IH]; cbn [filter length];
    [split; [intros _ x []|reflexivity]|].
  pose proof (filter_length_le f t) as Hle.
  destruct (f x) eqn:E; cbn [length].
  - split.
    + intros H y [<-|Hy]; [exact E|]. apply IH; [lia|exact Hy].
    + intro H. f_equal. apply IH. intros y Hy. apply H. now right.
  - split; [lia|]. intro H. specialize (H x (or_introl Logic.eq_refl)). congruence.
Qed.

(** The [count] of the event types of a selection of rows. *)
Lemma count_event_types (f : Scored.row -> bool) (rows : list Scored.row) :
  count (map Scored.event_type (filter f rows))
  = length (filter has_type (filter f rows)).
Proof.
  unfold count. now rewrite filter_map_length.
Qed.

Lemma user_ping_row (rows : list Scored.row) (up : UserPing.row) :
  In up (user_ping rows) ->
  let g := filter (fun r => pair_eqb (row_key r) (up_key up)) rows in
  In (up_key up) (map row_key rows)
  /\ UserPing.engagement_score up = qsum (map event_score g)
  /\ UserPing.last_ts up = ts_max (map Scored.event_timestamp g)
  /\ UserPing.n_events up = length (filter has_type g).
Proof.
  unfold user_ping. rewrite in_map_iff. intros ([u p] & <- & Hk).
  apply -> (group_keys_in pair_compare) in Hk.
  cbn. repeat split; [exact Hk|]. apply count_event_types.
Qed.

Lemma all_keys_listed (rows : list Scored.row) :
  filter (fun r => existsb (pair_eqb (row_key r))
                     (group_keys pair_compare (map row_key rows))) rows
  = rows.
Proof.
  apply filter_all. intros r Hr.
  apply (existsb_key_in pair_eqb pair_eqb_eq).
  apply (group_keys_in pair_compare). now apply in_map.
Qed.

Lemma user_ping_totals (rows : list Scored.row) :
  list_sum (map UserPing.n_events (user_ping rows))
  = length (filter has_type rows)
  /\ qsum (map UserPing.engagement_score (user_ping rows))
     == qsum (map event_score rows).
Proof.
  unfold user_ping. rewrite !map_map. cbn [UserPing.n_events UserPing.engagement_score].
  split.
  - rewrite (map_ext _ (fun k => length (filter (fun r => pair_eqb (row_key r) k)
                                           (filter has_type rows)))).
    + rewrite (group_length pair_eqb pair_eqb_eq row_key)
        by apply (group_keys_nodup pair_compare).
      now rewrite filter_comm, all_keys_listed.
    + intro k. rewrite count_event_types. now rewrite filter_comm.
  - rewrite (group_qsum pair_eqb pair_eqb_eq row_key event_score)
      by apply (group_keys_nodup pair_compare).
    now rewrite all_keys_listed.
Qed.

Lemma inter_rows_event_type (inter : list Inter.row) (pings : list Pings.row)
    (r : Scored.row) :
  In r (inter_rows inter pings) ->
  exists e, In e inter /\ Scored.event_type r = Inter.event_type e.
Proof.
  unfold inter_rows. rewrite in_map_iff. intros ([e d] & <- & Hed).
  exists e. split; [|reflexivity].
  unfold merge_left in Hed. apply in_flat_map in Hed.
  destruct Hed as (a & Ha & Hin).
  destruct (filter _ (fill_duration pings)) as [|b bs].
  - destruct Hin as [[= <- _]|[]]. exact Ha.
  - apply in_map_iff in Hin. destruct Hin as (x & [= <- _] & _). exact Ha.
Qed.

(** X3.  The per-(user, ping) table has exactly one row for each pair that
    occurs in the events and none for any other pair; a row stands for at
    least one event, and its n_events is the number of the pair's events
    whose event_type cell is not blank: at most the number of the pair's
    events, equal to it exactly when none of them has a blank event_type,
    and 0 when all of them have; its last timestamp is missing exactly
    when all the pair's events lack one, and otherwise is the latest of
    them. *)
Theorem user_ping_one_row_per_pair (rows : list Scored.row) :
  NoDup (map up_key (user_ping rows))
  /\ (forall u p, In (u, p) (map up_key (user_ping rows))
                  <-> exists r, In r rows /\ Scored.user_id r = u
                                /\ Scored.ping_id r = p)
  /\ forall up, In up (user_ping rows) ->
       let g := filter (fun r => pair_eqb (row_key r) (up_key up)) rows in
       (1 <= length g)%nat
       /\ UserPing.n_events up = length (filter has_type g)
       /\ (UserPing.n_events up <= length g)%nat
       /\ (UserPing.n_events up = length g
           <-> forall r, In r g -> Scored.event_type r <> None)
       /\ (UserPing.n_events up = 0%nat
           <-> forall r, In r g -> Scored.event_type r = None)
       /\ (UserPing.last_ts up = None
           <-> forall r, In r g -> Scored.event_timestamp r = None)
       /\ (forall t, UserPing.last_ts up = Some t ->
             (exists r, In r g /\ Scored.event_timestamp r = Some t)
             /\ forall r t', In r g -> Scored.event_timestamp r = Some t' ->
                  (t' <= t)%Z).
Proof.
  rewrite user_ping_keys. split; [apply (group_keys_nodup pair_compare)|]. split.
  - intros u p. rewrite (group_keys_in pair_compare), in_map_iff. split.
    + intros (r & Hk & Hr). injection Hk as <- <-. now exists r.
    + intros (r & Hr & <- & <-). now exists r.
  - intros up Hup g.
    destruct (user_ping_row rows up Hup) as (Hk & _ & Hts & Hn). fold g in Hts, Hn.
    split; [|split; [exact Hn|split; [|split; [|split; [|split]]]]].
    + apply in_map_iff in Hk. destruct Hk as (r & Hk & Hr).
      assert (Hg : In r g).
      { apply filter_In. split; [exact Hr|]. now apply pair_eqb_eq. }
      destruct g; [contradiction|simpl; lia].
    + rewrite Hn. apply filter_length_le.
    + rewrite Hn, filter_length_all. unfold has_type.
      split; intros H r Hr; specialize (H r Hr);
        destruct (Scored.event_type r); congruence.
    + rewrite Hn, length_zero_iff_nil. split.
      * intros Hnil r Hr.
        destruct (Scored.event_type r) as [k|] eqn:E; [|reflexivity].
        assert (Hin : In r (filter has_type g)).
        { apply filter_In. split; [exact Hr|]. unfold has_type. now rewrite E. }
        rewrite Hnil in Hin. contradiction.
      * intro H. apply filter_none. intros r Hr. unfold has_type.
        now rewrite (H r Hr).
    + rewrite Hts. split.
      * intros Hnone r Hr. apply (ts_max_none_inv _ Hnone). now apply in_map.
      * intro Hall. apply ts_max_none. intros c Hc. apply in_map_iff in Hc.
        destruct Hc as (r & <- & Hr). now apply Hall.
    + intros t Ht. rewrite Hts in Ht. apply ts_max_some in Ht.
      destruct Ht as [Hin Hub]. split.
      * apply in_map_iff in Hin. destruct Hin as (r & Hr & Hrg). now exists r.
      * intros r t' Hr Ht'. apply Hub. rewrite <- Ht'. now apply in_map.
Qed.

(** X4.  Grouping by (user, ping) loses no score, and counts every event
    that has an event type: the n_events of the rows add up to the number
    of joined events whose event_type cell is not blank - at most the number
    of joined events, and exactly that number when no event has a blank
    event_type - and the engagement scores add up to the total of the event
    scores. *)
Theorem user_ping_conserves (inter : list Inter.row) (pings : list Pings.row) :
  list_sum (map UserPing.n_events (user_ping (inter_rows inter pings)))
  = length (filter has_type (inter_rows inter pings))
  /\ (list_sum (map UserPing.n_events (user_ping (inter_rows inter pings)))
      <= length (inter_rows inter pings))%nat
  /\ ((forall e, In e inter -> Inter.event_type e <> None) ->
      list_sum (map UserPing.n_events (user_ping (inter_rows inter pings)))
      = length (inter_rows inter pings))
  /\ qsum (map UserPing.engagement_score (user_ping (inter_rows inter pings)))
     == qsum (map event_score (inter_rows inter pings)).
Proof.
  destruct (user_ping_totals (inter_rows inter pings)) as [Hn Hq].
  split; [exact Hn|]. split; [|split; [|exact Hq]].
  - rewrite Hn. apply filter_length_le.
  - intro Hall. rewrite Hn. apply filter_length_all. intros r Hr.
    destruct (inter_rows_event_type inter pings r Hr) as (e & He & Hty).
    unfold has_type. rewrite Hty. specialize (Hall e He).
    now destruct (Inter.event_type e).
Qed.

(** On [blank_inter] the three joined events give the counts 1 and 0. *)
Lemma user_ping_blank_counts :
  map UserPing.n_events (user_ping (inter_rows blank_inter demo_pings)) = [1; 0]%nat
  /\ length (inter_rows blank_inter demo_pings) = 3%nat.
Proof.
  split; reflexivity.
Qed.

(** ** Global aggregate *)

Lemma unique_nodup (l : list string) : NoDup (unique l).
Proof.
  induction l as [|x t IH]; simpl; constructor.
  - rewrite filter_In, negb_true_iff, String.eqb_neq. intros [_ H]. now apply H.
  - now apply NoDup_filter.
Qed.

Lemma same_elements_length (l1 l2 : list string) :
  NoDup l1 -> NoDup l2 -> (forall x, In x l1 <-> In x l2) ->
  length l1 = length l2.
Proof.
  intros H1 H2 H. apply Permutation_length. now apply NoDup_Permutation.
Qed.

Lemma unique_length_le (l : list string) : (length (unique l) <= length l)%nat.
Proof.
  induction l as [|x t IH]; simpl; [lia|].
  pose proof (filter_length_le (fun y => negb (String.eqb y x)) (unique t)). lia.
Qed.

Lemma ping_rows_listed (rows : list Scored.row) (k : string) :
  filter (fun r =>
            existsb (pair_eqb (row_key r))
              (filter (fun kk => String.eqb (snd kk) k)
                      (group_keys pair_compare (map row_key rows))))
         rows
  = filter (fun r => String.eqb (Scored.ping_id r) k) rows.
Proof.
  apply filter_ext_in. intros r Hr. apply eq_true_iff_eq.
  rewrite (existsb_key_in pair_eqb pair_eqb_eq), filter_In.
  rewrite (group_keys_in pair_compare). cbn [row_key snd].
  split; [tauto|]. intro H. split; [now apply in_map|exact H].
Qed.

(** The rows of one ping in the per-(user, ping) table carry the total
    score of that ping's events. *)
Lemma ping_engagement (rows : list Scored.row) (k : string) :
  qsum (map UserPing.engagement_score
          (filter (fun up => String.eqb (UserPing.ping_id up) k) (user_ping rows)))
  == qsum (map event_score (filter (fun r => String.eqb (Scored.ping_id r) k) rows)).
Proof.
  unfold user_ping. rewrite filter_map_comm, map_map.
  cbn [UserPing.ping_id UserPing.engagement_score].
  rewrite (group_qsum pair_eqb pair_eqb_eq row_key event_score)
    by (apply NoDup_filter, (group_keys_nodup pair_compare)).
  now rewrite ping_rows_listed.
Qed.

Lemma ping_users (rows : list Scored.row) (k u : string) :
  In u (map UserPing.user_id
          (filter (fun up => String.eqb (UserPing.ping_id up) k) (user_ping rows)))
  <-> In u (map Scored.user_id
              (filter (fun r => String.eqb (Scored.ping_id r) k) rows)).
Proof.
  rewrite !in_map_iff. split.
  - intros (up & <- & Hup). apply filter_In in Hup. destruct Hup as [Hup Hk].
    apply String.eqb_eq in Hk.
    destruct (user_ping_in rows up Hup) as (r & Hr & Hu & Hp).
    exists r. split; [exact Hu|]. apply filter_In. split; [exact Hr|].
    apply String.eqb_eq. congruence.
  - intros (r & <- & Hr). apply filter_In in Hr. destruct Hr as [Hr Hk].
    assert (Hkey : In (row_key r) (map up_key (user_ping rows))).
    { rewrite user_ping_keys. apply (group_keys_in pair_compare). now apply in_map. }
    apply in_map_iff in Hkey. destruct Hkey as (up & Hk' & Hup).
    injection Hk' as Hu Hp.
    exists up. split; [exact Hu|]. apply filter_In. split; [exact Hup|].
    now rewrite Hp.
Qed.

Lemma ping_global_groups_keys (ups : list UserPing.row) :
  map PingGlobal.ping_id (ping_global_groups ups)
  = group_keys String.compare (map UserPing.ping_id ups).
Proof.
  unfold ping_global_groups. rewrite map_map. apply map_id.
Qed.

Lemma ping_global_groups_row (ups : list UserPing.row) (g : PingGlobal.row) :
  In g (ping_global_groups ups) ->
  let grp := filter (fun up => String.eqb (UserPing.ping_id up) (PingGlobal.ping_id g)) ups in
  PingGlobal.global_engagement g = qsum (map UserPing.engagement_score grp)
  /\ PingGlobal.users_interacted g = length (unique (map UserPing.user_id grp)).
Proof.
  unfold ping_global_groups. rewrite in_map_iff. intros (k & <- & _).
  cbn. split; reflexivity.
Qed.

Section GlobalFacts.
Context {S : SortKind}.

Lemma ping_global_perm (inter : list Inter.row) (pings : list Pings.row) :
  Permutation (ping_global_groups (user_ping (inter_rows inter pings)))
              (ping_global inter pings).
Proof.
  apply sort_desc_perm.
Qed.

Lemma ping_global_ids (inter : list Inter.row) (pings : list Pings.row) :
  NoDup (map PingGlobal.ping_id (ping_global inter pings))
  /\ forall pid, In pid (map PingGlobal.ping_id (ping_global inter pings))
                 <-> exists e, In e inter /\ Inter.ping_id e = pid.
Proof.
  pose proof (Permutation_map PingGlobal.ping_id (ping_global_perm inter pings)) as Hp.
  rewrite ping_global_groups_keys in Hp. split.
  - eapply Permutation_NoDup; [exact Hp|]. apply (group_keys_nodup String.compare).
  - intro pid. split.
    + intro H. apply in_map_iff in H. destruct H as (g & <- & Hg).
      now apply ping_global_in with pings.
    + intros (e & He & <-).
      eapply Permutation_in; [exact Hp|].
      apply (group_keys_in String.compare).
      destruct (inter_rows_total inter pings e He) as [d Hd].
      assert (Hk : In (row_key (resolve e d))
                      (map up_key (user_ping (inter_rows inter pings)))).
      { rewrite user_ping_keys. apply (group_keys_in pair_compare). now apply in_map. }
      apply in_map_iff in Hk. destruct Hk as (up & Hk & Hup).
      injection Hk as _ Hp'. apply in_map_iff. exists up. split; [exact Hp'|exact Hup].
Qed.

Lemma ping_global_row (inter : list Inter.row) (pings : list Pings.row)
    (g : PingGlobal.row) :
  In g (ping_global inter pings) ->
  let evs := filter (fun r => String.eqb (Scored.ping_id r) (PingGlobal.ping_id g))
                    (inter_rows inter pings) in
  PingGlobal.global_engagement g == qsum (map event_score evs)
  /\ PingGlobal.users_interacted g = length (unique (map Scored.user_id evs)).
Proof.
  intros Hg evs.
  eapply Permutation_in in Hg; [|apply Permutation_sym, ping_global_perm].
  destruct (ping_global_groups_row _ g Hg) as [Hge Hui]. split.
  - rewrite Hge. apply ping_engagement.
  - rewrite Hui. apply same_elements_length; try apply unique_nodup.
    intro u. rewrite !unique_in. apply ping_users.
Qed.

Lemma ping_global_total (inter : list Inter.row) (pings : list Pings.row) :
  qsum (map PingGlobal.global_engagement (ping_global inter pings))
  == qsum (map event_score (inter_rows inter pings)).
Proof.
  rewrite <- (qsum_perm _ _ (Permutation_map PingGlobal.global_engagement
                               (ping_global_perm inter pings))).
  unfold ping_global_groups. rewrite map_map. cbn [PingGlobal.global_engagement].
  rewrite (group_qsum String.eqb String.eqb_eq UserPing.ping_id
             UserPing.engagement_score)
    by apply (group_keys_nodup String.compare).
  rewrite filter_all.
  - apply user_ping_totals.
  - intros up Hup. apply (existsb_key_in String.eqb String.eqb_eq).
    apply (group_keys_in String.compare). now apply in_map.
Qed.

End GlobalFacts.

(** X5.  Whatever the sort does, the global table has exactly one row for
    each ping_id that occurs in the events - in the catalog or not - and no
    other row; its length is the number of distinct ping_ids. *)
Theorem ping_global_one_row_per_ping {S : SortKind} (inter : list Inter.row)
    (pings : list Pings.row) :
  NoDup (map PingGlobal.ping_id (ping_global inter pings))
  /\ (forall pid, In pid (map PingGlobal.ping_id (ping_global inter pings))
                  <-> exists e, In e inter /\ Inter.ping_id e = pid)
  /\ length (ping_global inter pings) = length (unique (map Inter.ping_id inter)).
Proof.
  destruct (ping_global_ids inter pings) as [Hnd Hin].
  split; [exact Hnd|]. split; [exact Hin|].
  rewrite <- (length_map PingGlobal.ping_id).
  apply same_elements_length; [exact Hnd|apply unique_nodup|].
  intro pid. rewrite Hin, unique_in, in_map_iff.
  split; intros (e & H1 & H2); exists e; tauto.
Qed.

(** X6.  A ping's global_engagement is the total score of the joined events
    on that ping, over all users, and the global_engagement column adds up
    to the total of all event scores. *)
Theorem global_engagement_is_event_total {S : SortKind} (inter : list Inter.row)
    (pings : list Pings.row) :
  (forall g, In g (ping_global inter pings) ->
     PingGlobal.global_engagement g
     == qsum (map event_score
                (filter (fun r => String.eqb (Scored.ping_id r) (PingGlobal.ping_id g))
                        (inter_rows inter pings))))
  /\ qsum (map PingGlobal.global_engagement (ping_global inter pings))
     == qsum (map event_score (inter_rows inter pings)).
Proof.
  split; [|apply ping_global_total].
  intros g Hg. now apply ping_global_row.
Qed.

(** X7.  users_interacted is the number of distinct users with an event on
    the ping; it is at least 1 and at most the number of joined events on
    the ping. *)
Theorem users_interacted_counts_users {S : SortKind} (inter : list Inter.row)
    (pings : list Pings.row) (g : PingGlobal.row)
    (Hg : In g (ping_global inter pings)) :
  let evs := filter (fun r => String.eqb (Scored.ping_id r) (PingGlobal.ping_id g))
                    (inter_rows inter pings) in
  PingGlobal.users_interacted g = length (unique (map Scored.user_id evs))
  /\ (1 <= PingGlobal.users_interacted g)%nat
  /\ (PingGlobal.users_interacted g <= length evs)%nat.
Proof.
  intro evs. destruct (ping_global_row inter pings g Hg) as [_ Hui]. fold evs in Hui.
  split; [exact Hui|]. rewrite Hui. split.
  - assert (Hid : In (PingGlobal.ping_id g)
                     (map PingGlobal.ping_id (ping_global inter pings)))
      by now apply in_map.
    apply (proj2 (ping_global_ids inter pings)) in Hid.
    destruct Hid as (e & He & Hp).
    destruct (inter_rows_total inter pings e He) as [d Hd].
    assert (Hu : In (Inter.user_id e) (unique (map Scored.user_id evs))).
    { apply unique_in, in_map_iff. exists (resolve e d). split; [reflexivity|].
      apply filter_In. split; [exact Hd|]. apply String.eqb_eq. exact Hp. }
    destruct (unique (map Scored.user_id evs)); [contradiction|simpl; lia].
  - rewrite <- (length_map Scored.user_id evs). apply unique_length_le.
Qed.

Definition demo_global : list PingGlobal.row :=
  ping_global (S:=stable_kind) demo_inter demo_pings.

Lemma users_interacted_counts_users_witness :
  In (nth 1 demo_global (PingGlobal.mk "" 0 0)) demo_global
  /\ PingGlobal.ping_id (nth 1 demo_global (PingGlobal.mk "" 0 0)) = "p1"
  /\ PingGlobal.users_interacted (nth 1 demo_global (PingGlobal.mk "" 0 0)) = 2%nat
  /\ (1 <= PingGlobal.users_interacted (nth 1 demo_global (PingGlobal.mk "" 0 0)))%nat.
Proof.
  assert (Hin : In (nth 1 demo_global (PingGlobal.mk "" 0 0)) demo_global)
    by (apply nth_In; vm_compute; lia).
  split; [exact Hin|]. split; [reflexivity|]. split; [reflexivity|].
  apply (users_interacted_counts_users (S:=stable_kind) demo_inter demo_pings _ Hin).
Defined.

(** ** Signs and totals of the engagement columns *)

Lemma resolve_score_nonneg (e : Inter.row) (d : option (Pings.row * Q)) :
  0 <= fillna 0 (Inter.watch_time_sec e) ->
  0 < Scored.duration_sec (resolve e d) ->
  0 <= event_score (resolve e d).
Proof.
  intros Hw Hd.
  destruct (cell_eqb (Inter.event_type e) "view") eqn:Hv.
  - apply cell_eqb_eq in Hv. rewrite (event_score_view e d Hv).
    apply Qmult_le_0_compat; [apply Qle_bool_iff; reflexivity|].
    apply Qle_shift_div_l; [exact Hd|]. now rewrite Qmult_0_l.
  - apply cell_eqb_neq in Hv.
    rewrite (event_score_other e d Hv). apply weight_of_nonneg.
Qed.

Section SignFacts.
Context {S : SortKind}.

Lemma lookup_engagement_some (inter : list Inter.row) (pings : list Pings.row)
    (pid : string) (v : Q) :
  lookup_engagement (ping_global inter pings) pid = Some v ->
  exists g, In g (ping_global inter pings)
            /\ PingGlobal.ping_id g = pid
            /\ PingGlobal.global_engagement g = v.
Proof.
  unfold lookup_engagement.
  destruct (find _ (ping_global inter pings)) as [g|] eqn:E; [|discriminate].
  intro H. injection H as <-. apply find_some in E. destruct E as [Hg Hk].
  apply String.eqb_eq in Hk. now exists g.
Qed.

Lemma lookup_engagement_none_inv (inter : list Inter.row) (pings : list Pings.row)
    (pid : string) :
  lookup_engagement (ping_global inter pings) pid = None ->
  forall e, In e inter -> Inter.ping_id e <> pid.
Proof.
  unfold lookup_engagement.
  destruct (find _ (ping_global inter pings)) as [g|] eqn:E; [discriminate|].
  intros _ e He Hp.
  assert (Hid : In pid (map PingGlobal.ping_id (ping_global inter pings)))
    by (apply (proj2 (ping_global_ids inter pings)); now exists e).
  apply in_map_iff in Hid. destruct Hid as (g & Hg & Hin).
  pose proof (find_none _ _ E g Hin) as Hf. cbn in Hf.
  rewrite Hg, String.eqb_refl in Hf. discriminate.
Qed.

End SignFacts.

(** X8.  With positive known durations and non-negative watch times, no
    score is negative anywhere: not an event's, not a (user, ping)
    engagement_score, not a global_engagement, not an item's global_pop. *)
Theorem engagement_nonneg {S : SortKind} (inter : list Inter.row)
    (pings : list Pings.row)
    (Hdur : forall p v, In p pings -> Pings.duration_sec p = Some v -> 0 < v)
    (Hwatch : forall e, In e inter -> 0 <= fillna 0 (Inter.watch_time_sec e)) :
  (forall r, In r (inter_rows inter pings) -> 0 <= event_score r)
  /\ (forall up, In up (user_ping (inter_rows inter pings)) ->
        0 <= UserPing.engagement_score up)
  /\ (forall g, In g (ping_global inter pings) ->
        0 <= PingGlobal.global_engagement g)
  /\ (forall i, In i (items inter pings) -> 0 <= Items.global_pop i).
Proof.
  assert (Hev : forall r, In r (inter_rows inter pings) -> 0 <= event_score r).
  { intros r Hr.
    pose proof (inter_rows_duration_pos inter pings Hdur r Hr) as Hd.
    destruct (inter_rows_in inter pings r Hr) as (e & d & He & ->).
    apply resolve_score_nonneg; [now apply Hwatch|exact Hd]. }
  assert (Hsum : forall f : Scored.row -> bool,
             0 <= qsum (map event_score (filter f (inter_rows inter pings)))).
  { intro f. apply qsum_nonneg. intros x Hx. apply in_map_iff in Hx.
    destruct Hx as (r & <- & Hr). apply filter_In in Hr. now apply Hev. }
  assert (Hg : forall g, In g (ping_global inter pings) ->
                 0 <= PingGlobal.global_engagement g).
  { intros g Hin. destruct (ping_global_row inter pings g Hin) as [-> _].
    apply Hsum. }
  split; [exact Hev|]. split; [|split; [exact Hg|]].
  - intros up Hup. destruct (user_ping_row _ up Hup) as (_ & -> & _). apply Hsum.
  - intros i Hi.
    destruct (items_in inter pings i Hi) as (p & _ & _ & _ & _ & _ & -> & _).
    destruct (lookup_engagement _ _) as [v|] eqn:E; cbn [fillna];
      [|apply Qle_refl].
    destruct (lookup_engagement_some inter pings _ v E) as (g & Hin & _ & <-).
    now apply Hg.
Qed.

Lemma engagement_nonneg_witness :
  (forall p v, In p demo_pings -> Pings.duration_sec p = Some v -> 0 < v)
  /\ (forall e, In e demo_inter -> 0 <= fillna 0 (Inter.watch_time_sec e))
  /\ forall g, In g (ping_global (S:=stable_kind) demo_inter demo_pings) ->
       0 <= PingGlobal.global_engagement g.
Proof.
  assert (Hpos : forall p v, In p demo_pings -> Pings.duration_sec p = Some v -> 0 < v).
  { intros p v Hp Hv. simpl in Hp.
    destruct Hp as [<-|[<-|[<-|[<-|[]]]]]; simpl in Hv;
      try discriminate; injection Hv as <-; reflexivity. }
  assert (Hw : forall e, In e demo_inter -> 0 <= fillna 0 (Inter.watch_time_sec e)).
  { intros e He. simpl in He.
    destruct He as [<-|[<-|[<-|[<-|[]]]]]; apply Qle_bool_iff; reflexivity. }
  split; [exact Hpos|]. split; [exact Hw|].
  apply (engagement_nonneg (S:=stable_kind) demo_inter demo_pings Hpos Hw).
Defined.

(** X9.  An item's global_pop is the total score of the joined events on
    its ping_id - 0.0 when there is none - whatever order the global table
    was sorted into. *)
Theorem global_pop_is_event_total {S : SortKind} (inter : list Inter.row)
    (pings : list Pings.row) (i : Items.row)
    (Hi : In i (items inter pings)) :
  Items.global_pop i
  == qsum (map event_score
             (filter (fun r => String.eqb (Scored.ping_id r) (Items.ping_id i))
                     (inter_rows inter pings))).
Proof.
  destruct (items_in inter pings i Hi) as (p & _ & Hid & _ & _ & _ & -> & _).
  rewrite Hid.
  destruct (lookup_engagement _ _) as [v|] eqn:E; cbn [fillna].
  - destruct (lookup_engagement_some inter pings _ v E) as (g & Hin & Hg & <-).
    rewrite <- Hg. now apply ping_global_row.
  - rewrite filter_none; [reflexivity|].
    intros r Hr. apply String.eqb_neq. intro Hp.
    destruct (inter_rows_in inter pings r Hr) as (e & d & He & ->).
    now apply (lookup_engagement_none_inv inter pings _ E e He).
Qed.

Lemma global_pop_is_event_total_witness :
  In (demo_item 0) demo_items
  /\ Items.global_pop (demo_item 0) == (15 # 30) + 1.
Proof.
  assert (H0 : In (demo_item 0) demo_items) by (apply demo_item_in; lia).
  split; [exact H0|].
  rewrite (global_pop_is_event_total (S:=stable_kind) demo_inter demo_pings
             (demo_item 0) H0).
  reflexivity.
Defined.

(** ** The feature tables do not depend on the sort *)

Lemma NoDup_map_inj {A : Type} (key : A -> string) (l : list A) (x y : A) :
  NoDup (map key l) -> In x l -> In y l -> key x = key y -> x = y.
Proof.
  induction l as [|a t IH]; simpl; [contradiction|].
  intro Hnd. apply NoDup_cons_iff in Hnd. destruct Hnd as [Ha Hnd].
  intros [->|Hx] [->|Hy] Hk; auto.
  - elim Ha. rewrite Hk. now apply in_map.
  - elim Ha. rewrite <- Hk. now apply in_map.
Qed.

Lemma find_perm_unique {A : Type} (key : A -> string) (l l' : list A) (k : string) :
  Permutation l l' -> NoDup (map key l) ->
  find (fun g => String.eqb (key g) k) l = find (fun g => String.eqb (key g) k) l'.
Proof.
  intros Hp Hnd.
  destruct (find _ l) as [x|] eqn:Ex, (find _ l') as [y|] eqn:Ey.
  - apply find_some in Ex, Ey. destruct Ex as [Hx Hkx], Ey as [Hy Hky].
    apply String.eqb_eq in Hkx, Hky. f_equal.
    apply (NoDup_map_inj key l); auto; [|congruence].
    eapply Permutation_in; [apply Permutation_sym, Hp|exact Hy].
  - apply find_some in Ex. destruct Ex as [Hx Hkx].
    pose proof (find_none _ _ Ey x (Permutation_in _ Hp Hx)) as Hf.
    cbn in Hf. congruence.
  - apply find_some in Ey. destruct Ey as [Hy Hky].
    pose proof (find_none _ _ Ex y
                  (Permutation_in _ (Permutation_sym Hp) Hy)) as Hf.
    cbn in Hf. congruence.
  - reflexivity.
Qed.

Lemma lookup_engagement_kind (S1 S2 : SortKind) (inter : list Inter.row)
    (pings : list Pings.row) (pid : string) :
  lookup_engagement (ping_global (S:=S1) inter pings) pid
  = lookup_engagement (ping_global (S:=S2) inter pings) pid.
Proof.
  unfold lookup_engagement. f_equal.
  apply (find_perm_unique PingGlobal.ping_id).
  - etransitivity; [apply Permutation_sym, (ping_global_perm (S:=S1))|].
    apply (ping_global_perm (S:=S2)).
  - apply (ping_global_ids (S:=S1)).
Qed.

Lemma items_kind (S1 S2 : SortKind) (inter : list Inter.row) (pings : list Pings.row) :
  items (S:=S1) inter pings = items (S:=S2) inter pings.
Proof.
  unfold items.
  assert (Hcol : map (fun p => fillna 0 (lookup_engagement
                                           (ping_global (S:=S1) inter pings)
                                           (Pings.ping_id p))) pings
                 = map (fun p => fillna 0 (lookup_engagement
                                             (ping_global (S:=S2) inter pings)
                                             (Pings.ping_id p))) pings).
  { apply map_ext. intro p. now rewrite (lookup_engagement_kind S1 S2). }
  rewrite Hcol. apply map_ext. intro p.
  now rewrite (lookup_engagement_kind S1 S2).
Qed.

(** X10.  Two runs that differ only in how the sort orders ties produce the
    same item features, the same affinity tables and the same scored
    candidates for every user; their global tables are reorderings of one
    another. *)
Theorem features_independent_of_sort (S1 S2 : SortKind) (inter : list Inter.row)
    (pings : list Pings.row) :
  Permutation (ping_global (S:=S1) inter pings) (ping_global (S:=S2) inter pings)
  /\ items (S:=S1) inter pings = items (S:=S2) inter pings
  /\ user_cat (S:=S1) inter pings = user_cat (S:=S2) inter pings
  /\ user_creator (S:=S1) inter pings = user_creator (S:=S2) inter pings
  /\ forall uid alpha beta gamma delta,
       candidates (S:=S1) inter pings uid alpha beta gamma delta
       = candidates (S:=S2) inter pings uid alpha beta gamma delta.
Proof.
  pose proof (items_kind S1 S2 inter pings) as Hi.
  assert (Hm : int_meta (S:=S1) inter pings = int_meta (S:=S2) inter pings)
    by (unfold int_meta; now rewrite Hi).
  assert (Hc : user_cat (S:=S1) inter pings = user_cat (S:=S2) inter pings)
    by (unfold user_cat; now rewrite Hm).
  assert (Hr : user_creator (S:=S1) inter pings = user_creator (S:=S2) inter pings)
    by (unfold user_creator; now rewrite Hm).
  split.
  { etransitivity; [apply Permutation_sym, (ping_global_perm (S:=S1))|].
    apply (ping_global_perm (S:=S2)). }
  split; [exact Hi|]. split; [exact Hc|]. split; [exact Hr|].
  intros uid alpha beta gamma delta. unfold candidates.
  now rewrite Hi, Hc, Hr.
Qed.

(** ** Min-max normalisation reaches both ends *)

(** X11.  When the catalog's engagement values are not all equal, some item
    has global_pop_norm 0 and some item has global_pop_norm 1. *)
Theorem norm_reaches_bounds {S : SortKind} (inter : list Inter.row)
    (pings : list Pings.row) (i j : Items.row)
    (Hi : In i (items inter pings)) (Hj : In j (items inter pings))
    (Hdiff : Items.global_pop i < Items.global_pop j) :
  exists lo hi,
    In lo (items inter pings) /\ In hi (items inter pings)
    /\ Items.global_pop_norm lo == 0 /\ Items.global_pop_norm hi == 1.
Proof.
  set (col := map Items.global_pop (items inter pings)).
  assert (Hgi : In (Items.global_pop i) col) by (unfold col; now apply in_map).
  assert (Hgj : In (Items.global_pop j) col) by (unfold col; now apply in_map).
  destruct (qmax_list col) as [mx|] eqn:Emx;
    [|destruct col; [contradiction|discriminate]].
  destruct (qmin_list col) as [mn|] eqn:Emn;
    [|destruct col; [contradiction|discriminate]].
  destruct (qmax_list_spec col mx Emx) as [Hmx_in Hmx].
  destruct (qmin_list_spec col mn Emn) as [Hmn_in Hmn].
  assert (Hlt : mn < mx).
  { pose proof (Hmn _ Hgi). pose proof (Hmx _ Hgj). lra. }
  assert (Hgt : Qgt_bool mx mn = true) by now apply Qgt_bool_iff.
  apply in_map_iff in Hmx_in. destruct Hmx_in as (ihi & Hhi & Hhi_in).
  apply in_map_iff in Hmn_in. destruct Hmn_in as (ilo & Hlo & Hlo_in).
  exists ilo, ihi. split; [exact Hlo_in|]. split; [exact Hhi_in|].
  rewrite (items_norm inter pings ilo Hlo_in), (items_norm inter pings ihi Hhi_in).
  fold col. rewrite Emx, Emn, Hgt, Hlo, Hhi.
  split; field; lra.
Qed.

Lemma norm_reaches_bounds_witness :
  In (demo_item 2) demo_items /\ In (demo_item 1) demo_items
  /\ Items.global_pop (demo_item 2) < Items.global_pop (demo_item 1)
  /\ exists lo hi,
       In lo demo_items /\ In hi demo_items
       /\ Items.global_pop_norm lo == 0 /\ Items.global_pop_norm hi == 1.
Proof.
  assert (H2 : In (demo_item 2) demo_items) by (apply demo_item_in; lia).
  assert (H1 : In (demo_item 1) demo_items) by (apply demo_item_in; lia).
  assert (Hlt : Items.global_pop (demo_item 2) < Items.global_pop (demo_item 1))
    by reflexivity.
  split; [exact H2|]. split; [exact H1|]. split; [exact Hlt|].
  exact (norm_reaches_bounds (S:=stable_kind) demo_inter demo_pings
           (demo_item 2) (demo_item 1) H2 H1 Hlt).
Defined.

(** ** What an affinity measures *)

Lemma dict_find_map {A : Type} (kf : A -> string) (vf : A -> Q) (l : list A)
    (c : string) :
  dict_find (map (fun x => (kf x, vf x)) l) c
  = option_map vf (find (fun x => String.eqb (kf x) c) l).
Proof.
  induction l as [|x t IH]; [reflexivity|].
  cbn [map dict_find find]. now destruct (String.eqb (kf x) c).
Qed.

Lemma filter_length_impl {A : Type} (f g : A -> bool) (l : list A) :
  (forall x, f x = true -> g x = true) ->
  (length (filter f l) <= length (filter g l))%nat.
Proof.
  intro H. induction l as [|x t IH]; simpl; [lia|].
  destruct (f x) eqn:Ef.
  - rewrite (H x Ef). simpl. lia.
  - destruct (g x); simpl; lia.
Qed.

Section AffinityLookup.
Context (col : Items.row -> option string)
        (im : list (Scored.row * option Items.row)).

Lemma cnt_as_rows (u c : string) :
  length (filter (pair_eqb (u, c)) (group_col col im))
  = length (rows_in_col col im u c).
Proof.
  unfold rows_in_col, user_rows, group_col.
  set (cell := fun ei : Scored.row * option Items.row =>
                 match snd ei with
                 | Some i => match col i with
                             | Some c' => [(Scored.user_id (fst ei), c')]
                             | None => []
                             end
                 | None => []
                 end).
  set (f := fun ei : Scored.row * option Items.row =>
              match snd ei with
              | Some i => match col i with
                          | Some c' => String.eqb c' c
                          | None => false
                          end
              | None => false
              end).
  set (g := fun ei : Scored.row * option Items.row =>
              String.eqb (Scored.user_id (fst ei)) u).
  induction im as [|[r oi] t IH]; [reflexivity|].
  change (flat_map cell ((r, oi) :: t)) with (cell (r, oi) ++ flat_map cell t)%list.
  rewrite filter_app, length_app, IH. clear IH.
  change (filter g ((r, oi) :: t))
    with (if g (r, oi) then (r, oi) :: filter g t else filter g t).
  assert (Hg : g (r, oi) = String.eqb (Scored.user_id r) u) by reflexivity.
  assert (Hcell : filter (pair_eqb (u, c)) (cell (r, oi))
                  = if String.eqb (Scored.user_id r) u && f (r, oi)
                    then cell (r, oi) else []).
  { unfold cell, f. cbn [fst snd].
    destruct oi as [i|]; [destruct (col i) as [c'|]|];
      try (now destruct (String.eqb (Scored.user_id r) u)).
    cbn [filter]. unfold pair_eqb. cbn [fst snd].
    now rewrite (String.eqb_sym u), (String.eqb_sym c). }
  rewrite Hcell, Hg. clear Hcell Hg.
  destruct (String.eqb (Scored.user_id r) u); cbn [andb]; [|reflexivity].
  change (filter f ((r, oi) :: filter g t))
    with (if f (r, oi) then (r, oi) :: filter f (filter g t)
          else filter f (filter g t)).
  destruct (f (r, oi)) eqn:Ef; [|reflexivity].
  unfold cell, f in *. cbn [fst snd] in *.
  destruct oi as [i|]; [|discriminate].
  destruct (col i); [reflexivity|discriminate].
Qed.

Lemma rows_in_col_le (u c : string) :
  (length (rows_in_col col im u c) <= length (user_rows im u))%nat.
Proof.
  unfold rows_in_col. apply filter_length_le.
Qed.

(** Reading a user's dictionary at [c] gives the share of the user's rows
    with that value, and nothing when there is no such row. *)
Lemma affinity_lookup (uid c : string) :
  dict_find (affinity_dict (affinity_table col im) uid) c
  = if Nat.eqb (length (rows_in_col col im uid c)) 0 then None
    else Some (Qnat (length (rows_in_col col im uid c))
               / Qnat (length (user_rows im uid))).
Proof.
  unfold affinity_dict. rewrite affinity_table_rows, filter_map_comm, map_map.
  cbn [Affinity.user_id Affinity.key Affinity.affinity].
  rewrite (dict_find_map snd). rewrite <- cnt_as_rows.
  set (ks := group_keys pair_compare (group_col col im)).
  destruct (find _ (filter _ ks)) as [k|] eqn:E.
  - apply find_some in E. destruct E as [Hk Hc]. apply String.eqb_eq in Hc.
    apply filter_In in Hk. destruct Hk as [Hk Hu]. apply String.eqb_eq in Hu.
    assert (Hkeq : k = (uid, c)) by (destruct k; cbn in *; congruence).
    subst k. cbn [option_map fst].
    rewrite tot_user_rows.
    apply -> (group_keys_in pair_compare) in Hk.
    assert (Hin : In (uid, c) (filter (pair_eqb (uid, c)) (group_col col im))).
    { apply filter_In. split; [exact Hk|]. now apply pair_eqb_eq. }
    destruct (filter (pair_eqb (uid, c)) (group_col col im)); [contradiction|].
    reflexivity.
  - cbn [option_map].
    rewrite filter_none; [reflexivity|].
    intros k Hk. destruct (pair_eqb (uid, c) k) eqn:Ek; [exfalso|reflexivity].
    apply pair_eqb_eq in Ek. subst k.
    assert (Hks : In (uid, c) (filter (fun k => String.eqb (fst k) uid) ks)).
    { apply filter_In. split; [now apply (group_keys_in pair_compare)|].
      apply String.eqb_refl. }
    pose proof (find_none _ _ E _ Hks) as Hf. cbn in Hf.
    rewrite String.eqb_refl in Hf. discriminate.
Qed.

Lemma col_share_range (uid c : string) :
  0 <= col_share col im uid c /\ col_share col im uid c <= 1.
Proof.
  unfold col_share. pose proof (rows_in_col_le uid c) as Hle.
  destruct (Nat.eqb (length (rows_in_col col im uid c)) 0) eqn:E.
  - split; apply Qle_bool_iff; reflexivity.
  - apply Nat.eqb_neq in E.
    assert (Hpos : 0 < Qnat (length (user_rows im uid))).
    { unfold Qnat. change 0 with (inject_Z 0). rewrite <- Zlt_Qlt. lia. }
    split.
    + apply Qle_shift_div_l; [exact Hpos|]. rewrite Qmult_0_l.
      unfold Qnat. change 0 with (inject_Z 0). rewrite <- Zle_Qle. lia.
    + apply Qle_shift_div_r; [exact Hpos|]. rewrite Qmult_1_l.
      unfold Qnat. rewrite <- Zle_Qle. lia.
Qed.

Lemma col_share_pos (uid c : string) :
  0 < col_share col im uid c <-> rows_in_col col im uid c <> [].
Proof.
  unfold col_share. pose proof (rows_in_col_le uid c) as Hle.
  destruct (rows_in_col col im uid c) as [|x t] eqn:E; cbn [length Nat.eqb].
  - split; [intro H; now apply Qlt_irrefl in H|congruence].
  - split; [discriminate|]. intros _.
    cbn [length] in Hle.
    apply Qlt_shift_div_l.
    + unfold Qnat. change 0 with (inject_Z 0). rewrite <- Zlt_Qlt. lia.
    + rewrite Qmult_0_l. unfold Qnat. change 0 with (inject_Z 0).
      rewrite <- Zlt_Qlt. lia.
Qed.

End AffinityLookup.

Section CandidateAffinity.
Context {S : SortKind}.

Lemma candidate_affinities (inter : list Inter.row) (pings : list Pings.row)
    (uid : string) (alpha beta gamma delta : Q) (r : Cand.row) :
  In r (candidates inter pings uid alpha beta gamma delta) ->
  Cand.user_cat_aff r
  = match Items.category (Cand.item r) with
    | Some c => col_share Items.category (int_meta inter pings) uid c
    | None => 0
    end
  /\ Cand.user_cre_aff r
     = match Items.creator_id (Cand.item r) with
       | Some c => col_share Items.creator_id (int_meta inter pings) uid c
       | None => 0
       end.
Proof.
  intro Hr. destruct (candidates_row _ _ _ _ _ _ _ _ Hr) as (Hca & Hcr & _).
  rewrite Hca, Hcr. unfold user_cat, user_creator, map_dict, col_share.
  split.
  - destruct (Items.category (Cand.item r)) as [c|]; [|reflexivity].
    rewrite affinity_lookup.
    now destruct (Nat.eqb (length (rows_in_col Items.category _ uid c)) 0).
  - destruct (Items.creator_id (Cand.item r)) as [c|]; [|reflexivity].
    rewrite affinity_lookup.
    now destruct (Nat.eqb (length (rows_in_col Items.creator_id _ uid c)) 0).
Qed.

End CandidateAffinity.

(** X12.  The category affinity that enters an item's score is the share of
    the user's joined events that fall in the item's category - 0 when the
    user has none there or the item has no category - so it lies in [0,1]
    and is positive exactly when the user has an event in that category;
    likewise for the creator affinity. *)
Theorem candidate_affinity_is_share {S : SortKind} (inter : list Inter.row)
    (pings : list Pings.row) (uid : string) (alpha beta gamma delta : Q)
    (r : Cand.row)
    (Hr : In r (candidates inter pings uid alpha beta gamma delta)) :
  let im := int_meta inter pings in
  Cand.user_cat_aff r
  = match Items.category (Cand.item r) with
    | Some c => col_share Items.category im uid c
    | None => 0
    end
  /\ Cand.user_cre_aff r
     = match Items.creator_id (Cand.item r) with
       | Some c => col_share Items.creator_id im uid c
       | None => 0
       end
  /\ (0 <= Cand.user_cat_aff r /\ Cand.user_cat_aff r <= 1)
  /\ (0 <= Cand.user_cre_aff r /\ Cand.user_cre_aff r <= 1)
  /\ (0 < Cand.user_cat_aff r
      <-> exists c, Items.category (Cand.item r) = Some c
                    /\ rows_in_col Items.category im uid c <> [])
  /\ (0 < Cand.user_cre_aff r
      <-> exists c, Items.creator_id (Cand.item r) = Some c
                    /\ rows_in_col Items.creator_id im uid c <> []).
Proof.
  intro im. destruct (candidate_affinities _ _ _ _ _ _ _ _ Hr) as [Hca Hcr].
  fold im in Hca, Hcr.
  split; [exact Hca|]. split; [exact Hcr|].
  rewrite Hca, Hcr.
  split; [|split; [|split]].
  - destruct (Items.category (Cand.item r));
      [apply col_share_range|split; apply Qle_bool_iff; reflexivity].
  - destruct (Items.creator_id (Cand.item r));
      [apply col_share_range|split; apply Qle_bool_iff; reflexivity].
  - destruct (Items.category (Cand.item r)) as [c|].
    + rewrite col_share_pos. split; [intro H; now exists c|].
      intros (c' & Hc & H). now injection Hc as ->.
    + split; [intro H; now apply Qlt_irrefl in H|]. intros (c' & Hc & _). discriminate.
  - destruct (Items.creator_id (Cand.item r)) as [c|].
    + rewrite col_share_pos. split; [intro H; now exists c|].
      intros (c' & Hc & H). now injection Hc as ->.
    + split; [intro H; now apply Qlt_irrefl in H|]. intros (c' & Hc & _). discriminate.
Qed.

Lemma candidate_affinity_is_share_witness :
  let r := nth 0 (candidates (S:=stable_kind) demo_inter demo_pings "u1"
                    (1 # 2) (1 # 4) (15 # 100) (1 # 10))
                 (Cand.mk (demo_item 0) 0 0 0) in
  In r (candidates (S:=stable_kind) demo_inter demo_pings "u1"
          (1 # 2) (1 # 4) (15 # 100) (1 # 10))
  /\ Items.ping_id (Cand.item r) = "p3"
  /\ Cand.user_cat_aff r == 1 # 2
  /\ Cand.user_cat_aff r <= 1.
Proof.
  intro r.
  assert (Hr : In r (candidates (S:=stable_kind) demo_inter demo_pings "u1"
                       (1 # 2) (1 # 4) (15 # 100) (1 # 10)))
    by (apply nth_In; vm_compute; lia).
  split; [exact Hr|]. split; [reflexivity|]. split; [reflexivity|].
  apply (candidate_affinity_is_share (S:=stable_kind) demo_inter demo_pings "u1"
           (1 # 2) (1 # 4) (15 # 100) (1 # 10) r Hr).
Defined.

(** ** The returned ranking *)

Lemma weighted_feature (w x : Q) :
  0 <= w -> 0 <= x -> x <= 1 -> 0 <= w * x /\ w * x <= w.
Proof.
  intros Hw H0 H1. split; nra.
Qed.

Lemma StronglySorted_firstn {A : Type} (R : A -> A -> Prop) (n : nat) (l : list A) :
  StronglySorted R l -> StronglySorted R (firstn n l).
Proof.
  revert n. induction l as [|x t IH]; intros n Hs.
  - rewrite firstn_nil. constructor.
  - destruct n as [|n]; [constructor|].
    apply StronglySorted_inv in Hs. destruct Hs as [Hs Hall].
    cbn [firstn]. constructor; [now apply IH|].
    apply Forall_forall. intros y Hy. apply firstn_incl in Hy.
    rewrite Forall_forall in Hall. now apply Hall.
Qed.

Lemma head_sorted {A : Type} (R : A -> A -> Prop) (n : Z) (l : list A) :
  StronglySorted R l -> StronglySorted R (head n l).
Proof.
  unfold head. destruct (0 <=? n)%Z; apply StronglySorted_firstn.
Qed.

Lemma NoDup_firstn {A : Type} (n : nat) (l : list A) :
  NoDup l -> NoDup (firstn n l).
Proof.
  intro H. rewrite <- (firstn_skipn n l) in H. now apply NoDup_app_remove_r in H.
Qed.

Lemma NoDup_map_filter {A B : Type} (f : A -> B) (P : A -> bool) (l : list A) :
  NoDup (map f l) -> NoDup (map f (filter P l)).
Proof.
  induction l as [|x t IH]; simpl; intro H; [constructor|].
  apply NoDup_cons_iff in H. destruct H as [Hx Hnd].
  destruct (P x); simpl; [|now apply IH].
  constructor; [|now apply IH].
  intro Hin. apply Hx. apply in_map_iff in Hin. destruct Hin as (y & Hy & Hyin).
  apply filter_In in Hyin. rewrite <- Hy. apply in_map. tauto.
Qed.

Section RankingFacts.
Context {S : SortKind}.

Lemma recommend_scores (inter : list Inter.row) (pings : list Pings.row)
    (uid : string) (topk : Z) (alpha beta gamma delta : Q) :
  map Rec.score (recommend_for_user inter pings uid topk alpha beta gamma delta)
  = map Cand.score (recommend_df inter pings uid topk alpha beta gamma delta).
Proof.
  unfold recommend_for_user. rewrite map_map. reflexivity.
Qed.

Lemma recommend_ids (inter : list Inter.row) (pings : list Pings.row)
    (uid : string) (topk : Z) (alpha beta gamma delta : Q) :
  map Rec.ping_id (recommend_for_user inter pings uid topk alpha beta gamma delta)
  = map (fun r => Items.ping_id (Cand.item r))
        (recommend_df inter pings uid topk alpha beta gamma delta).
Proof.
  unfold recommend_for_user. rewrite map_map. reflexivity.
Qed.

Lemma items_ids (inter : list Inter.row) (pings : list Pings.row) :
  map Items.ping_id (items inter pings) = map Pings.ping_id pings.
Proof.
  unfold items. rewrite map_map. reflexivity.
Qed.

Lemma candidates_ids_nodup (inter : list Inter.row) (pings : list Pings.row)
    (uid : string) (alpha beta gamma delta : Q) :
  NoDup (map Pings.ping_id pings) ->
  NoDup (map (fun r => Items.ping_id (Cand.item r))
             (candidates inter pings uid alpha beta gamma delta)).
Proof.
  intro Hnd. unfold candidates. apply NoDup_map_filter.
  rewrite map_map. cbn [Cand.item]. now rewrite items_ids.
Qed.

End RankingFacts.

(** X13.  With non-negative weights every returned score lies between 0
    and alpha + beta + gamma + delta. *)
Theorem score_within_weights {S : SortKind} (inter : list Inter.row)
    (pings : list Pings.row) (uid : string) (topk : Z)
    (alpha beta gamma delta : Q)
    (Ha : 0 <= alpha) (Hb : 0 <= beta) (Hc : 0 <= gamma) (Hd : 0 <= delta)
    (row : Rec.row)
    (Hrow : In row (recommend_for_user inter pings uid topk alpha beta gamma delta)) :
  0 <= Rec.score row /\ Rec.score row <= alpha + beta + gamma + delta.
Proof.
  unfold recommend_for_user in Hrow. apply in_map_iff in Hrow.
  destruct Hrow as (r & <- & Hr). cbn [Rec.score].
  apply recommend_df_in in Hr.
  destruct (candidates_in _ _ _ _ _ _ _ _ Hr) as [Hi _].
  destruct (candidates_row _ _ _ _ _ _ _ _ Hr) as (_ & _ & ->).
  destruct (candidate_affinities _ _ _ _ _ _ _ _ Hr) as [Hca Hcr].
  assert (Hcat : 0 <= Cand.user_cat_aff r /\ Cand.user_cat_aff r <= 1).
  { rewrite Hca. destruct (Items.category (Cand.item r));
      [apply col_share_range|split; apply Qle_bool_iff; reflexivity]. }
  assert (Hcre : 0 <= Cand.user_cre_aff r /\ Cand.user_cre_aff r <= 1).
  { rewrite Hcr. destruct (Items.creator_id (Cand.item r));
      [apply col_share_range|split; apply Qle_bool_iff; reflexivity]. }
  destruct (items_norm_range inter pings _ Hi) as [Hn0 Hn1].
  destruct (items_freshness_range inter pings _ Hi) as [Hf0 Hf1].
  destruct Hcat as [Hc0 Hc1], Hcre as [Hr0 Hr1].
  destruct (weighted_feature alpha _ Ha Hn0 Hn1).
  destruct (weighted_feature beta _ Hb Hc0 Hc1).
  destruct (weighted_feature gamma _ Hc Hr0 Hr1).
  destruct (weighted_feature delta _ Hd (Qlt_le_weak _ _ Hf0) Hf1).
  split; lra.
Qed.

Definition demo_recs (uid : string) (topk : Z) : list Rec.row :=
  recommend_for_user (S:=stable_kind) demo_inter demo_pings uid topk
    (1 # 2) (1 # 4) (15 # 100) (1 # 10).

Definition demo_rec (uid : string) (topk : Z) (n : nat) : Rec.row :=
  nth n (demo_recs uid topk) (Rec.mk "" 0 None None None "").

Lemma score_within_weights_witness :
  In (demo_rec "u2" 1 0) (demo_recs "u2" 1)
  /\ Rec.ping_id (demo_rec "u2" 1 0) = "p2"
  /\ 0 <= Rec.score (demo_rec "u2" 1 0)
  /\ Rec.score (demo_rec "u2" 1 0) <= (1 # 2) + (1 # 4) + (15 # 100) + (1 # 10).
Proof.
  assert (Hin : In (demo_rec "u2" 1 0) (demo_recs "u2" 1))
    by (apply nth_In; vm_compute; lia).
  assert (Ha : 0 <= 1 # 2) by (apply Qle_bool_iff; reflexivity).
  assert (Hb : 0 <= 1 # 4) by (apply Qle_bool_iff; reflexivity).
  assert (Hc : 0 <= 15 # 100) by (apply Qle_bool_iff; reflexivity).
  assert (Hd : 0 <= 1 # 10) by (apply Qle_bool_iff; reflexivity).
  pose proof (score_within_weights (S:=stable_kind) demo_inter demo_pings "u2" 1
                (1 # 2) (1 # 4) (15 # 100) (1 # 10) Ha Hb Hc Hd
                (demo_rec "u2" 1 0) Hin) as [H0 H1].
  split; [exact Hin|]. split; [reflexivity|]. split; [exact H0|exact H1].
Defined.

(** X14.  The returned rows are in descending order of score: no row has a
    higher score than a row before it (for every top_k, negative ones
    included). *)
Theorem recommend_sorted_by_score {S : SortKind} (inter : list Inter.row)
    (pings : list Pings.row) (uid : string) (topk : Z)
    (alpha beta gamma delta : Q) :
  StronglySorted (fun a b => Rec.score b <= Rec.score a)
    (recommend_for_user inter pings uid topk alpha beta gamma delta).
Proof.
  unfold recommend_for_user.
  apply StronglySorted_map. cbn [Rec.score].
  unfold recommend_df. apply head_sorted, sort_desc_sorted.
Qed.

(** X15.  Asking for fewer rows gives a prefix of what asking for more
    gives: for 0 <= k <= k', the answer for k is the first k rows of the
    answer for k'; for k = 0 it is empty. *)
Theorem recommend_prefix {S : SortKind} (inter : list Inter.row)
    (pings : list Pings.row) (uid : string) (k k' : Z)
    (alpha beta gamma delta : Q)
    (Hk : (0 <= k)%Z) (Hkk : (k <= k')%Z) :
  recommend_for_user inter pings uid k alpha beta gamma delta
  = firstn (Z.to_nat k)
      (recommend_for_user inter pings uid k' alpha beta gamma delta)
  /\ recommend_for_user inter pings uid 0 alpha beta gamma delta = [].
Proof.
  unfold recommend_for_user, recommend_df, head.
  assert (E : (0 <=? k)%Z = true) by now apply Z.leb_le.
  assert (E' : (0 <=? k')%Z = true) by (apply Z.leb_le; lia).
  rewrite E, E'. split; [|reflexivity].
  rewrite <- !firstn_map, firstn_firstn. f_equal. lia.
Qed.

Lemma recommend_prefix_witness :
  (0 <= 1)%Z /\ (1 <= 10)%Z
  /\ map Rec.ping_id (demo_recs "u1" 1) = ["p3"]
  /\ demo_recs "u1" 1 = firstn 1 (demo_recs "u1" 10).
Proof.
  split; [lia|]. split; [lia|]. split; [vm_compute; reflexivity|].
  apply (recommend_prefix (S:=stable_kind) demo_inter demo_pings "u1" 1 10
           (1 # 2) (1 # 4) (15 # 100) (1 # 10)); lia.
Defined.

(** X16.  A negative top_k raises no error: the answer is the full ranking
    of the unseen items without its last |top_k| rows - empty when there
    are no more than |top_k| of them. *)
Theorem recommend_negative_topk {S : SortKind} (inter : list Inter.row)
    (pings : list Pings.row) (uid : string) (topk : Z)
    (alpha beta gamma delta : Q)
    (Hneg : (topk < 0)%Z) :
  let full :=
    recommend_for_user inter pings uid (Z.of_nat (length pings))
      alpha beta gamma delta in
  length full = length (unseen_catalog inter pings uid)
  /\ recommend_for_user inter pings uid topk alpha beta gamma delta
     = firstn (length full - Z.to_nat (- topk)) full
  /\ length (recommend_for_user inter pings uid topk alpha beta gamma delta)
     = (length (unseen_catalog inter pings uid) - Z.to_nat (- topk))%nat.
Proof.
  intro full.
  assert (Hfull : full
                  = map (fun r =>
                           Rec.mk (Items.ping_id (Cand.item r)) (Cand.score r)
                             (Items.category (Cand.item r))
                             (Items.main_hashtag (Cand.item r))
                             (Items.creator_id (Cand.item r)) (reason_of r))
                        (sort_desc Cand.score
                           (candidates inter pings uid alpha beta gamma delta))).
  { unfold full, recommend_for_user, recommend_df. rewrite head_all; [reflexivity|].
    rewrite <- (Permutation_length (sort_desc_perm _ Cand.score _)).
    rewrite candidates_length. unfold unseen_catalog.
    pose proof (filter_length_le
                  (fun p => negb (existsb
                     (fun e => String.eqb (Inter.user_id e) uid
                               && String.eqb (Inter.ping_id e) (Pings.ping_id p))
                     inter)) pings).
    lia. }
  assert (Hlen : length full = length (unseen_catalog inter pings uid)).
  { rewrite Hfull, length_map.
    rewrite <- (Permutation_length (sort_desc_perm _ Cand.score _)).
    apply candidates_length. }
  assert (Heq : recommend_for_user inter pings uid topk alpha beta gamma delta
                = firstn (length full - Z.to_nat (- topk)) full).
  { rewrite Hfull. unfold recommend_for_user, recommend_df, head.
    assert (E : (0 <=? topk)%Z = false) by (apply Z.leb_gt; exact Hneg).
    rewrite E, <- firstn_map, length_map. reflexivity. }
  split; [exact Hlen|]. split; [exact Heq|].
  rewrite Heq, length_firstn, Hlen. lia.
Qed.

Lemma recommend_negative_topk_witness :
  (-1 < 0)%Z
  /\ map Rec.ping_id (demo_recs "u1" (-1)) = ["p3"]
  /\ length (demo_recs "u1" (-1))
     = (length (unseen_catalog demo_inter demo_pings "u1") - 1)%nat.
Proof.
  split; [lia|]. split; [vm_compute; reflexivity|].
  apply (recommend_negative_topk (S:=stable_kind) demo_inter demo_pings "u1" (-1)
           (1 # 2) (1 # 4) (15 # 100) (1 # 10)).
  lia.
Defined.

(** X17.  Every returned row is a catalog row that the user has no event
    on, with that row's category, hashtag and creator passed through; when
    the catalog's ping_ids are distinct, no ping_id is returned twice. *)
Theorem recommend_rows_from_catalog {S : SortKind} (inter : list Inter.row)
    (pings : list Pings.row) (uid : string) (topk : Z)
    (alpha beta gamma delta : Q) :
  (forall row,
     In row (recommend_for_user inter pings uid topk alpha beta gamma delta) ->
     exists p, In p (unseen_catalog inter pings uid)
       /\ Rec.ping_id row = Pings.ping_id p
       /\ Rec.category row = Pings.category p
       /\ Rec.main_hashtag row = Pings.main_hashtag p
       /\ Rec.creator_id row = Pings.creator_id p)
  /\ (NoDup (map Pings.ping_id pings) ->
      NoDup (map Rec.ping_id
               (recommend_for_user inter pings uid topk alpha beta gamma delta))).
Proof.
  split.
  - intros row Hrow. unfold recommend_for_user in Hrow.
    apply in_map_iff in Hrow. destruct Hrow as (r & <- & Hr).
    apply recommend_df_in in Hr. cbn.
    unfold candidates in Hr. apply filter_In in Hr. destruct Hr as [Hr Hs].
    apply in_map_iff in Hr. destruct Hr as (i & <- & Hi). cbn [Cand.item] in *.
    unfold items in Hi. apply in_map_iff in Hi. destruct Hi as (p & <- & Hp).
    cbn in *. exists p. repeat split.
    unfold unseen_catalog. apply filter_In. split; [exact Hp|].
    now rewrite <- is_seen_agree with (pings := pings).
  - intro Hnd. rewrite recommend_ids. unfold recommend_df, head.
    assert (Hs : NoDup (map (fun r => Items.ping_id (Cand.item r))
                          (sort_desc Cand.score
                             (candidates inter pings uid alpha beta gamma delta)))).
    { eapply Permutation_NoDup;
        [apply Permutation_map, sort_desc_perm|now apply candidates_ids_nodup]. }
    destruct (0 <=? topk)%Z; rewrite <- firstn_map; now apply NoDup_firstn.
Qed.

Lemma recommend_rows_from_catalog_witness :
  NoDup (map Pings.ping_id demo_pings)
  /\ NoDup (map Rec.ping_id (demo_recs "u1" 10)).
Proof.
  split; [exact demo_pings_nodup|].
  apply (recommend_rows_from_catalog (S:=stable_kind) demo_inter demo_pings "u1" 10
           (1 # 2) (1 # 4) (15 # 100) (1 # 10)).
  exact demo_pings_nodup.
Defined.

(** X18.  A user with an event on every catalog item is recommended
    nothing, whatever top_k is. *)
Theorem recommend_nothing_left {S : SortKind} (inter : list Inter.row)
    (pings : list Pings.row) (uid : string) (topk : Z)
    (alpha beta gamma delta : Q)
    (Hall : forall p, In p pings ->
              exists e, In e inter /\ Inter.user_id e = uid
                        /\ Inter.ping_id e = Pings.ping_id p) :
  recommend_for_user inter pings uid topk alpha beta gamma delta = [].
Proof.
  assert (Hc : candidates inter pings uid alpha beta gamma delta = []).
  { apply length_zero_iff_nil. rewrite candidates_length.
    unfold unseen_catalog. rewrite filter_none; [reflexivity|].
    intros p Hp. apply negb_false_iff, existsb_exists.
    destruct (Hall p Hp) as (e & He & Hu & Hpid). exists e.
    split; [exact He|]. rewrite Hu, Hpid, !String.eqb_refl. reflexivity. }
  unfold recommend_for_user, recommend_df.
  assert (Hsort : sort_desc Cand.score
                    (candidates inter pings uid alpha beta gamma delta) = []).
  { apply Permutation_nil. rewrite <- Hc at 1. apply sort_desc_perm. }
  rewrite Hsort. unfold head. destruct (0 <=? topk)%Z; now rewrite firstn_nil.
Qed.

Lemma recommend_nothing_left_witness :
  (forall p, In p demo_pings ->
     exists e, In e saturated_inter /\ Inter.user_id e = "u3"
               /\ Inter.ping_id e = Pings.ping_id p)
  /\ recommend_for_user (S:=stable_kind) saturated_inter demo_pings "u3" 10
       (1 # 2) (1 # 4) (15 # 100) (1 # 10) = [].
Proof.
  assert (H : forall p, In p demo_pings ->
            exists e, In e saturated_inter /\ Inter.user_id e = "u3"
                      /\ Inter.ping_id e = Pings.ping_id p).
  { intros p Hp. simpl in Hp. destruct Hp as [<-|[<-|[<-|[<-|[]]]]].
    - exists (Inter.mk "u3" "p1" (Some "impression") None None). simpl. auto.
    - exists (Inter.mk "u3" "p2" (Some "impression") None None). simpl. auto.
    - exists (Inter.mk "u3" "p3" (Some "view") (Some 10) None). simpl. auto 6.
    - exists (Inter.mk "u3" "p4" (Some "like") None None). simpl. auto 6. }
  split; [exact H|].
  exact (recommend_nothing_left (S:=stable_kind) saturated_inter demo_pings "u3" 10
           (1 # 2) (1 # 4) (15 # 100) (1 # 10) H).
Defined.

(** ** Column names *)

Lemma dict_find_present (columns : list string) (mapping : list (string * string))
    (c : string) :
  In c columns ->
  dict_find (filter (fun kv => existsb (String.eqb (fst kv)) columns) mapping) c
  = dict_find mapping c.
Proof.
  intro Hc. induction mapping as [|[k v] t IH]; [reflexivity|].
  cbn [filter fst dict_find].
  destruct (existsb (String.eqb k) columns) eqn:E.
  - cbn [dict_find]. now rewrite IH.
  - rewrite IH. destruct (String.eqb k c) eqn:Ek; [exfalso|reflexivity].
    apply String.eqb_eq in Ek. subst k.
    apply (existsb_eqb_in c columns) in Hc. congruence.
Qed.

Lemma canonicalize_rename (columns : list string) (mapping : list (string * string)) :
  canonicalize columns mapping = map (fun c => dict_get mapping c c) columns.
Proof.
  unfold canonicalize. apply map_ext_in. intros c Hc.
  unfold dict_get. now rewrite dict_find_present.
Qed.

Lemma dict_find_value {V : Type} (d : list (string * V)) (k : string) (v : V) :
  dict_find d k = Some v -> In (k, v) d.
Proof.
  induction d as [|[k' v'] t IH]; simpl; [discriminate|].
  destruct (String.eqb k' k) eqn:E.
  - intro H. injection H as ->. apply String.eqb_eq in E. subst. now left.
  - intro H. right. now apply IH.
Qed.

(** X19.  Renaming keeps the number and order of the columns, leaves a
    column that is no alias as it is, and - for a mapping none of whose
    target names is itself an alias, as in the three mappings of the
    script - leaves no alias behind, so that applying it again changes
    nothing. *)
Theorem canonicalize_idempotent (columns : list string)
    (mapping : list (string * string))
    (Hclosed : forall k v, In (k, v) mapping -> dict_find mapping v = None) :
  length (canonicalize columns mapping) = length columns
  /\ (forall n c, nth_error columns n = Some c -> dict_find mapping c = None ->
        nth_error (canonicalize columns mapping) n = Some c)
  /\ (forall c, In c (canonicalize columns mapping) -> dict_find mapping c = None)
  /\ canonicalize (canonicalize columns mapping) mapping
     = canonicalize columns mapping.
Proof.
  assert (Hclean : forall c, In c (canonicalize columns mapping) ->
                     dict_find mapping c = None).
  { intros c Hc. rewrite canonicalize_rename in Hc. apply in_map_iff in Hc.
    destruct Hc as (c0 & <- & _). unfold dict_get.
    destruct (dict_find mapping c0) as [v|] eqn:E; cbn [fillna]; [|exact E].
    apply dict_find_value in E. now apply (Hclosed c0 v). }
  split; [rewrite canonicalize_rename; apply length_map|].
  split; [|split; [exact Hclean|]].
  - intros n c Hn Hc. rewrite canonicalize_rename.
    rewrite nth_error_map, Hn. cbn. unfold dict_get. now rewrite Hc.
  - rewrite (canonicalize_rename (canonicalize columns mapping)).
    rewrite <- (map_id (canonicalize columns mapping)) at 2.
    apply map_ext_in. intros c Hc. unfold dict_get. now rewrite (Hclean c Hc).
Qed.

Lemma script_mappings_closed :
  (forall k v, In (k, v) inter_mapping -> dict_find inter_mapping v = None)
  /\ (forall k v, In (k, v) pings_mapping -> dict_find pings_mapping v = None)
  /\ (forall k v, In (k, v) users_mapping -> dict_find users_mapping v = None).
Proof.
  repeat split; intros k v H; simpl in H;
    repeat (destruct H as [H|H]; [injection H as <- <-; reflexivity|]);
    contradiction.
Qed.

Lemma canonicalize_idempotent_witness :
  (forall k v, In (k, v) pings_mapping -> dict_find pings_mapping v = None)
  /\ canonicalize ["oping_id"; "category"; "oduration_sec"; "views"] pings_mapping
     = ["ping_id"; "category"; "duration_sec"; "views"]
  /\ canonicalize
       (canonicalize ["oping_id"; "category"; "oduration_sec"; "views"] pings_mapping)
       pings_mapping
     = canonicalize ["oping_id"; "category"; "oduration_sec"; "views"] pings_mapping.
Proof.
  destruct script_mappings_closed as (_ & Hp & _).
  split; [exact Hp|]. split; [reflexivity|].
  apply (canonicalize_idempotent
           ["oping_id"; "category"; "oduration_sec"; "views"] pings_mapping Hp).
Defined.

(** ** Top ten *)

(** X20.  The top-10 report never has more than ten rows; with distinct
    catalog ids its ranking columns are the first ten rows of the global
    table, in that order, each joined with the catalog row of the same
    id, or with nothing when the ping is not in the catalog. *)
Theorem top10_is_ranking_prefix {S : SortKind} (inter : list Inter.row)
    (pings : list Pings.row) :
  (length (top10 inter pings) <= 10)%nat
  /\ (NoDup (map Pings.ping_id pings) ->
      map fst (top10 inter pings) = firstn 10 (ping_global inter pings)
      /\ forall g opd, In (g, opd) (top10 inter pings) ->
           match opd with
           | Some pd => In (fst pd) pings /\ Pings.ping_id (fst pd) = PingGlobal.ping_id g
           | None => forall p, In p pings -> Pings.ping_id p <> PingGlobal.ping_id g
           end).
Proof.
  split.
  - unfold top10. rewrite head_length by lia.
    change (Z.to_nat 10) with 10%nat. lia.
  - intro Hnd. split.
    + unfold top10, head. cbn [Z.leb Z.compare]. change (Z.to_nat 10) with 10%nat.
      rewrite merge_left_unique.
      * rewrite <- firstn_map, map_map. cbn [fst]. now rewrite map_id.
      * rewrite <- (map_map fst Pings.ping_id), fill_duration_fst. exact Hnd.
    + intros g opd Hin. unfold top10 in Hin. apply head_incl in Hin.
      apply merge_left_in in Hin. destruct Hin as [_ Hm].
      destruct opd as [pd|].
      * destruct Hm as [Hpd Hk]. split; [|exact Hk].
        rewrite <- (fill_duration_fst pings). now apply in_map.
      * intros p Hp Hk.
        rewrite <- (fill_duration_fst pings) in Hp. apply in_map_iff in Hp.
        destruct Hp as (pd & <- & Hpd). now apply (Hm pd Hpd).
Qed.

Lemma top10_is_ranking_prefix_witness :
  NoDup (map Pings.ping_id demo_pings)
  /\ map (fun gp => PingGlobal.ping_id (fst gp))
         (top10 (S:=stable_kind) demo_inter demo_pings)
     = ["p2"; "p1"; "p4"]
  /\ map fst (top10 (S:=stable_kind) demo_inter demo_pings)
     = firstn 10 (ping_global (S:=stable_kind) demo_inter demo_pings).
Proof.
  split; [exact demo_pings_nodup|]. split; [vm_compute; reflexivity|].
  apply (top10_is_ranking_prefix (S:=stable_kind) demo_inter demo_pings).
  exact demo_pings_nodup.
Defined.

(** ** Cohorts *)

Lemma is_new_flags_fst (users : list Users.row) :
  map fst (is_new_flags users) = users.
Proof.
  unfold is_new_flags. rewrite map_map. apply map_id.
Qed.

Lemma is_new_flags_in (users : list Users.row) (u : Users.row) (b : bool) :
  In (u, b) (is_new_flags users) ->
  In u users
  /\ b = match ts_max (map Users.signup_date users), Users.signup_date u with
         | Some m, Some t => (m - 7 * day_ns <=? t)%Z
         | _, _ => false
         end.
Proof.
  unfold is_new_flags. rewrite in_map_iff. intros (u' & H & Hu).
  injection H as -> <-. now split.
Qed.

(** X21.  A user is flagged new exactly when the signup date is known and
    no more than 7 days before the latest known signup date; a user without
    a signup date is never new; nobody is new when no signup date is known;
    and otherwise the users who signed up last are new. *)
Theorem is_new_spec (users : list Users.row) :
  map fst (is_new_flags users) = users
  /\ (forall u b, In (u, b) (is_new_flags users) ->
        Users.signup_date u = None -> b = false)
  /\ ((forall u, In u users -> Users.signup_date u = None) ->
      forall u b, In (u, b) (is_new_flags users) -> b = false)
  /\ (forall u0 t0, In u0 users -> Users.signup_date u0 = Some t0 ->
      exists m,
        In (Some m) (map Users.signup_date users)
        /\ (forall t, In (Some t) (map Users.signup_date users) -> (t <= m)%Z)
        /\ (forall u b, In (u, b) (is_new_flags users) ->
              (b = true <-> exists t, Users.signup_date u = Some t
                                      /\ (m - 7 * day_ns <= t)%Z))
        /\ (forall u, In u users -> Users.signup_date u = Some m ->
              In (u, true) (is_new_flags users))).
Proof.
  split; [apply is_new_flags_fst|]. split; [|split].
  - intros u b Hin Hnone. apply is_new_flags_in in Hin. destruct Hin as [_ ->].
    rewrite Hnone. now destruct (ts_max _).
  - intros Hnone u b Hin. apply is_new_flags_in in Hin. destruct Hin as [Hu ->].
    rewrite (Hnone u Hu). now destruct (ts_max _).
  - intros u0 t0 Hu0 Ht0.
    destruct (ts_max (map Users.signup_date users)) as [m|] eqn:Em.
    + destruct (ts_max_some _ m Em) as [Hm Hub].
      exists m. split; [exact Hm|]. split; [exact Hub|]. split.
      * intros u b Hin. apply is_new_flags_in in Hin. destruct Hin as [_ ->].
        rewrite Em. destruct (Users.signup_date u) as [t|].
        -- rewrite Z.leb_le. split; [intro H; now exists t|].
           intros (t' & Ht' & Hle). now injection Ht' as ->.
        -- split; [discriminate|]. intros (t' & Ht' & _). discriminate.
      * intros u Hu Hum. unfold is_new_flags. apply in_map_iff. exists u.
        split; [|exact Hu]. rewrite Em, Hum. f_equal.
        apply Z.leb_le. pose proof day_ns_pos. lia.
    + exfalso.
      assert (Hin : In (Some t0) (map Users.signup_date users))
        by (rewrite <- Ht0; now apply in_map).
      pose proof (ts_max_none_inv _ Em _ Hin). discriminate.
Qed.

Lemma is_new_spec_witness :
  In (nth 1 demo_users (Users.mk "" None None None)) demo_users
  /\ map snd (is_new_flags demo_users) = [false; true; false; true]
  /\ exists m, In (Some m) (map Users.signup_date demo_users)
               /\ forall t, In (Some t) (map Users.signup_date demo_users) ->
                    (t <= m)%Z.
Proof.
  assert (Hin : In (nth 1 demo_users (Users.mk "" None None None)) demo_users)
    by (simpl; auto).
  split; [exact Hin|]. split; [reflexivity|].
  destruct (is_new_spec demo_users) as (_ & _ & _ & H).
  destruct (H _ (day 20) Hin Logic.eq_refl) as (m & Hm & Hub & _).
  exists m. split; [exact Hm|exact Hub].
Defined.

(** *** Distinct pings per user *)

Lemma pings_per_user_groups_find (rows : list Scored.row) (u : string) :
  option_map snd
    (find (fun g => String.eqb (fst g) u) (pings_per_user_groups rows))
  = if Nat.eqb (length (valid_pings_of rows u)) 0 then None
    else Some (length (valid_pings_of rows u)).
Proof.
  unfold pings_per_user_groups. fold is_valid.
  set (valid := filter is_valid rows).
  set (ks := group_keys String.compare (map Scored.user_id valid)).
  destruct (find _ (map _ ks)) as [g|] eqn:E.
  - apply find_some in E. destruct E as [Hg Hk]. apply String.eqb_eq in Hk.
    apply in_map_iff in Hg. destruct Hg as (u' & <- & Hu'). cbn [fst] in Hk. subst u'.
    cbn [option_map snd].
    change (unique (map Scored.ping_id
                      (filter (fun r => String.eqb (Scored.user_id r) u) valid)))
      with (valid_pings_of rows u).
    apply -> (group_keys_in String.compare) in Hu'.
    apply in_map_iff in Hu'. destruct Hu' as (r & Hr & Hrin).
    assert (Hp : In (Scored.ping_id r) (valid_pings_of rows u)).
    { unfold valid_pings_of. apply unique_in, in_map. apply filter_In.
      split; [exact Hrin|]. now apply String.eqb_eq. }
    destruct (valid_pings_of rows u); [contradiction|reflexivity].
  - cbn [option_map].
    assert (Hnone : valid_pings_of rows u = []).
    { unfold valid_pings_of. fold valid.
      rewrite (filter_none (fun r => String.eqb (Scored.user_id r) u)); [reflexivity|].
      intros r Hr. destruct (String.eqb (Scored.user_id r) u) eqn:Eu; [exfalso|reflexivity].
      apply String.eqb_eq in Eu.
      assert (Hu : In u ks).
      { apply (group_keys_in String.compare). rewrite <- Eu. now apply in_map. }
      pose proof (find_none _ _ E (u, length (unique (map Scored.ping_id
                    (filter (fun r => String.eqb (Scored.user_id r) u) valid))))) as Hf.
      cbn [fst] in Hf. rewrite String.eqb_refl in Hf.
      assert (discr : true = false); [|discriminate].
      apply Hf. apply in_map_iff. exists u. split; [reflexivity|exact Hu]. }
    now rewrite Hnone.
Qed.

Lemma pings_per_user_groups_nodup (rows : list Scored.row) :
  NoDup (map fst (pings_per_user_groups rows)).
Proof.
  unfold pings_per_user_groups. rewrite map_map. cbn [fst]. rewrite map_id.
  apply (group_keys_nodup String.compare).
Qed.

Lemma pings_per_user_rows (inter : list Inter.row) (pings : list Pings.row)
    (users : list Users.row) :
  pings_per_user inter pings users
  = map (fun ub =>
           PingsPerUser.mk (Users.user_id (fst ub))
             (Qnat (length (valid_pings_of (inter_rows inter pings)
                              (Users.user_id (fst ub)))))
             (snd ub))
        (is_new_flags users).
Proof.
  unfold pings_per_user.
  rewrite merge_left_unique by apply pings_per_user_groups_nodup.
  rewrite map_map. apply map_ext. intros [u b]. cbn [fst snd]. f_equal.
  pose proof (pings_per_user_groups_find (inter_rows inter pings) (Users.user_id u))
    as Hf.
  destruct (find _ (pings_per_user_groups (inter_rows inter pings))) as [g|];
    cbn [option_map fillna] in *;
    destruct (Nat.eqb (length (valid_pings_of (inter_rows inter pings)
                                 (Users.user_id u))) 0) eqn:E;
    try discriminate.
  - injection Hf as ->. reflexivity.
  - apply Nat.eqb_eq in E. rewrite E. reflexivity.
Qed.

Lemma existsb_cell_in (c : option string) (l : list string) :
  existsb (cell_eqb c) l = true <-> In c (map Some l).
Proof.
  rewrite existsb_exists, in_map_iff. split.
  - intros (s & Hs & He). apply cell_eqb_eq in He. now exists s.
  - intros (s & Hs & Hin). exists s. split; [exact Hin|]. now apply cell_eqb_eq.
Qed.

Lemma valid_pings_of_in (inter : list Inter.row) (pings : list Pings.row)
    (u pid : string) :
  In pid (valid_pings_of (inter_rows inter pings) u)
  <-> exists e, In e inter /\ Inter.user_id e = u /\ Inter.ping_id e = pid
                /\ In (Inter.event_type e) (map Some valid_types).
Proof.
  unfold valid_pings_of. rewrite unique_in, in_map_iff. split.
  - intros (r & <- & Hr). apply filter_In in Hr. destruct Hr as [Hr Hu].
    apply filter_In in Hr. destruct Hr as [Hr Hv]. apply String.eqb_eq in Hu.
    destruct (inter_rows_in inter pings r Hr) as (e & d & He & ->).
    exists e. repeat split; auto.
    unfold is_valid in Hv. now apply existsb_cell_in in Hv.
  - intros (e & He & <- & <- & Hv).
    destruct (inter_rows_total inter pings e He) as [d Hd].
    exists (resolve e d). split; [reflexivity|].
    apply filter_In. split; [|apply String.eqb_refl].
    apply filter_In. split; [exact Hd|].
    unfold is_valid. now apply existsb_cell_in.
Qed.

(** X22.  The pings-per-user table has exactly one row for each row of the
    users table, in that table's order, whether or not the user has events
    (users who only appear in the events get no row); n_pings is the number
    of distinct pings among the user's view, like, comment and share
    events, hence 0.0 for a user without any. *)
Theorem pings_per_user_spec (inter : list Inter.row) (pings : list Pings.row)
    (users : list Users.row) :
  map PingsPerUser.user_id (pings_per_user inter pings users)
  = map Users.user_id users
  /\ map (fun r => (PingsPerUser.user_id r, PingsPerUser.is_new r))
         (pings_per_user inter pings users)
     = map (fun ub => (Users.user_id (fst ub), snd ub)) (is_new_flags users)
  /\ forall row, In row (pings_per_user inter pings users) ->
       let ps := valid_pings_of (inter_rows inter pings) (PingsPerUser.user_id row) in
       PingsPerUser.n_pings row = Qnat (length ps)
       /\ NoDup ps
       /\ (forall pid, In pid ps
             <-> exists e, In e inter
                   /\ Inter.user_id e = PingsPerUser.user_id row
                   /\ Inter.ping_id e = pid
                   /\ In (Inter.event_type e) (map Some valid_types))
       /\ ((forall e, In e inter -> Inter.user_id e = PingsPerUser.user_id row ->
              ~ In (Inter.event_type e) (map Some valid_types)) ->
           PingsPerUser.n_pings row = 0).
Proof.
  rewrite pings_per_user_rows. split; [|split].
  - rewrite map_map. cbn [PingsPerUser.user_id].
    rewrite <- (is_new_flags_fst users) at 2. now rewrite map_map.
  - rewrite map_map. reflexivity.
  - intros row Hrow ps. apply in_map_iff in Hrow.
    destruct Hrow as ([u b] & <- & _). cbn [PingsPerUser.user_id PingsPerUser.n_pings fst] in *.
    split; [reflexivity|]. split; [apply unique_nodup|].
    split; [intro pid; apply valid_pings_of_in|].
    intro Hnone.
    assert (Hps : ps = []).
    { destruct ps as [|pid t] eqn:E; [reflexivity|exfalso].
      assert (Hin : In pid ps) by (rewrite E; now left).
      apply valid_pings_of_in in Hin. destruct Hin as (e & He & Hu & _ & Hv).
      exact (Hnone e He Hu Hv). }
    fold ps. now rewrite Hps.
Qed.

(** *** Group averages *)

Lemma flag_keys_in (l : list bool) (b : bool) : In b (flag_keys l) <-> In b l.
Proof.
  unfold flag_keys. rewrite filter_In.
  rewrite (existsb_key_in Bool.eqb Bool.eqb_true_iff).
  split; [tauto|]. intro H. split; [|exact H]. destruct b; simpl; auto.
Qed.

Lemma flag_keys_nodup (l : list bool) : NoDup (flag_keys l).
Proof.
  unfold flag_keys. apply NoDup_filter.
  repeat constructor; simpl; intuition discriminate.
Qed.

Lemma mean_times_length (l : list Q) :
  l <> [] -> mean l * Qnat (length l) == qsum l.
Proof.
  intro Hne. unfold mean, Qnat. field.
  change 0 with (inject_Z 0). rewrite inject_Z_injective.
  destruct l; [congruence|simpl; lia].
Qed.

Lemma flag_groups_all {A : Type} (key : A -> bool) (l : list A) :
  filter (fun x => existsb (Bool.eqb (key x)) (flag_keys (map key l))) l = l.
Proof.
  apply filter_all. intros x Hx.
  apply (existsb_key_in Bool.eqb Bool.eqb_true_iff).
  apply flag_keys_in. now apply in_map.
Qed.

(** X23.  The average-pings report has a row only for a cohort that has
    users, False before True; the user counts of its rows add up to the
    number of rows of the users table; and each average times its user
    count is the total n_pings of the cohort, so the weighted averages
    recombine to the overall total. *)
Theorem avg_pings_by_group_spec (inter : list Inter.row) (pings : list Pings.row)
    (users : list Users.row) :
  let ppu := pings_per_user inter pings users in
  let out := avg_pings_by_group inter pings users in
  list_sum (map PingsGroup.user_count out) = length users
  /\ map PingsGroup.is_new out
     = filter (fun b => existsb (Bool.eqb b) (map snd (is_new_flags users)))
              [false; true]
  /\ (forall g, In g out ->
        let cohort := filter (fun r => Bool.eqb (PingsPerUser.is_new r)
                                         (PingsGroup.is_new g)) ppu in
        PingsGroup.user_count g = length cohort
        /\ (1 <= PingsGroup.user_count g)%nat
        /\ PingsGroup.avg_pings g * Qnat (PingsGroup.user_count g)
           == qsum (map PingsPerUser.n_pings cohort))
  /\ qsum (map (fun g => PingsGroup.avg_pings g * Qnat (PingsGroup.user_count g)) out)
     == qsum (map PingsPerUser.n_pings ppu).
Proof.
  intros ppu out.
  assert (Hrow : forall g, In g out ->
            let cohort := filter (fun r => Bool.eqb (PingsPerUser.is_new r)
                                             (PingsGroup.is_new g)) ppu in
            PingsGroup.user_count g = length cohort
            /\ (1 <= PingsGroup.user_count g)%nat
            /\ PingsGroup.avg_pings g * Qnat (PingsGroup.user_count g)
               == qsum (map PingsPerUser.n_pings cohort)).
  { intros g Hg cohort. unfold out, avg_pings_by_group in Hg. fold ppu in Hg.
    apply in_map_iff in Hg. destruct Hg as (b & <- & Hb).
    cbn [PingsGroup.is_new PingsGroup.user_count PingsGroup.avg_pings] in *.
    apply flag_keys_in, in_map_iff in Hb. destruct Hb as (r & Hr & Hrin).
    assert (Hne : cohort <> []).
    { assert (Hc : In r cohort).
      { apply filter_In. split; [exact Hrin|]. rewrite Hr. now apply Bool.eqb_true_iff. }
      intro E. rewrite E in Hc. exact Hc. }
    split; [reflexivity|]. split.
    - fold cohort. destruct cohort; [congruence|simpl; lia].
    - fold cohort. rewrite <- (length_map PingsPerUser.n_pings cohort).
      apply mean_times_length. destruct cohort; [congruence|discriminate]. }
  split; [|split; [|split; [exact Hrow|]]].
  - unfold out, avg_pings_by_group. fold ppu. rewrite map_map.
    cbn [PingsGroup.user_count].
    rewrite (group_length Bool.eqb Bool.eqb_true_iff PingsPerUser.is_new)
      by apply flag_keys_nodup.
    rewrite flag_groups_all. unfold ppu. rewrite pings_per_user_rows, length_map.
    unfold is_new_flags. apply length_map.
  - unfold out, avg_pings_by_group. fold ppu. rewrite map_map.
    cbn [PingsGroup.is_new]. rewrite map_id. unfold flag_keys.
    apply filter_ext. intro b. f_equal.
    unfold ppu. rewrite pings_per_user_rows, map_map. reflexivity.
  - rewrite <- (flag_groups_all PingsPerUser.is_new ppu) at 1.
    rewrite <- (group_qsum Bool.eqb Bool.eqb_true_iff PingsPerUser.is_new
                  PingsPerUser.n_pings) by apply flag_keys_nodup.
    assert (Hout : map PingsGroup.is_new out = flag_keys (map PingsPerUser.is_new ppu)).
    { unfold out, avg_pings_by_group. fold ppu. rewrite map_map.
      cbn [PingsGroup.is_new]. apply map_id. }
    rewrite <- Hout, map_map.
    assert (Hall : forall g, In g out ->
              PingsGroup.avg_pings g * Qnat (PingsGroup.user_count g)
              == qsum (map PingsPerUser.n_pings
                         (filter (fun r => Bool.eqb (PingsPerUser.is_new r)
                                             (PingsGroup.is_new g)) ppu)))
      by (intros g Hg; now apply Hrow).
    clear Hrow Hout. induction out as [|g t IH]; [reflexivity|].
    cbn [map qsum]. rewrite (Hall g (or_introl Logic.eq_refl)), IH; [reflexivity|].
    intros g' Hg'. apply Hall. now right.
Qed.

Lemma avg_pings_by_group_spec_witness :
  map (fun g => (PingsGroup.is_new g, PingsGroup.user_count g))
      (avg_pings_by_group demo_inter demo_pings demo_users)
  = [(false, 2%nat); (true, 2%nat)]
  /\ list_sum (map PingsGroup.user_count
                 (avg_pings_by_group demo_inter demo_pings demo_users))
     = length demo_users.
Proof.
  split; [vm_compute; reflexivity|].
  apply (avg_pings_by_group_spec demo_inter demo_pings demo_users).
Defined.

(** *** Average watch ratio per cohort *)

Section WatchGroups.
Context (l : list (Scored.row * option (Users.row * bool)))
        (Hview : forall ru, In ru l ->
                   Scored.watch_time_ratio (fst ru) = Some (ratio_of ru)).

Let cell (ru : Scored.row * option (Users.row * bool)) : list (bool * Scored.row) :=
  match snd ru with
  | Some ub => [(snd ub, fst ru)]
  | None => []
  end.

Let ropt (br : bool * Scored.row) : list Q :=
  match Scored.watch_time_ratio (snd br) with
  | Some v => [v]
  | None => []
  end.

Lemma group_ratios (b : bool) :
  flat_map ropt (filter (fun br => Bool.eqb (fst br) b) (flat_map cell l))
  = map ratio_of
        (filter (fun ru => match flag_of ru with
                           | Some b' => Bool.eqb b' b
                           | None => false
                           end) l).
Proof.
  induction l as [|ru t IH]; [reflexivity|].
  change (flat_map cell (ru :: t)) with (cell ru ++ flat_map cell t)%list.
  rewrite filter_app, flat_map_app, IH by (intros x Hx; apply Hview; now right).
  change (filter ?f (ru :: t)) with (if f ru then ru :: filter f t else filter f t).
  pose proof (Hview ru (or_introl Logic.eq_refl)) as Hr.
  unfold cell, flag_of. destruct ru as [r [[u b']|]]; cbn [fst snd option_map] in *.
  - cbn [filter fst]. destruct (Bool.eqb b' b); [|reflexivity].
    cbn [flat_map app map]. unfold ropt at 1. cbn [snd]. rewrite Hr. reflexivity.
  - reflexivity.
Qed.

Lemma flagged_keys :
  map fst (flat_map cell l)
  = flat_map (fun ru => match flag_of ru with Some b => [b] | None => [] end) l.
Proof.
  clear Hview. induction l as [|ru t IH]; [reflexivity|].
  change (flat_map cell (ru :: t)) with (cell ru ++ flat_map cell t)%list.
  rewrite map_app, IH. unfold cell, flag_of.
  now destruct ru as [r [[u b']|]].
Qed.

End WatchGroups.

Lemma view_rows_ratio (inter : list Inter.row) (pings : list Pings.row)
    (users : list Users.row) (ru : Scored.row * option (Users.row * bool)) :
  In ru (view_rows inter pings users) ->
  Scored.watch_time_ratio (fst ru) = Some (ratio_of ru).
Proof.
  unfold view_rows. rewrite filter_In. intros [Hin Hv].
  unfold inter_u in Hin. destruct ru as [r ou]. apply merge_left_in in Hin.
  destruct Hin as [Hr _]. cbn [fst] in *.
  destruct (inter_rows_in inter pings r Hr) as (e & d & He & ->).
  unfold ratio_of, resolve, watch_time_ratio in *. cbn in *. now rewrite Hv.
Qed.

(** X24.  The average-watch report has one row for each cohort that has a
    joined view event, False before True.  A row's view_count is the number
    of the cohort's joined view rows - at least one, so no average is
    taken over nothing - and its average times that count is the sum of
    their watch_time_sec / duration_sec.  Views by users who are not in the
    users table are counted in no row. *)
Theorem avg_watch_by_group_spec (inter : list Inter.row) (pings : list Pings.row)
    (users : list Users.row) :
  let out := avg_watch_by_group inter pings users in
  map WatchGroup.is_new out
  = filter (fun b => negb (Nat.eqb (length (cohort_views inter pings users b)) 0))
           [false; true]
  /\ forall g, In g out ->
       let cv := cohort_views inter pings users (WatchGroup.is_new g) in
       WatchGroup.view_count g = length cv
       /\ (1 <= WatchGroup.view_count g)%nat
       /\ WatchGroup.avg_watch_time_ratio g * Qnat (WatchGroup.view_count g)
          == qsum (map ratio_of cv).
Proof.
  intro out.
  pose proof (view_rows_ratio inter pings users) as Hview.
  assert (Hkeys : forall b,
            existsb (Bool.eqb b)
              (map fst
                 (flat_map (fun ru : Scored.row * option (Users.row * bool) =>
                              match snd ru with
                              | Some ub => [(snd ub, fst ru)]
                              | None => []
                              end) (view_rows inter pings users)))
            = negb (Nat.eqb (length (cohort_views inter pings users b)) 0)).
  { intro b. rewrite flagged_keys. apply eq_true_iff_eq.
    rewrite (existsb_key_in Bool.eqb Bool.eqb_true_iff), negb_true_iff, Nat.eqb_neq.
    rewrite in_flat_map. unfold cohort_views. split.
    - intros (ru & Hru & Hb) Hlen.
      assert (Hin : In ru (filter (fun ru => match flag_of ru with
                                             | Some b' => Bool.eqb b' b
                                             | None => false
                                             end) (view_rows inter pings users))).
      { apply filter_In. split; [exact Hru|].
        destruct (flag_of ru) as [b'|]; [|contradiction].
        destruct Hb as [->|[]]. now apply Bool.eqb_true_iff. }
      apply length_zero_iff_nil in Hlen. rewrite Hlen in Hin. exact Hin.
    - intro Hlen.
      destruct (filter _ (view_rows inter pings users)) as [|ru t] eqn:E;
        [now elim Hlen|].
      assert (Hin : In ru (ru :: t)) by now left.
      rewrite <- E in Hin. apply filter_In in Hin. destruct Hin as [Hru Hb].
      exists ru. split; [exact Hru|].
      destruct (flag_of ru) as [b'|]; [|discriminate].
      apply -> Bool.eqb_true_iff in Hb. subst. now left. }
  unfold out, avg_watch_by_group. fold (view_rows inter pings users). split.
  - rewrite map_map. cbn [WatchGroup.is_new]. rewrite map_id.
    unfold flag_keys. apply filter_ext. exact Hkeys.
  - intros g Hg. apply in_map_iff in Hg. destruct Hg as (b & <- & Hb).
    cbn [WatchGroup.is_new WatchGroup.view_count WatchGroup.avg_watch_time_ratio] in *.
    set (cv := cohort_views inter pings users b).
    unfold flag_keys in Hb. apply filter_In in Hb. destruct Hb as [_ Hb].
    rewrite Hkeys, negb_true_iff, Nat.eqb_neq in Hb. fold cv in Hb.
    rewrite (group_ratios (view_rows inter pings users) Hview b).
    fold (cohort_views inter pings users b). fold cv.
    rewrite length_map. split; [reflexivity|]. split; [lia|].
    rewrite <- (length_map ratio_of cv). apply mean_times_length.
    destruct cv; [now elim Hb|discriminate].
Qed.

Lemma avg_watch_by_group_spec_witness :
  map (fun g => (WatchGroup.is_new g, WatchGroup.view_count g))
      (avg_watch_by_group demo_inter demo_pings demo_users)
  = [(false, 1%nat); (true, 1%nat)]
  /\ map WatchGroup.is_new (avg_watch_by_group demo_inter demo_pings demo_users)
     = filter (fun b => negb (Nat.eqb
                                (length (cohort_views demo_inter demo_pings demo_users b)) 0))
              [false; true].
Proof.
  split; [vm_compute; reflexivity|].
  apply (avg_watch_by_group_spec demo_inter demo_pings demo_users).
Defined.

(** ** The affinity tables *)

Lemma affinity_table_spec (col : Items.row -> option string)
    (im : list (Scored.row * option Items.row)) :
  NoDup (map (fun a => (Affinity.user_id a, Affinity.key a)) (affinity_table col im))
  /\ forall a, In a (affinity_table col im) ->
       Affinity.count a
       = length (rows_in_col col im (Affinity.user_id a) (Affinity.key a))
       /\ Affinity.total a = length (user_rows im (Affinity.user_id a))
       /\ (1 <= Affinity.count a)%nat
       /\ (Affinity.count a <= Affinity.total a)%nat
       /\ Affinity.affinity a = Qnat (Affinity.count a) / Qnat (Affinity.total a)
       /\ 0 < Affinity.affinity a /\ Affinity.affinity a <= 1.
Proof.
  rewrite affinity_table_rows. split.
  - rewrite map_map. cbn [Affinity.user_id Affinity.key].
    rewrite (map_ext _ (fun k : string * string => k)) by now intros [u c].
    rewrite map_id. apply (group_keys_nodup pair_compare).
  - intros a Ha. apply in_map_iff in Ha. destruct Ha as ([u c] & <- & Hk).
    cbn [Affinity.user_id Affinity.key Affinity.count Affinity.total
         Affinity.affinity fst snd].
    apply -> (group_keys_in pair_compare) in Hk.
    rewrite cnt_as_rows, tot_user_rows.
    assert (Hpos : (1 <= length (rows_in_col col im u c))%nat).
    { rewrite <- cnt_as_rows.
      assert (Hin : In (u, c) (filter (pair_eqb (u, c)) (group_col col im))).
      { apply filter_In. split; [exact Hk|]. now apply pair_eqb_eq. }
      destruct (filter (pair_eqb (u, c)) (group_col col im));
        [contradiction|simpl; lia]. }
    pose proof (rows_in_col_le col im u c) as Hle.
    assert (Hq : 0 < Qnat (length (user_rows im u))).
    { unfold Qnat. change 0 with (inject_Z 0). rewrite <- Zlt_Qlt. lia. }
    repeat split; try assumption; try reflexivity.
    + apply Qlt_shift_div_l; [exact Hq|]. rewrite Qmult_0_l.
      unfold Qnat. change 0 with (inject_Z 0). rewrite <- Zlt_Qlt. lia.
    + apply Qle_shift_div_r; [exact Hq|]. rewrite Qmult_1_l.
      unfold Qnat. rewrite <- Zle_Qle. lia.
Qed.

(** X25.  In both affinity tables a (user, key) pair has at most one row;
    a row's count is the number of the user's joined events with that
    category (resp. creator), its total the number of all the user's joined
    events; count is between 1 and total, and the affinity, count / total,
    lies in (0,1]. *)
Theorem affinity_rows_spec {S : SortKind} (inter : list Inter.row)
    (pings : list Pings.row) :
  let im := int_meta inter pings in
  (NoDup (map (fun a => (Affinity.user_id a, Affinity.key a)) (user_cat inter pings))
   /\ forall a, In a (user_cat inter pings) ->
        Affinity.count a
        = length (rows_in_col Items.category im (Affinity.user_id a) (Affinity.key a))
        /\ Affinity.total a = length (user_rows im (Affinity.user_id a))
        /\ (1 <= Affinity.count a)%nat
        /\ (Affinity.count a <= Affinity.total a)%nat
        /\ Affinity.affinity a = Qnat (Affinity.count a) / Qnat (Affinity.total a)
        /\ 0 < Affinity.affinity a /\ Affinity.affinity a <= 1)
  /\ (NoDup (map (fun a => (Affinity.user_id a, Affinity.key a))
               (user_creator inter pings))
      /\ forall a, In a (user_creator inter pings) ->
           Affinity.count a
           = length (rows_in_col Items.creator_id im (Affinity.user_id a)
                       (Affinity.key a))
           /\ Affinity.total a = length (user_rows im (Affinity.user_id a))
           /\ (1 <= Affinity.count a)%nat
           /\ (Affinity.count a <= Affinity.total a)%nat
           /\ Affinity.affinity a = Qnat (Affinity.count a) / Qnat (Affinity.total a)
           /\ 0 < Affinity.affinity a /\ Affinity.affinity a <= 1).
Proof.
  intro im. split; apply affinity_table_spec.
Qed.

Lemma affinity_rows_spec_witness :
  map (fun a => (Affinity.user_id a, Affinity.key a, Affinity.count a, Affinity.total a))
      (user_cat (S:=stable_kind) demo_inter demo_pings)
  = [ ("u1", "music", 1%nat, 2%nat); ("u1", "sport", 1%nat, 2%nat);
      ("u2", "music", 1%nat, 2%nat); ("u2", "news", 1%nat, 2%nat) ]
  /\ NoDup (map (fun a => (Affinity.user_id a, Affinity.key a))
              (user_cat (S:=stable_kind) demo_inter demo_pings)).
Proof.
  split; [vm_compute; reflexivity|].
  apply (affinity_rows_spec (S:=stable_kind) demo_inter demo_pings).
Defined.

(** ** More events never lower a popularity *)

Lemma inter_rows_app (a b : list Inter.row) (pings : list Pings.row) :
  inter_rows (a ++ b) pings = (inter_rows a pings ++ inter_rows b pings)%list.
Proof.
  unfold inter_rows, merge_left. now rewrite flat_map_app, map_app.
Qed.

Section Monotone.
Context {S : SortKind}.

Lemma items_global_pop_total (inter : list Inter.row) (pings : list Pings.row)
    (i : Items.row) :
  In i (items inter pings) ->
  Items.global_pop i
  == qsum (map event_score
             (filter (fun r => String.eqb (Scored.ping_id r) (Items.ping_id i))
                     (inter_rows inter pings))).
Proof.
  intro Hi.
  destruct (items_in inter pings i Hi) as (p & _ & Hid & _ & _ & _ & -> & _).
  rewrite Hid.
  destruct (lookup_engagement _ _) as [v|] eqn:E; cbn [fillna].
  - destruct (lookup_engagement_some inter pings _ v E) as (g & Hin & Hg & <-).
    rewrite <- Hg. now apply ping_global_row.
  - rewrite filter_none; [reflexivity|].
    intros r Hr. apply String.eqb_neq. intro Hp.
    destruct (inter_rows_in inter pings r Hr) as (e & d & He & ->).
    now apply (lookup_engagement_none_inv inter pings _ E e He).
Qed.

End Monotone.

(** X26.  With positive known durations and non-negative watch times,
    recording one more event - anywhere in the event table - lowers the
    global_pop of no catalog item. *)
Theorem global_pop_monotone {S : SortKind} (before after : list Inter.row)
    (e : Inter.row) (pings : list Pings.row) (i i' : Items.row)
    (Hdur : forall p v, In p pings -> Pings.duration_sec p = Some v -> 0 < v)
    (Hwatch : 0 <= fillna 0 (Inter.watch_time_sec e))
    (Hi : In i (items (before ++ after) pings))
    (Hi' : In i' (items (before ++ e :: after) pings))
    (Hsame : Items.ping_id i = Items.ping_id i') :
  Items.global_pop i <= Items.global_pop i'.
Proof.
  rewrite (items_global_pop_total _ _ i Hi), (items_global_pop_total _ _ i' Hi').
  rewrite Hsame.
  change (e :: after) with ([e] ++ after)%list.
  rewrite !inter_rows_app, !filter_app, !map_app, !qsum_app.
  assert (H0 : 0 <= qsum (map event_score
                           (filter (fun r => String.eqb (Scored.ping_id r)
                                               (Items.ping_id i'))
                                   (inter_rows [e] pings)))).
  { apply qsum_nonneg. intros x Hx. apply in_map_iff in Hx.
    destruct Hx as (r & <- & Hr). apply filter_In in Hr. destruct Hr as [Hr _].
    pose proof (inter_rows_duration_pos [e] pings Hdur r Hr) as Hd.
    destruct (inter_rows_in [e] pings r Hr) as (e0 & d & He0 & ->).
    destruct He0 as [<-|[]]. now apply resolve_score_nonneg. }
  lra.
Qed.

Definition later_items : list Items.row :=
  items (S:=stable_kind) (demo_inter ++ [late_like]) demo_pings.

Lemma global_pop_monotone_witness :
  (forall p v, In p demo_pings -> Pings.duration_sec p = Some v -> 0 < v)
  /\ 0 <= fillna 0 (Inter.watch_time_sec late_like)
  /\ In (demo_item 2) demo_items
  /\ In (nth 2 later_items (demo_item 0)) later_items
  /\ Items.ping_id (demo_item 2) = Items.ping_id (nth 2 later_items (demo_item 0))
  /\ Items.global_pop (nth 2 later_items (demo_item 0)) == 2
  /\ Items.global_pop (demo_item 2) <= Items.global_pop (nth 2 later_items (demo_item 0)).
Proof.
  assert (Hpos : forall p v, In p demo_pings -> Pings.duration_sec p = Some v -> 0 < v).
  { intros p v Hp Hv. simpl in Hp.
    destruct Hp as [<-|[<-|[<-|[<-|[]]]]]; simpl in Hv;
      try discriminate; injection Hv as <-; reflexivity. }
  assert (Hw : 0 <= fillna 0 (Inter.watch_time_sec late_like))
    by (apply Qle_bool_iff; reflexivity).
  assert (H2 : In (demo_item 2) demo_items) by (apply demo_item_in; lia).
  assert (H2' : In (nth 2 later_items (demo_item 0)) later_items)
    by (apply nth_In; vm_compute; lia).
  assert (Hid : Items.ping_id (demo_item 2)
                = Items.ping_id (nth 2 later_items (demo_item 0)))
    by reflexivity.
  repeat (split; [assumption|]). split; [reflexivity|].
  exact (global_pop_monotone (S:=stable_kind) demo_inter [] late_like demo_pings
           (demo_item 2) (nth 2 later_items (demo_item 0)) Hpos Hw H2 H2' Hid).
Defined.

Lemma user_ping_one_row_per_pair_witness :
  map up_key (user_ping (inter_rows blank_inter demo_pings))
  = [("u1", "p1"); ("u2", "p2")]
  /\ map UserPing.n_events (user_ping (inter_rows blank_inter demo_pings))
     = [1; 0]%nat
  /\ NoDup (map up_key (user_ping (inter_rows blank_inter demo_pings))).
Proof.
  split; [vm_compute; reflexivity|]. split; [vm_compute; reflexivity|].
  apply (user_ping_one_row_per_pair (inter_rows blank_inter demo_pings)).
Defined.

Lemma global_engagement_is_event_total_witness :
  map PingGlobal.ping_id demo_global = ["p2"; "p1"; "p4"]
  /\ qsum (map PingGlobal.global_engagement demo_global)
     == qsum (map event_score (inter_rows demo_inter demo_pings)).
Proof.
  split; [vm_compute; reflexivity|].
  apply (global_engagement_is_event_total (S:=stable_kind) demo_inter demo_pings).
Defined.

Lemma pings_per_user_spec_witness :
  map (fun r => (PingsPerUser.user_id r, PingsPerUser.is_new r))
      (pings_per_user demo_inter demo_pings demo_users)
  = [("u1", false); ("u2", true); ("u3", false); ("u4", true)]
  /\ map PingsPerUser.user_id (pings_per_user demo_inter demo_pings demo_users)
     = map Users.user_id demo_users.
Proof.
  split; [vm_compute; reflexivity|].
  apply (pings_per_user_spec demo_inter demo_pings demo_users).
Defined.
